(** * emoji-count: the /export-reactions command of index.js

    A shallow embedding of [parseMessageRef] and of the listener of
    [Events.InteractionCreate] of index.js.

    - [parseMessageRef] is a function on strings; its regular expression is
      a term of a small regular expression language, run by a backtracking
      matcher.
    - The listener is a computation in a monad of its own: it passes the
      state of the platform along, collects what it does to the outside (the
      replies, the fetches and their results, the errors written to the
      console) and completes normally or by throwing.  The client library
      and the platform behind it are a parameter, [Platform]: any state, any
      answers.  The two fetches can throw, and their errors are caught as
      in the code; reading [interaction.guild.channels] throws when the
      guild is not in the client's cache, and nothing catches that.  The
      replies themselves ([reply], [deferReply], [editReply]) are taken to
      arrive: the model has no run in which one of them rejects.
    - The [while (true)] loop of a reaction group takes a bound on its
      iterations; a run that reaches the bound has no result.

    Strings are byte strings: a JavaScript string is held as its UTF-8
    bytes.  Every character the code inspects (the regular expression's
    literal characters, digits, the comma and the newline) is ASCII, and an
    ASCII byte never occurs inside a multi-byte UTF-8 sequence, so matching
    and concatenation agree with the UTF-16 strings of the runtime. *)

From Stdlib Require Import List Arith Lia Bool Ascii String DecimalString.
Import ListNotations.
Open Scope string_scope.

(** ** JavaScript values of the optional fields *)

Module JS.

(** A value that is a string, [null] or [undefined]: a property of a record
    that may be absent, a [Map] lookup, an emoji's nullable id and name. *)
Inductive val : Type :=
| Undefined
| Null
| Str (s : string).

(** [ToBoolean]: the empty string, [null] and [undefined] are falsy. *)
Definition truthy (v : val) : bool :=
  match v with
  | Str s => negb (s =? "")
  | _ => false
  end.

(** [v ?? d] *)
Definition nullish (v : val) : bool :=
  match v with
  | Str _ => false
  | _ => true
  end.

(** [ToString], as a template literal applies it to a substitution. *)
Definition to_string (v : val) : string :=
  match v with
  | Undefined => "undefined"
  | Null => "null"
  | Str s => s
  end.

(** [o ?? d] for an option getter that returns [null], here [None], when
    the option was left out. *)
Definition coalesce {A : Type} (o : option A) (d : A) : A :=
  match o with
  | Some a => a
  | None => d
  end.

End JS.

(** ** Strings *)

(** [skip n s] is [s.slice(n)]. *)
Fixpoint skip (n : nat) (s : string) : string :=
  match n, s with
  | S n', String _ s' => skip n' s'
  | _, _ => s
  end.

(** ** The regular expression of [parseMessageRef]

    A backtracking matcher for the fragment of the regular expression
    language that the pattern uses: pattern characters, the class escape
    [\d], the greedy quantifier [+] on an atom, capturing groups and
    sequencing.  The matcher is written in continuation-passing style, as
    the language definition gives it: a quantifier that has consumed too much
    is asked again when the continuation fails. *)

Module Regex.

Inductive atom : Type :=
| Char (c : ascii)     (* a pattern character, escaped or not *)
| Digit.               (* \d *)

Inductive t : Type :=
| Empty
| Atom (a : atom)
| Plus (a : atom)      (* a+ , greedy *)
| Group (r : t)        (* ( r ) *)
| Seq (r1 r2 : t).

(** [\d] is [0-9] and nothing else. *)
Definition is_digit (c : ascii) : bool :=
  let n := nat_of_ascii c in (Nat.leb 48 n && Nat.leb n 57)%bool.

Definition accepts (a : atom) (c : ascii) : bool :=
  match a with
  | Char c' => Ascii.eqb c' c
  | Digit => is_digit c
  end.

(** The literal [s], one pattern character after the other. *)
Fixpoint lit (s : string) : t :=
  match s with
  | EmptyString => Empty
  | String c s' => Seq (Atom (Char c)) (lit s')
  end.

(** What a match from [s] that left [rest] has consumed. *)
Definition consumed (s rest : string) : string :=
  substring 0 (length s - length rest) s.

Section Matcher.
Context {R : Type}.

(** [a*], greedy: take one more character when there is one, and give it
    back when what follows cannot match. *)
Fixpoint star (a : atom) (s : string) (k : string -> option R) : option R :=
  match s with
  | String c s' =>
      if accepts a c then
        match star a s' k with
        | Some r => Some r
        | None => k s
        end
      else k s
  | EmptyString => k s
  end.

Definition plus (a : atom) (s : string) (k : string -> option R) : option R :=
  match s with
  | String c s' => if accepts a c then star a s' k else None
  | EmptyString => None
  end.

(** [run r s caps k]: match [r] at the head of [s], with the captures
    [caps] collected so far, then continue with [k]. *)
Fixpoint run (r : t) (s : string) (caps : list string)
         (k : string -> list string -> option R) : option R :=
  match r with
  | Empty => k s caps
  | Atom a =>
      match s with
      | String c s' => if accepts a c then k s' caps else None
      | EmptyString => None
      end
  | Plus a => plus a s (fun s' => k s' caps)
  | Group r' => run r' s caps (fun s' caps' => k s' (caps' ++ [consumed s s'])%list)
  | Seq r1 r2 => run r1 s caps (fun s' caps' => run r2 s' caps' k)
  end.

End Matcher.

(** A match at the head of [s]: the match array, the whole match at index 0
    and the captures after it. *)
Definition match_here (r : t) (s : string) : option (list string) :=
  run r s [] (fun rest caps => Some (consumed s rest :: caps)).

(** [String.prototype.match] with a regular expression that has no [g]
    flag: the first start position, from the left, at which the pattern
    matches; [None] is [null]. *)
Fixpoint search (r : t) (s : string) : option (list string) :=
  match match_here r s with
  | Some m => Some m
  | None =>
      match s with
      | String _ s' => search r s'
      | EmptyString => None
      end
  end.

(** [m[i]] *)
Definition group (m : list string) (i : nat) : JS.val :=
  match nth_error m i with
  | Some s => JS.Str s
  | None => JS.Undefined
  end.

End Regex.

(** ** parseMessageRef *)

(** [{ guildId, channelId, messageId }]; a property that the object does not
    have reads as [undefined]. *)
Record MessageRef : Type := mkRef {
  guildId : JS.val;
  channelId : JS.val;
  messageId : JS.val
}.

Definition anchor : string := "discord.com/channels/".

(** [/discord\.com\/channels\/(\d+)\/(\d+)\/(\d+)/] *)
Definition url_regex : Regex.t :=
  Regex.Seq (Regex.lit anchor)
    (Regex.Seq (Regex.Group (Regex.Plus Regex.Digit))
      (Regex.Seq (Regex.Atom (Regex.Char "/"))
        (Regex.Seq (Regex.Group (Regex.Plus Regex.Digit))
          (Regex.Seq (Regex.Atom (Regex.Char "/"))
            (Regex.Group (Regex.Plus Regex.Digit)))))).

Definition parseMessageRef (input : string) : MessageRef :=
  match Regex.search url_regex input with
  | Some m =>
      {| guildId := Regex.group m 1;
         channelId := Regex.group m 2;
         messageId := Regex.group m 3 |}
  | None =>
      {| guildId := JS.Undefined;
         channelId := JS.Undefined;
         messageId := JS.Str input |}
  end.

(** ** The platform's objects *)

(** A [Collection]: a [Map] from snowflake to value, in insertion order. *)
Definition Collection (V : Type) : Type := list (string * V).

Module Emoji.
Record t : Type := mk { id : JS.val; name : JS.val }.
End Emoji.

Module User.
Record t : Type := mk { id : string; username : string; discriminator : string }.
End User.

(** A reaction group of a message.  [emoji] is [None] when the property is
    [null] or [undefined]; the group's user manager is reached through the
    platform, see [users_fetch]. *)
Record Reaction : Type := mkReaction { emoji : option Emoji.t }.

(** [message.reactions.cache] *)
Record Message : Type := mkMessage { reactions_cache : Collection Reaction }.

Inductive Channel : Type := TextChannel (channel_id : string).

(** The interaction that the gateway delivers, with the options as
    [interaction.options] returns them: [getChannel] and [getBoolean] give
    [null], here [None], for an option that was left out. *)
Record Interaction : Type := mkInteraction {
  isChatInputCommand : bool;
  commandName : string;
  inGuild : bool;
  option_message : string;
  option_channel : option Channel;
  option_include_user_ids : option bool
}.

(** The client library and the platform behind it.  A call may change the
    platform's state and may throw. *)
Record Platform : Type := mkPlatform {
  World : Type;
  Error : Type;
  (* interaction.guild is null, although inGuild() is true, when the guild
     is not in the client's cache: then the TypeError that reading
     [.channels] of it throws; None when the guild is there *)
  guild_missing : World -> option Error;
  (* interaction.guild.channels.cache.get(id), when the guild is there *)
  channels_cache_get : World -> JS.val -> option Channel;
  (* channel.messages.fetch(id) *)
  messages_fetch : World -> Channel -> JS.val -> World * (Error + Message);
  (* reaction.users.fetch({ limit, after }) *)
  users_fetch :
    World -> Reaction -> nat -> JS.val -> World * (Error + Collection User.t)
}.

(** ** CSV text *)

Definition newline : string := String (ascii_of_nat 10) "".

(** [header] of the handler *)
Definition header (includeIds : bool) : string :=
  if includeIds then "Emoji,User,User ID" ++ newline
  else "Emoji,User" ++ newline.

(** The text that one call of [addLine] appends to [csv]. *)
Definition line (includeIds : bool) (emoji : string) (user : User.t) : string :=
  let tag := User.username user ++ "#" ++ User.discriminator user in
  if includeIds then emoji ++ "," ++ tag ++ "," ++ User.id user ++ newline
  else emoji ++ "," ++ tag ++ newline.

Definition addLine (includeIds : bool) (csv : string) (emoji : string)
           (user : User.t) : string :=
  csv ++ line includeIds emoji user.

(** [emojiLabel] of the handler:
    [reaction.emoji?.id ? `${name}:${id}` : reaction.emoji?.name ?? 'unknown'] *)
Definition emojiLabel (reaction : Reaction) : string :=
  match emoji reaction with
  | Some e =>
      if JS.truthy (Emoji.id e)
      then JS.to_string (Emoji.name e) ++ ":" ++ JS.to_string (Emoji.id e)
      else if JS.nullish (Emoji.name e) then "unknown"
           else JS.to_string (Emoji.name e)
  | None => "unknown"
  end.

(** [for (const [, user] of batch) addLine(emojiLabel, user)] *)
Definition addLines (includeIds : bool) (emojiLabel : string)
           (batch : Collection User.t) (csv : string) : string :=
  fold_left (fun csv entry => addLine includeIds csv emojiLabel (snd entry))
            batch csv.

(** [[...batch.keys()].pop()] *)
Definition last_key {V : Type} (batch : Collection V) : JS.val :=
  match rev batch with
  | (k, _) :: _ => JS.Str k
  | [] => JS.Undefined
  end.

(** The replies of the handler. *)
Definition msg_not_in_server : string := "❌ Use this command inside a server.".
Definition msg_missing_channel : string :=
  "❌ Provide a channel when using a bare message ID.".
Definition msg_channel_inaccessible : string := "❌ I cannot access that channel.".
Definition msg_message_fetch_failed : string :=
  "❌ Could not fetch that message. Check the channel, ID/URL, and my permissions.".
Definition msg_reaction_fetch_failed : string :=
  "❌ Failed to fetch reaction users. Ensure I have **View Channel**, **Read Message History**, and **Read Reactions** permissions.".
Definition msg_no_reactions : string :=
  "ℹ️ That message has no reactions to export.".
Definition msg_export_complete : string := "✅ Export complete. Here’s your file:".

(** ** The handler *)

Section Handler.
Variable P : Platform.

(** What the handler does to the outside, in order. *)
Inductive Event : Type :=
| Reply (content : string) (ephemeral : bool)
| DeferReply (ephemeral : bool)
| EditReply (content : string)
| EditReplyFile (content : string) (name : string) (data : string)
| MessagesFetch (channel : Channel) (id : JS.val)
                (result : Error P + Message)
| UsersFetch (reaction : Reaction) (limit : nat) (after : JS.val)
             (result : Error P + Collection User.t)
| ConsoleError (err : Error P).

Inductive completion (A : Type) : Type :=
| Normal (a : A)
| Throw (err : Error P).
Arguments Normal {A} a.
Arguments Throw {A} err.

(** A computation of the handler: from the platform's state to the new
    state, the events emitted and how the computation completed.  [None]
    when the bound on loop iterations was reached. *)
Definition M (A : Type) : Type :=
  World P -> option (World P * list Event * completion A).

Definition ret {A : Type} (a : A) : M A :=
  fun w => Some (w, [], Normal a).

Definition bind {A B : Type} (m : M A) (f : A -> M B) : M B :=
  fun w =>
    match m w with
    | None => None
    | Some (w1, l1, Throw err) => Some (w1, l1, Throw err)
    | Some (w1, l1, Normal a) =>
        match f a w1 with
        | None => None
        | Some (w2, l2, c) => Some (w2, (l1 ++ l2)%list, c)
        end
    end.

(** [try { m } catch (err) { h err }] *)
Definition try_catch {A : Type} (m : M A) (h : Error P -> M A) : M A :=
  fun w =>
    match m w with
    | None => None
    | Some (w1, l1, Normal a) => Some (w1, l1, Normal a)
    | Some (w1, l1, Throw err) =>
        match h err w1 with
        | None => None
        | Some (w2, l2, c) => Some (w2, (l1 ++ l2)%list, c)
        end
    end.

Definition emit (e : Event) : M unit :=
  fun w => Some (w, [e], Normal tt).

Definition out_of_fuel {A : Type} : M A := fun _ => None.

Definition of_result {A : Type} (r : Error P + A) : completion A :=
  match r with
  | inl err => Throw err
  | inr a => Normal a
  end.

Definition fetch_message (channel : Channel) (id : JS.val) : M Message :=
  fun w =>
    let (w1, r) := messages_fetch P w channel id in
    Some (w1, [MessagesFetch channel id r], of_result r).

Definition fetch_users (reaction : Reaction) (limit : nat) (after : JS.val)
  : M (Collection User.t) :=
  fun w =>
    let (w1, r) := users_fetch P w reaction limit after in
    Some (w1, [UsersFetch reaction limit after r], of_result r).

(** [interaction.guild.channels.cache.get(id)], line 105: reading
    [.channels] throws when the guild is null, outside any [try]. *)
Definition cache_get (id : JS.val) : M (option Channel) :=
  fun w =>
    match guild_missing P w with
    | Some err => Some (w, [], Throw err)
    | None => Some (w, [], Normal (channels_cache_get P w id))
    end.

Notation "x <- m ;; k" := (bind m (fun x => k))
  (at level 61, m at next level, right associativity).
Notation "m ;;; k" := (bind m (fun _ => k))
  (at level 61, right associativity).

(** The [while (true)] loop of one reaction group; [fuel] bounds its
    iterations. *)
Fixpoint paginate (fuel : nat) (includeIds : bool) (reaction : Reaction)
         (emojiLabel : string) (lastId : JS.val) (csv : string) : M string :=
  match fuel with
  | O => out_of_fuel
  | S fuel' =>
      batch <- fetch_users reaction 100 lastId ;;
      if List.length batch =? 0 then ret csv
      else
        let csv := addLines includeIds emojiLabel batch csv in
        let lastId := last_key batch in
        if List.length batch <? 100 then ret csv
        else paginate fuel' includeIds reaction emojiLabel lastId csv
  end%nat.

(** [for (const [, reaction] of message.reactions.cache)] *)
Fixpoint for_reactions (fuel : nat) (includeIds : bool)
         (reactions : Collection Reaction) (csv : string) : M string :=
  match reactions with
  | [] => ret csv
  | (_, reaction) :: rest =>
      csv <- paginate fuel includeIds reaction (emojiLabel reaction)
                      JS.Undefined csv ;;
      for_reactions fuel includeIds rest csv
  end.

(** The handler from the CSV on: lines 117 to 155. *)
Definition export (fuel : nat) (includeIds : bool) (message : Message)
  : M unit :=
  let header := header includeIds in
  r <- try_catch
         (csv <- for_reactions fuel includeIds (reactions_cache message) header ;;
          ret (Some csv))
         (fun err =>
            emit (ConsoleError err) ;;;
            emit (EditReply msg_reaction_fetch_failed) ;;;
            ret None) ;;
  match r with
  | None => ret tt
  | Some csv =>
      if csv =? header then emit (EditReply msg_no_reactions)
      else emit (EditReplyFile msg_export_complete "reactions.csv" csv)
  end.

(** The handler once the channel is known: lines 109 to 155. *)
Definition export_from (fuel : nat) (includeIds : bool) (ref : MessageRef)
           (channel : Channel) : M unit :=
  r <- try_catch
         (message <- fetch_message channel (messageId ref) ;;
          ret (Some message))
         (fun err =>
            emit (ConsoleError err) ;;;
            emit (EditReply msg_message_fetch_failed) ;;;
            ret None) ;;
  match r with
  | None => ret tt
  | Some message => export fuel includeIds message
  end.

(** The listener of [Events.InteractionCreate]. *)
Definition handler (fuel : nat) (interaction : Interaction) : M unit :=
  if negb (isChatInputCommand interaction)
     || negb (commandName interaction =? "export-reactions")
  then ret tt
  else if negb (inGuild interaction)
  then emit (Reply msg_not_in_server true)
  else
    let raw := option_message interaction in
    let optChannel := option_channel interaction in
    let includeIds := JS.coalesce (option_include_user_ids interaction) true in
    emit (DeferReply true) ;;;
    let ref := parseMessageRef raw in
    match optChannel with
    | Some channel => export_from fuel includeIds ref channel
    | None =>
        if negb (JS.truthy (channelId ref))
        then emit (EditReply msg_missing_channel)
        else
          channel <- cache_get (channelId ref) ;;
          match channel with
          | None => emit (EditReply msg_channel_inaccessible)
          | Some channel => export_from fuel includeIds ref channel
          end
    end.

(** *** The exporter as the specification words it

    Drain one reaction group after the other: fetch the pages of a group
    until an empty or a short page, keep the users in the order fetched,
    and only then format the rows, group by group. *)

(** The users of a page, in its order. *)
Definition values {V : Type} (batch : Collection V) : list V := map snd batch.

Fixpoint drain (fuel : nat) (reaction : Reaction) (lastId : JS.val)
  : M (list User.t) :=
  match fuel with
  | O => out_of_fuel
  | S fuel' =>
      batch <- fetch_users reaction 100 lastId ;;
      if List.length batch =? 0 then ret []
      else if List.length batch <? 100 then ret (values batch)
      else
        later <- drain fuel' reaction (last_key batch) ;;
        ret (values batch ++ later)%list
  end%nat.

Fixpoint drain_all (fuel : nat) (reactions : Collection Reaction)
  : M (list (Reaction * list User.t)) :=
  match reactions with
  | [] => ret []
  | (_, reaction) :: rest =>
      users <- drain fuel reaction JS.Undefined ;;
      groups <- drain_all fuel rest ;;
      ret ((reaction, users) :: groups)
  end.

End Handler.

Arguments Reply {P} content ephemeral.
Arguments DeferReply {P} ephemeral.
Arguments EditReply {P} content.
Arguments EditReplyFile {P} content name data.
Arguments MessagesFetch {P} channel id result.
Arguments UsersFetch {P} reaction limit after result.
Arguments ConsoleError {P} err.
Arguments Normal {P A} a.
Arguments Throw {P A} err.
Arguments ret {P A} a _.
Arguments bind {P A B} m f _.
Arguments emit {P} e _.
Arguments try_catch {P A} m h _.
Arguments fetch_users {P} reaction limit after _.
Arguments fetch_message {P} channel id _.
Arguments of_result {P A} r.

(** The rows of one group: one line per user, under one label. *)
Definition rows (includeIds : bool) (label : string) (users : list User.t)
  : string :=
  concat "" (map (line includeIds label) users).

(** The data rows of a message: the rows of its groups, one group after the
    other. *)
Definition grouped_rows (includeIds : bool)
           (groups : list (Reaction * list User.t)) : string :=
  concat "" (map (fun g => rows includeIds (emojiLabel (fst g)) (snd g)) groups).

(** The replies among the events: what the invoking user gets to see. *)
Definition is_reply {P : Platform} (e : Event P) : bool :=
  match e with
  | Reply _ _ | DeferReply _ | EditReply _ | EditReplyFile _ _ _ => true
  | _ => false
  end.

Definition replies {P : Platform} (log : list (Event P)) : list (Event P) :=
  filter is_reply log.

Definition is_attachment {P : Platform} (e : Event P) : bool :=
  match e with
  | EditReplyFile _ _ _ => true
  | _ => false
  end.

Definition is_message_fetch {P : Platform} (e : Event P) : bool :=
  match e with
  | MessagesFetch _ _ _ => true
  | _ => false
  end.

Definition is_users_fetch {P : Platform} (e : Event P) : bool :=
  match e with
  | UsersFetch _ _ _ _ => true
  | _ => false
  end.

(** A page fetch that threw. *)
Definition is_failed_fetch {P : Platform} (e : Event P) : bool :=
  match e with
  | UsersFetch _ _ _ (inl _) => true
  | _ => false
  end.

Definition only_fetches {P : Platform} (log : list (Event P)) : Prop :=
  Forall (fun e => is_users_fetch e = true) log.

Definition none_failed {P : Platform} (log : list (Event P)) : Prop :=
  Forall (fun e => is_failed_fetch e = false) log.

(** The last reply of an export that fetched every page: the file, unless
    the text is still the header. *)
Definition final_reply {P : Platform} (includeIds : bool)
           (groups : list (Reaction * list User.t)) : Event P :=
  let csv := header includeIds ++ grouped_rows includeIds groups in
  if csv =? header includeIds then EditReply msg_no_reactions
  else EditReplyFile msg_export_complete "reactions.csv" csv.

(** The events that a run which never reaches the exporter can emit:
    replies without a file, the failed fetch of the message and its
    report. *)
Definition before_export {P : Platform} (e : Event P) : bool :=
  match e with
  | Reply _ _ | DeferReply _ | EditReply _ | ConsoleError _ => true
  | MessagesFetch _ _ (inl _) => true
  | _ => false
  end.

(** A run that never reached the exporter. *)
Definition quiet {P : Platform} (log : list (Event P)) : Prop :=
  Forall (fun e => before_export e = true) log.

(** Every group of the message gives an empty first page. *)
Definition no_reactors (P : Platform) (message : Message) : Prop :=
  forall (w : World P) (k : string) (r : Reaction),
    In (k, r) (reactions_cache message) ->
    exists w', users_fetch P w r 100 JS.Undefined = (w', inr []).

(** The groups of a message none of which has a user. *)
Definition empty_groups (reactions : Collection Reaction)
  : list (Reaction * list User.t) :=
  map (fun entry => (snd entry, [])) reactions.

(** The first row of a text: up to its first newline. *)
Fixpoint first_line (s : string) : string :=
  match s with
  | EmptyString => EmptyString
  | String c s' =>
      if Ascii.eqb c (ascii_of_nat 10) then EmptyString
      else String c (first_line s')
  end.

(** ** Message links and numeric strings *)

Fixpoint all_digits (s : string) : bool :=
  match s with
  | EmptyString => true
  | String c s' => Regex.is_digit c && all_digits s'
  end.

(** A snowflake as it is written: digits, at least one. *)
Definition numeric (s : string) : bool :=
  negb (s =? "") && all_digits s.

Definition leads_with_digit (s : string) : bool :=
  match s with
  | String c _ => Regex.is_digit c
  | EmptyString => false
  end.

(** [discord.com/channels/<guild>/<channel>/<message>] *)
Definition message_path (g c m : string) : string :=
  anchor ++ g ++ "/" ++ c ++ "/" ++ m.

(** A message link: an origin (the scheme, and a subdomain if any) in
    front of the path. *)
Definition message_url (origin g c m : string) : string :=
  origin ++ message_path g c m.

(** The longest run of digits at the head of [s], and what follows it. *)
Fixpoint take_digits (s : string) : string :=
  match s with
  | String c s' => if Regex.is_digit c then String c (take_digits s') else ""
  | EmptyString => ""
  end.

Fixpoint drop_digits (s : string) : string :=
  match s with
  | String c s' => if Regex.is_digit c then drop_digits s' else s
  | EmptyString => ""
  end.

(** The pattern read from left to right without going back: the anchor,
    then three runs of digits with a slash between them.  [url_here_ok]
    shows that the backtracking matcher computes this. *)
Definition segment (s : string) : option (string * string) :=
  if leads_with_digit s then Some (take_digits s, drop_digits s) else None.

Definition slash (s : string) : option string :=
  match s with
  | String c s' => if Ascii.eqb "/" c then Some s' else None
  | EmptyString => None
  end.

Definition url_here (s : string) : option (list string) :=
  if prefix anchor s then
    match segment (skip (length anchor) s) with
    | Some (g, s1) =>
        match slash s1 with
        | Some s2 =>
            match segment s2 with
            | Some (c, s3) =>
                match slash s3 with
                | Some s4 =>
                    match segment s4 with
                    | Some (m, s5) => Some [Regex.consumed s s5; g; c; m]
                    | None => None
                    end
                | None => None
                end
            | None => None
            end
        | None => None
        end
    | None => None
    end
  else None.

(** [anchor] begins at none of the first [n] positions of [s]. *)
Fixpoint anchor_not_before (n : nat) (s : string) : bool :=
  match n with
  | O => true
  | S n' =>
      negb (prefix anchor s)
      && match s with
         | String _ s' => anchor_not_before n' s'
         | EmptyString => true
         end
  end.

(** The pattern occurs in [input]: the declarative reading of the regular
    expression. *)
Definition occurs_in (input : string) : Prop :=
  exists pre g c m rest,
    input = pre ++ message_path g c m ++ rest
    /\ numeric g = true /\ numeric c = true /\ numeric m = true.

(** ** Collection order of a group's users *)

(** The position of [k] in [ids], the first one. *)
Fixpoint rank (ids : list string) (k : string) : option nat :=
  match ids with
  | [] => None
  | k' :: ids' =>
      if k' =? k then Some 0
      else match rank ids' k with
           | Some i => Some (S i)
           | None => None
           end
  end.

(** [b] comes strictly later than [a] in [ids]. *)
Definition later (ids : list string) (a b : string) : bool :=
  match rank ids a, rank ids b with
  | Some i, Some j => (i <? j)%nat
  | _, _ => false
  end.

(** The keys are listed in the order of [ids], none twice. *)
Fixpoint ascending (ids : list string) (keys : list string) : bool :=
  match keys with
  | a :: (b :: _) as rest => later ids a b && ascending ids rest
  | _ => true
  end.

(** How far the cursor [b] is past the cursor [a]. *)
Definition advance (ids : list string) (a b : string) : nat :=
  match rank ids a, rank ids b with
  | Some i, Some j => j - i
  | _, _ => 0
  end.

(** No key occurs twice. *)
Fixpoint distinct (keys : list string) : bool :=
  match keys with
  | [] => true
  | k :: rest => negb (existsb (String.eqb k) rest) && distinct rest
  end.

(** How many users are left from the cursor [c] on, itself included. *)
Definition remaining (ids : list string) (c : string) : nat :=
  match rank ids c with
  | Some i => List.length ids - i
  | None => 0
  end.

(** Whatever the run [a] returns, the run [b] returns too. *)
Definition extends {X : Type} (a b : option X) : Prop :=
  forall x, a = Some x -> b = Some x.

(** A run that starts with the event [e] and goes on as [run]. *)
Definition after_event {P : Platform} {A : Type} (e : Event P)
           (run : option (World P * list (Event P) * completion P A))
  : option (World P * list (Event P) * completion P A) :=
  match run with
  | Some (w, log, c) => Some (w, e :: log, c)
  | None => None
  end.

(** ** A platform to run the handler on

    A platform without state: one message, and for each reaction group
    either its users in collection order or a failure.  A page is what the
    platform's REST interface documents: the first [limit] users after the
    cursor. *)

Fixpoint after_cursor (after : string) (entries : Collection User.t)
  : Collection User.t :=
  match entries with
  | [] => []
  | (k, u) :: rest => if k =? after then rest else after_cursor after rest
  end.

Definition page_of (limit : nat) (after : JS.val) (users : list User.t)
  : Collection User.t :=
  let entries := map (fun u => (User.id u, u)) users in
  firstn limit
    match after with
    | JS.Str k => after_cursor k entries
    | _ => entries
    end.

Definition paged_platform (message : option Message)
           (users : Reaction -> option (list User.t)) : Platform :=
  {| World := unit;
     Error := string;
     guild_missing := fun _ => None;
     channels_cache_get := fun _ id =>
       match id with
       | JS.Str s => Some (TextChannel s)
       | _ => None
       end;
     messages_fetch := fun w _ _ =>
       (w, match message with
           | Some m => inr m
           | None => inl "Unknown Message"
           end);
     users_fetch := fun w reaction limit after =>
       (w, match users reaction with
           | Some us => inr (page_of limit after us)
           | None => inl "Missing Access"
           end) |}.

(** [n] users with the ids 1 to [n], in this order. *)
Definition decimal (n : nat) : string :=
  NilEmpty.string_of_uint (Nat.to_uint n).

Definition some_users (n : nat) : list User.t :=
  map (fun k => User.mk (decimal k) ("user" ++ decimal k) "0") (seq 1 n).

(** Two standard emoji, which have a name and no id, and a custom one. *)
Definition party : Reaction :=
  mkReaction (Some (Emoji.mk JS.Null (JS.Str "🎉"))).

Definition thumbs : Reaction :=
  mkReaction (Some (Emoji.mk JS.Null (JS.Str "👍"))).

Definition partyblob : Reaction :=
  mkReaction (Some (Emoji.mk (JS.Str "999") (JS.Str "partyblob"))).

(** A message with 🎉 from two users and 👍 from three. *)
Definition party_message : Message :=
  mkMessage [("🎉", party); ("👍", thumbs)].

Definition party_users (reaction : Reaction) : option (list User.t) :=
  match emoji reaction with
  | Some e =>
      match Emoji.name e with
      | JS.Str "🎉" => Some (some_users 2)
      | JS.Str "👍" => Some (some_users 3)
      | _ => None
      end
  | None => None
  end.

Definition party_platform : Platform :=
  paged_platform (Some party_message) party_users.

(** The same message on a platform that refuses the reaction users. *)
Definition refusing_platform : Platform :=
  paged_platform (Some party_message) (fun _ => None).

(** A message whose one reaction group has lost its users. *)
Definition deserted_message : Message := mkMessage [("🎉", party)].

Definition deserted_platform : Platform :=
  paged_platform (Some deserted_message) (fun _ => Some []).

(** The events of the export of [deserted_message]. *)
Definition deserted_log : list (Event deserted_platform) :=
  [DeferReply true;
   MessagesFetch (P:=deserted_platform) (TextChannel "2222") (JS.Str "3333")
                 (inr deserted_message);
   UsersFetch (P:=deserted_platform) party 100 JS.Undefined (inr []);
   EditReply msg_no_reactions].

(** A message with one group of 150 users. *)
Definition crowd_platform : Platform :=
  paged_platform (Some (mkMessage [("partyblob:999", partyblob)]))
                 (fun _ => Some (some_users 150)).

(** The text that the export of [party_message] attaches. *)
Definition party_csv (includeIds : bool) : string :=
  if includeIds then
    "Emoji,User,User ID" ++ newline
    ++ "🎉,user1#0,1" ++ newline
    ++ "🎉,user2#0,2" ++ newline
    ++ "👍,user1#0,1" ++ newline
    ++ "👍,user2#0,2" ++ newline
    ++ "👍,user3#0,3" ++ newline
  else
    "Emoji,User" ++ newline
    ++ "🎉,user1#0" ++ newline
    ++ "🎉,user2#0" ++ newline
    ++ "👍,user1#0" ++ newline
    ++ "👍,user2#0" ++ newline
    ++ "👍,user3#0" ++ newline.

(** The events of that export. *)
Definition party_log (includeIds : bool) : list (Event party_platform) :=
  [DeferReply true;
   MessagesFetch (P:=party_platform) (TextChannel "2222") (JS.Str "3333")
                 (inr party_message);
   UsersFetch (P:=party_platform) party 100 JS.Undefined
              (inr (page_of 100 JS.Undefined (some_users 2)));
   UsersFetch (P:=party_platform) thumbs 100 JS.Undefined
              (inr (page_of 100 JS.Undefined (some_users 3)));
   EditReplyFile msg_export_complete "reactions.csv" (party_csv includeIds)].

(** The command given a message link and nothing else. *)
Definition link_interaction (include_user_ids : option bool) : Interaction :=
  mkInteraction true "export-reactions" true
                "https://discord.com/channels/1111/2222/3333"
                None include_user_ids.

(** ** The handler, step by step *)

(** The interaction is a use of the command: the first guard of the
    listener, line 86. *)
Definition is_export_command (i : Interaction) : bool :=
  isChatInputCommand i && (commandName i =? "export-reactions").

(** Line 105 throws: the channel has to come from the guild's cache (no
    channel option, and the reference has a channelId) and
    [interaction.guild] is null. *)
Definition guild_failure (P : Platform) (i : Interaction) (w : World P)
  : option (Error P) :=
  match option_channel i with
  | Some _ => None
  | None =>
      if negb (JS.truthy (channelId (parseMessageRef (option_message i))))
      then None
      else guild_missing P w
  end.

(** Lines 99 to 107 when line 105 does not throw: the channel to fetch the
    message from, or the text of the error reply. *)
Definition resolve_channel (P : Platform) (i : Interaction) (w : World P)
  : string + Channel :=
  let ref := parseMessageRef (option_message i) in
  match option_channel i with
  | Some channel => inr channel
  | None =>
      if negb (JS.truthy (channelId ref)) then inl msg_missing_channel
      else match channels_cache_get P w (channelId ref) with
           | Some channel => inr channel
           | None => inl msg_channel_inaccessible
           end
  end.

(** An edit of the deferred reply, with a file or without. *)
Definition is_edit {P : Platform} (e : Event P) : bool :=
  match e with
  | EditReply _ | EditReplyFile _ _ _ => true
  | _ => false
  end.

(** A fetch, of the message or of a page of users. *)
Definition is_fetch {P : Platform} (e : Event P) : bool :=
  match e with
  | MessagesFetch _ _ _ | UsersFetch _ _ _ _ => true
  | _ => false
  end.

(** A fetch that threw. *)
Definition is_failure {P : Platform} (e : Event P) : bool :=
  match e with
  | MessagesFetch _ _ (inl _) | UsersFetch _ _ _ (inl _) => true
  | _ => false
  end.

(** The users of the pages that a run fetched, in the order fetched. *)
Definition fetched {P : Platform} (log : list (Event P)) : list User.t :=
  flat_map (fun e =>
              match e with
              | UsersFetch _ _ _ (inr batch) => values batch
              | _ => []
              end) log.

(** The fetches of one reaction group form a chain: each asks for 100
    users of the group after the last key of the page before it, the first
    after [cursor]; every page but the last has 100 users or more, and the
    last fetch threw or gave fewer than 100. *)
Fixpoint chained {P : Platform} (reaction : Reaction) (cursor : JS.val)
         (log : list (Event P)) : Prop :=
  match log with
  | [] => False
  | e :: rest =>
      match e with
      | UsersFetch r limit after result =>
          r = reaction /\ limit = 100 /\ after = cursor
          /\ match result with
             | inl _ => rest = []
             | inr page =>
                 if (List.length page <? 100)%nat then rest = []
                 else chained reaction (last_key page) rest
             end
      | _ => False
      end
  end.

(** A platform on which the message cannot be fetched. *)
Definition lost_platform : Platform :=
  paged_platform None (fun _ => None).

Definition lost_log : list (Event lost_platform) :=
  [DeferReply true;
   MessagesFetch (P:=lost_platform) (TextChannel "2222") (JS.Str "3333")
                 (inl "Unknown Message");
   ConsoleError (P:=lost_platform) "Unknown Message";
   EditReply msg_message_fetch_failed].

(** A guild whose channel cache is empty. *)
Definition uncached_platform : Platform :=
  {| World := unit;
     Error := string;
     guild_missing := fun _ => None;
     channels_cache_get := fun _ _ => None;
     messages_fetch := fun w _ _ => (w, inl "Unknown Channel");
     users_fetch := fun w _ _ _ => (w, inl "Missing Access") |}.

(** The TypeError of reading [channels] of null. *)
Definition null_guild : string :=
  "Cannot read properties of null (reading 'channels')".

(** A client that does not have the guild of the interaction in its cache:
    [interaction.guild] is null. *)
Definition guildless_platform : Platform :=
  {| World := unit;
     Error := string;
     guild_missing := fun _ => Some null_guild;
     channels_cache_get := fun _ _ => Some (TextChannel "2222");
     messages_fetch := fun w _ _ => (w, inr party_message);
     users_fetch := fun w _ _ _ => (w, inr []) |}.

(** The fetches of the export of [party_message]: one page for each of its
    two groups. *)
Definition party_fetches : list (Event party_platform) :=
  [UsersFetch (P:=party_platform) party 100 JS.Undefined
              (inr (page_of 100 JS.Undefined (some_users 2)));
   UsersFetch (P:=party_platform) thumbs 100 JS.Undefined
              (inr (page_of 100 JS.Undefined (some_users 3)))].

(** The one fetch of the export on [refusing_platform], which throws. *)
Definition refused_fetch : list (Event refusing_platform) :=
  [UsersFetch (P:=refusing_platform) party 100 JS.Undefined
              (inl "Missing Access")].

(** What is asked of the platform about the users [ids] of a group: a page
    fetched after a cursor holds only users that come strictly later than
    the cursor in collection order. *)
Definition fetches_later (P : Platform) (r : Reaction) (ids : list string)
  : Prop :=
  forall (w : World P) (lastId : string) (w' : World P)
         (page : Collection User.t),
    users_fetch P w r 100 (JS.Str lastId) = (w', inr page) ->
    Forall (fun k => later ids lastId k = true) (map fst page).

(** A page of 100 users or more moves the cursor past 100 more users. *)
Definition advances_by_page (P : Platform) (r : Reaction) (ids : list string)
  : Prop :=
  forall (w : World P) (c : string) (w' : World P)
         (page : Collection User.t),
    users_fetch P w r 100 (JS.Str c) = (w', inr page) ->
    100 <= List.length page ->
    exists k, last_key page = JS.Str k /\ 100 <= advance ids c k.

(** A platform that hands out the 150 users of a group in pages that list
    their users from the last to the first. *)
Definition reversed_platform : Platform :=
  {| World := unit;
     Error := string;
     guild_missing := fun _ => None;
     channels_cache_get := fun _ _ => None;
     messages_fetch := fun w _ _ => (w, inl "Unknown Message");
     users_fetch := fun w _ limit after =>
       (w, inr (rev (page_of limit after (some_users 150)))) |}.

(** The two fetches of the group of 150 users. *)
Definition crowd_fetches : list (Event crowd_platform) :=
  [UsersFetch (P:=crowd_platform) partyblob 100 JS.Undefined
              (inr (page_of 100 JS.Undefined (some_users 150)));
   UsersFetch (P:=crowd_platform) partyblob 100 (JS.Str "100")
              (inr (page_of 100 (JS.Str "100") (some_users 150)))].

(** The events of the export on [refusing_platform]. *)
Definition refusing_log : list (Event refusing_platform) :=
  [DeferReply true;
   MessagesFetch (P:=refusing_platform) (TextChannel "2222") (JS.Str "3333")
                 (inr party_message);
   UsersFetch (P:=refusing_platform) party 100 JS.Undefined
              (inl "Missing Access");
   ConsoleError (P:=refusing_platform) "Missing Access";
   EditReply msg_reaction_fetch_failed].

(** Users under their ids, as a page holds them. *)
Definition keyed (users : list User.t) : Collection User.t :=
  map (fun u => (User.id u, u)) users.

(** The cursor of the loop once the users [seen] have been fetched. *)
Definition cursor_after (seen : list User.t) : JS.val := last_key (keyed seen).

(** ** Reading the CSV text back *)

(** [s.split(sep)] for a separator of one character. *)
Fixpoint split_on (sep : ascii) (s : string) : list string :=
  match s with
  | EmptyString => [""]
  | String c s' =>
      if Ascii.eqb c sep then "" :: split_on sep s'
      else match split_on sep s' with
           | field :: fields => String c field :: fields
           | [] => [String c ""]
           end
  end.

(** The character [c] does not occur in [s]. *)
Fixpoint lacks (c : ascii) (s : string) : bool :=
  match s with
  | EmptyString => true
  | String c' s' => negb (Ascii.eqb c' c) && lacks c s'
  end.

(** How often [c] occurs in [s]. *)
Fixpoint occurrences (c : ascii) (s : string) : nat :=
  match s with
  | EmptyString => 0
  | String c' s' => (if Ascii.eqb c' c then 1 else 0) + occurrences c s'
  end.

(** A text without comma and without newline. *)
Definition plain (s : string) : bool :=
  lacks "," s && lacks (ascii_of_nat 10) s.

Definition plain_user (user : User.t) : bool :=
  plain (User.username user) && plain (User.discriminator user)
  && plain (User.id user).

(** The records of a CSV text: its lines up to the last newline, each
    split at its commas. *)
Definition records (text : string) : list (list string) :=
  map (split_on ",") (removelast (split_on (ascii_of_nat 10) text)).

(** The record that a row is meant to hold. *)
Definition record_of (includeIds : bool) (label : string) (user : User.t)
  : list string :=
  label :: (User.username user ++ "#" ++ User.discriminator user)
        :: (if includeIds then [User.id user] else []).

Definition header_record (includeIds : bool) : list string :=
  if includeIds then ["Emoji"; "User"; "User ID"] else ["Emoji"; "User"].

(** A row without its newline. *)
Definition row_text (includeIds : bool) (label : string) (user : User.t)
  : string :=
  label ++ "," ++ User.username user ++ "#" ++ User.discriminator user
        ++ (if includeIds then "," ++ User.id user else "").

(** The rows of a message without their newlines, group after group. *)
Definition row_texts (includeIds : bool)
           (groups : list (Reaction * list User.t)) : list string :=
  flat_map (fun g => map (row_text includeIds (emojiLabel (fst g))) (snd g))
           groups.

(** The label of a group and the fields of its users are plain. *)
Definition plain_group (g : Reaction * list User.t) : Prop :=
  plain (emojiLabel (fst g)) = true
  /\ Forall (fun u => plain_user u = true) (snd g).

(** A user whose name holds a comma. *)
Definition comma_user : User.t := User.mk "7" "Doe, Jane" "0042".

(** ** Startup: lines 15 to 21, 54 to 75 and 158 *)

(** [String.prototype.trim] on the UTF-8 bytes of a text.  It removes the
    WhiteSpace and LineTerminator code points of the language: TAB, VT, FF,
    SP, LF and CR in one byte; NBSP in two; and in three U+1680, U+2000 to
    U+200A, U+2028, U+2029, U+202F, U+205F, U+3000 and U+FEFF. *)
Module Trim.

Definition space1 (a : ascii) : bool :=
  let x := nat_of_ascii a in
  ((9 <=? x) && (x <=? 13) || (x =? 32))%nat.

Definition space2 (a b : ascii) : bool :=
  ((nat_of_ascii a =? 194) && (nat_of_ascii b =? 160))%nat.

Definition space3 (a b c : ascii) : bool :=
  let x := nat_of_ascii a in
  let y := nat_of_ascii b in
  let z := nat_of_ascii c in
  ((x =? 225) && (y =? 154) && (z =? 128)
   || (x =? 226) && (y =? 128)
      && ((128 <=? z) && (z <=? 138) || (z =? 168) || (z =? 169) || (z =? 175))
   || (x =? 226) && (y =? 129) && (z =? 159)
   || (x =? 227) && (y =? 128) && (z =? 128)
   || (x =? 239) && (y =? 187) && (z =? 191))%nat.

(** The text after the white space character it starts with, if it starts
    with one. *)
Definition strip_space (s : string) : option string :=
  match s with
  | String a s1 =>
      if space1 a then Some s1
      else match s1 with
           | String b s2 =>
               if space2 a b then Some s2
               else match s2 with
                    | String c s3 => if space3 a b c then Some s3 else None
                    | EmptyString => None
                    end
           | EmptyString => None
           end
  | EmptyString => None
  end.

(** The same on the text read backwards: [r] starts with the last byte. *)
Definition strip_space_back (r : string) : option string :=
  match r with
  | String c r1 =>
      if space1 c then Some r1
      else match r1 with
           | String b r2 =>
               if space2 b c then Some r2
               else match r2 with
                    | String a r3 => if space3 a b c then Some r3 else None
                    | EmptyString => None
                    end
           | EmptyString => None
           end
  | EmptyString => None
  end.

Fixpoint strip_all (strip : string -> option string) (n : nat) (s : string)
  : string :=
  match n with
  | O => s
  | S n' =>
      match strip s with
      | Some rest => strip_all strip n' rest
      | None => s
      end
  end.

Definition reverse (s : string) : string :=
  string_of_list_ascii (rev (list_ascii_of_string s)).

Definition trimStart (s : string) : string :=
  strip_all strip_space (length s) s.

Definition trimEnd (s : string) : string :=
  reverse (strip_all strip_space_back (length s) (reverse s)).

Definition trim (s : string) : string := trimEnd (trimStart s).

(** Nothing but white space. *)
Definition blank (s : string) : bool := trimStart s =? "".

End Trim.

(** [process.env] as far as the program reads it. *)
Record Env : Type := mkEnv {
  DISCORD_TOKEN : option string;
  GUILD_ID : option string
}.

(** [process.env.NAME?.trim()] *)
Definition env_trim (value : option string) : JS.val :=
  match value with
  | Some s => JS.Str (Trim.trim s)
  | None => JS.Undefined
  end.

(** What the module does when it is loaded, as far as the outside sees
    it.  [process.exit] ends the program: nothing after it runs. *)
Inductive StartupEvent : Type :=
| ConsoleErrorText (text : string)
| Exit (code : nat)
| Login (token : JS.val).

Definition msg_missing_token : string := "❌ Missing DISCORD_TOKEN in .env".

(** The top level of the module: lines 16 to 21, and [client.login(token)]
    of line 158; the lines between create the client, build the command and
    add the listeners. *)
Definition main (env : Env) : list StartupEvent :=
  let token := env_trim (DISCORD_TOKEN env) in
  if negb (JS.truthy token)
  then [ConsoleErrorText msg_missing_token; Exit 1]
  else [Login token].

(** The command of lines 34 to 52, as [toJSON] gives it to the request. *)
Inductive OptionType : Type := StringOption | ChannelOption | BooleanOption.

Inductive ChannelType : Type := GuildText.

Record CommandOption : Type := mkOption {
  option_type : OptionType;
  option_name : string;
  option_description : string;
  option_required : bool;
  option_channel_types : list ChannelType
}.

Record Command : Type := mkCommand {
  command_name : string;
  command_description : string;
  command_options : list CommandOption
}.

Definition exportCommand : Command :=
  mkCommand "export-reactions"
            "Export all reactions from a message into a CSV file."
            [mkOption StringOption "message" "Message URL or ID" true [];
             mkOption ChannelOption "channel"
                      "Channel (required if using a bare message ID)"
                      false [GuildText];
             mkOption BooleanOption "include_user_ids"
                      "Include user IDs in the CSV (default: true)" false []].

(** [Routes.applicationGuildCommands] and [Routes.applicationCommands] *)
Inductive Route : Type :=
| ApplicationGuildCommands (applicationId : string) (guildId : JS.val)
| ApplicationCommands (applicationId : string).

(** [client.user] *)
Record ClientUser : Type := mkClientUser { user_tag : string; user_id : string }.

Section Ready.
Variable RestError : Type.

Inductive ReadyEvent : Type :=
| ConsoleLog (text : string)
| Put (route : Route) (body : list Command) (result : RestError + unit)
| ConsoleErrorWith (text : string) (err : RestError).

Definition msg_registered_guild (guildId : JS.val) : string :=
  "⚙️ Registered /export-reactions instantly for guild "
  ++ JS.to_string guildId.

Definition msg_registered_global : string :=
  "⚙️ Registered /export-reactions globally (may take up to 1h to appear)".

Definition msg_register_failed : string :=
  "❌ Failed to register slash command:".

(** The listener of [Events.ClientReady], lines 55 to 75.  [put] is
    [rest.put]: it answers or throws. *)
Definition ready (env : Env) (user : ClientUser)
           (put : Route -> list Command -> RestError + unit)
  : list ReadyEvent :=
  let guildId := env_trim (GUILD_ID env) in
  let register (route : Route) (done : string) : list ReadyEvent :=
    let body := [exportCommand] in
    match put route body with
    | inr _ => [Put route body (put route body); ConsoleLog done]
    | inl err =>
        [Put route body (put route body);
         ConsoleErrorWith msg_register_failed err]
    end in
  ConsoleLog ("✅ Logged in as " ++ user_tag user)
  :: if JS.truthy guildId
     then register (ApplicationGuildCommands (user_id user) guildId)
                   (msg_registered_guild guildId)
     else register (ApplicationCommands (user_id user)) msg_registered_global.

End Ready.

Arguments ConsoleLog {RestError} text.
Arguments Put {RestError} route body result.
Arguments ConsoleErrorWith {RestError} text err.
Arguments ready {RestError} env user put.

Definition is_put {E : Type} (e : ReadyEvent E) : bool :=
  match e with
  | Put _ _ _ => true
  | _ => false
  end.

(** The interaction [i] with another value of include_user_ids. *)
Definition with_include_user_ids (i : Interaction) (value : option bool)
  : Interaction :=
  mkInteraction (isChatInputCommand i) (commandName i) (inGuild i)
                (option_message i) (option_channel i) value.

(** An event without the text of its file. *)
Definition without_data {P : Platform} (e : Event P) : Event P :=
  match e with
  | EditReplyFile content name _ => EditReplyFile content name ""
  | _ => e
  end.

(** * Properties

    ** Strings *)

Section Strings.

Lemma append_assoc (a b c : string) : (a ++ b) ++ c = a ++ (b ++ c).
Proof. induction a as [|x a IH]; simpl; [reflexivity | now rewrite IH]. Qed.

Lemma append_empty_r (a : string) : a ++ "" = a.
Proof. induction a as [|x a IH]; simpl; [reflexivity | now rewrite IH]. Qed.

Lemma length_append (a b : string) : length (a ++ b) = length a + length b.
Proof. induction a as [|x a IH]; simpl; [reflexivity | now rewrite IH]. Qed.

Lemma skip_append (a b : string) : skip (length a) (a ++ b) = b.
Proof. induction a as [|x a IH]; simpl; [now destruct b | exact IH]. Qed.


Lemma prefix_append (a b : string) : prefix a (a ++ b) = true.
Proof.
  induction a as [|x a IH]; simpl; [now destruct b |].
  destruct (ascii_dec x x) as [_|Hx]; [exact IH | now elim Hx].
Qed.

Lemma prefix_split (a s : string) :
  prefix a s = true -> s = a ++ skip (length a) s.
Proof.
  revert s. induction a as [|x a IH]; intros s H.
  - now destruct s.
  - destruct s as [|y s]; simpl in H; [discriminate |].
    destruct (ascii_dec x y) as [->|]; [| discriminate].
    simpl. f_equal. now apply IH.
Qed.

Lemma substring_append (a b : string) : substring 0 (length a) (a ++ b) = a.
Proof.
  induction a as [|x a IH]; simpl; [now destruct b | now rewrite IH].
Qed.

Lemma consumed_append (a b : string) : Regex.consumed (a ++ b) b = a.
Proof.
  unfold Regex.consumed. rewrite length_append.
  replace (length a + length b - length b) with (length a) by lia.
  apply substring_append.
Qed.

Lemma concat_app (l1 l2 : list string) :
  concat "" (l1 ++ l2) = concat "" l1 ++ concat "" l2.
Proof.
  induction l1 as [|x l1 IH]; [reflexivity |].
  destruct l1 as [|y l1].
  - simpl. destruct l2 as [|z l2]; simpl; [now rewrite append_empty_r | reflexivity].
  - change (concat "" ((x :: y :: l1) ++ l2))
      with (x ++ "" ++ concat "" ((y :: l1) ++ l2)).
    rewrite IH. simpl. now rewrite append_assoc.
Qed.

Lemma concat_cons (x : string) (l : list string) :
  concat "" (x :: l) = x ++ concat "" l.
Proof. apply (concat_app [x] l). Qed.

End Strings.

(** ** The matcher on the pattern of [parseMessageRef] *)

Section Digits.

Lemma take_drop_digits (s : string) : s = take_digits s ++ drop_digits s.
Proof.
  induction s as [|x s IH]; [reflexivity |].
  simpl. destruct (Regex.is_digit x); simpl; [now rewrite <- IH | reflexivity].
Qed.

Lemma all_digits_take (s : string) : all_digits (take_digits s) = true.
Proof.
  induction s as [|x s IH]; [reflexivity |].
  simpl. destruct (Regex.is_digit x) eqn:E; simpl; [now rewrite E | reflexivity].
Qed.

Lemma drop_digits_stops (s : string) : leads_with_digit (drop_digits s) = false.
Proof.
  induction s as [|x s IH]; [reflexivity |].
  simpl. destruct (Regex.is_digit x) eqn:E; [exact IH | simpl; exact E].
Qed.

Lemma take_digits_append (d t : string) :
  all_digits d = true -> leads_with_digit t = false ->
  take_digits (d ++ t) = d /\ drop_digits (d ++ t) = t.
Proof.
  intros Hd Ht. induction d as [|x d IH]; simpl in *.
  - destruct t as [|y t]; [now split |]. simpl in *. now rewrite Ht.
  - apply andb_true_iff in Hd as [Hx Hd]. rewrite Hx.
    destruct (IH Hd) as [-> ->]. now split.
Qed.

Lemma all_digits_append (a b : string) :
  all_digits (a ++ b) = all_digits a && all_digits b.
Proof.
  induction a as [|x a IH]; simpl; [reflexivity |].
  now rewrite IH, andb_assoc.
Qed.

Lemma numeric_spec (s : string) :
  numeric s = true <-> s <> "" /\ all_digits s = true.
Proof.
  unfold numeric. rewrite andb_true_iff, negb_true_iff, String.eqb_neq.
  reflexivity.
Qed.

Lemma numeric_leads (s t : string) :
  numeric s = true -> leads_with_digit (s ++ t) = true.
Proof.
  intros H. apply numeric_spec in H as [Hne Hd].
  destruct s as [|x s]; [now elim Hne |].
  simpl in *. now apply andb_true_iff in Hd as [-> _].
Qed.

Lemma numeric_append (s t : string) :
  numeric s = true -> all_digits t = true -> numeric (s ++ t) = true.
Proof.
  intros H Ht. apply numeric_spec in H as [Hne Hd]. apply numeric_spec.
  split; [destruct s; [now elim Hne | discriminate] |].
  now rewrite all_digits_append, Hd, Ht.
Qed.

Lemma segment_append (d t : string) :
  numeric d = true -> leads_with_digit t = false ->
  segment (d ++ t) = Some (d, t).
Proof.
  intros Hd Ht. unfold segment. rewrite (numeric_leads d t Hd).
  apply numeric_spec in Hd as [_ Hd].
  now destruct (take_digits_append d t Hd Ht) as [-> ->].
Qed.

Lemma segment_inv (s d t : string) :
  segment s = Some (d, t) ->
  s = d ++ t /\ numeric d = true /\ leads_with_digit t = false.
Proof.
  unfold segment. destruct (leads_with_digit s) eqn:E; [| discriminate].
  intros H. injection H as <- <-. split; [apply take_drop_digits |].
  split; [| apply drop_digits_stops].
  apply numeric_spec. split; [| apply all_digits_take].
  destruct s as [|x s]; [discriminate |]. simpl in *. now rewrite E.
Qed.

Lemma slash_inv (s t : string) : slash s = Some t -> s = "/" ++ t.
Proof.
  destruct s as [|x s]; [discriminate |]. unfold slash.
  destruct (Ascii.eqb_spec "/" x) as [<-|]; [| discriminate].
  now intros [= ->].
Qed.

Lemma slash_append (t : string) : slash ("/" ++ t) = Some t.
Proof. reflexivity. Qed.

Lemma slash_no_digit (t : string) : leads_with_digit ("/" ++ t) = false.
Proof. reflexivity. Qed.

End Digits.

Section MatcherFacts.
Context {R : Type}.

Lemma run_lit (l s : string) (caps : list string)
      (k : string -> list string -> option R) :
  Regex.run (Regex.lit l) s caps k =
  if prefix l s then k (skip (length l) s) caps else None.
Proof.
  revert s. induction l as [|x l IH]; intros s.
  - now destruct s.
  - destruct s as [|y s]; [reflexivity |].
    cbn [Regex.lit Regex.run Regex.accepts prefix length skip].
    destruct (ascii_dec x y) as [->|Hxy].
    + rewrite Ascii.eqb_refl. apply IH.
    + apply Ascii.eqb_neq in Hxy. now rewrite Hxy.
Qed.

(** A greedy run of digits gives nothing back when what follows either
    accepts the longest run or refuses every text that starts with a
    digit. *)
Lemma star_digit (s : string) (k : string -> option R) :
  (k (drop_digits s) = None ->
   forall t, leads_with_digit t = true -> k t = None) ->
  Regex.star Regex.Digit s k = k (drop_digits s).
Proof.
  induction s as [|x s IH]; intros H; [reflexivity |].
  cbn [Regex.star Regex.accepts drop_digits] in *.
  destruct (Regex.is_digit x) eqn:E; [| reflexivity].
  rewrite (IH H). destruct (k (drop_digits s)) eqn:Ek; [reflexivity |].
  apply H; [reflexivity | exact E].
Qed.

Lemma plus_digit (s : string) (k : string -> option R) :
  (k (drop_digits s) = None ->
   forall t, leads_with_digit t = true -> k t = None) ->
  Regex.plus Regex.Digit s k =
  match segment s with
  | Some (_, t) => k t
  | None => None
  end.
Proof.
  intros H. unfold segment. destruct s as [|x s]; [reflexivity |].
  cbn [Regex.plus Regex.accepts leads_with_digit drop_digits] in *.
  destruct (Regex.is_digit x) eqn:E; [| reflexivity].
  now apply star_digit.
Qed.

End MatcherFacts.

Lemma consumed_digits (s : string) :
  Regex.consumed s (drop_digits s) = take_digits s.
Proof.
  rewrite (take_drop_digits s) at 1. apply consumed_append.
Qed.

(** The backtracking matcher on [url_regex] reads the text once, from left
    to right. *)
Lemma url_here_ok (s : string) : Regex.match_here url_regex s = url_here s.
Proof.
  unfold Regex.match_here, url_regex, url_here.
  cbn [Regex.run]. rewrite run_lit.
  destruct (prefix anchor s); [| reflexivity].
  set (s1 := skip (length anchor) s).
  rewrite plus_digit.
  2:{ intros _ [|y t] Ht; [reflexivity |].
      cbn [leads_with_digit] in Ht. cbn [Regex.accepts].
      destruct (Ascii.eqb_spec "/" y) as [<-|]; [discriminate | reflexivity]. }
  unfold segment at 1. unfold segment at 1.
  destruct (leads_with_digit s1); [| reflexivity].
  rewrite consumed_digits.
  destruct (drop_digits s1) as [|y s2] eqn:E1; [reflexivity |].
  cbn [slash Regex.accepts]. destruct (Ascii.eqb "/" y); [| reflexivity].
  rewrite plus_digit.
  2:{ intros _ [|z t] Ht; [reflexivity |].
      cbn [leads_with_digit] in Ht. cbn [Regex.accepts].
      destruct (Ascii.eqb_spec "/" z) as [<-|]; [discriminate | reflexivity]. }
  unfold segment at 1. unfold segment at 1.
  destruct (leads_with_digit s2); [| reflexivity].
  rewrite consumed_digits.
  destruct (drop_digits s2) as [|z s3] eqn:E2; [reflexivity |].
  cbn [slash Regex.accepts]. destruct (Ascii.eqb "/" z); [| reflexivity].
  rewrite plus_digit by discriminate.
  unfold segment.
  destruct (leads_with_digit s3); [| reflexivity].
  now rewrite consumed_digits.
Qed.

Section UrlPattern.

Lemma message_path_append (g c m rest : string) :
  message_path g c m ++ rest = anchor ++ g ++ "/" ++ c ++ "/" ++ m ++ rest.
Proof.
  unfold message_path. now rewrite !append_assoc.
Qed.

Lemma url_here_path (g c m rest : string) :
  numeric g = true -> numeric c = true -> numeric m = true ->
  leads_with_digit rest = false ->
  url_here (message_path g c m ++ rest) = Some [message_path g c m; g; c; m].
Proof.
  intros Hg Hc Hm Hrest. unfold url_here.
  rewrite message_path_append, prefix_append, skip_append.
  rewrite (segment_append g _ Hg (slash_no_digit _)), slash_append.
  rewrite (segment_append c _ Hc (slash_no_digit _)), slash_append.
  rewrite (segment_append m _ Hm Hrest).
  now rewrite <- message_path_append, consumed_append.
Qed.

Lemma url_here_inv (s : string) (l : list string) :
  url_here s = Some l ->
  exists g c m rest,
    s = message_path g c m ++ rest
    /\ numeric g = true /\ numeric c = true /\ numeric m = true
    /\ leads_with_digit rest = false
    /\ l = [message_path g c m; g; c; m].
Proof.
  unfold url_here. destruct (prefix anchor s) eqn:Hp; [| discriminate].
  apply prefix_split in Hp.
  destruct (segment _) as [[g s1]|] eqn:E1; [| discriminate].
  destruct (slash s1) as [s2|] eqn:E2; [| discriminate].
  destruct (segment s2) as [[c s3]|] eqn:E3; [| discriminate].
  destruct (slash s3) as [s4|] eqn:E4; [| discriminate].
  destruct (segment s4) as [[m s5]|] eqn:E5; [| discriminate].
  intros [= <-].
  apply segment_inv in E1 as (H1 & Hg & _), E3 as (H3 & Hc & _),
    E5 as (H5 & Hm & Hrest).
  apply slash_inv in E2, E4. subst s1 s2 s3 s4.
  assert (Hs : s = message_path g c m ++ s5).
  { rewrite message_path_append. rewrite H1 in Hp. exact Hp. }
  exists g, c, m, s5. repeat split; try assumption.
  rewrite Hs at 1. now rewrite consumed_append.
Qed.

(** Whatever follows the path, the pattern matches where the path begins:
    digits that follow go to the last run. *)
Lemma url_here_occurs (g c m rest : string) :
  numeric g = true -> numeric c = true -> numeric m = true ->
  url_here (message_path g c m ++ rest) <> None.
Proof.
  intros Hg Hc Hm.
  assert (E : message_path g c m ++ rest =
              message_path g c (m ++ take_digits rest) ++ drop_digits rest).
  { rewrite (take_drop_digits rest) at 1.
    rewrite !message_path_append. now rewrite !append_assoc. }
  rewrite E, url_here_path; try assumption; [discriminate | |].
  - apply numeric_append; [assumption | apply all_digits_take].
  - apply drop_digits_stops.
Qed.

Lemma url_here_no_anchor (s : string) :
  prefix anchor s = false -> url_here s = None.
Proof. intros H. unfold url_here. now rewrite H. Qed.

(** [search] returns the match at the first position that has one. *)
Lemma search_some (r : Regex.t) (s : string) (l : list string) :
  Regex.search r s = Some l ->
  exists pre t,
    s = pre ++ t /\ Regex.match_here r t = Some l
    /\ forall pre' t', s = pre' ++ t' -> length pre' < length pre ->
                      Regex.match_here r t' = None.
Proof.
  induction s as [|x s IH]; cbn [Regex.search].
  - destruct (Regex.match_here r "") eqn:E; [| discriminate].
    intros [= <-]. exists "", "". repeat split; [assumption |].
    simpl. intros; lia.
  - destruct (Regex.match_here r (String x s)) eqn:E.
    + intros [= <-]. exists "", (String x s). repeat split; [assumption |].
      simpl. intros; lia.
    + intros H. destruct (IH H) as (pre & t & -> & Ht & Hmin).
      exists (String x pre), t. repeat split; [assumption |].
      intros [|y pre'] t' Heq Hlt.
      * simpl in Heq. now subst t'.
      * simpl in Heq, Hlt. injection Heq as _ Heq.
        apply (Hmin pre' t' Heq). lia.
Qed.

Lemma search_none (r : Regex.t) (s : string) :
  Regex.search r s = None ->
  forall pre t, s = pre ++ t -> Regex.match_here r t = None.
Proof.
  induction s as [|x s IH]; cbn [Regex.search].
  - destruct (Regex.match_here r "") eqn:E; [discriminate |].
    intros _ [|y pre] t Heq; [| discriminate]. simpl in Heq. now subst t.
  - destruct (Regex.match_here r (String x s)) eqn:E; [discriminate |].
    intros H [|y pre] t Heq.
    + simpl in Heq. now subst t.
    + simpl in Heq. injection Heq as _ Heq. now apply (IH H pre).
Qed.

Lemma search_skip (n : nat) (s : string) :
  anchor_not_before n s = true ->
  Regex.search url_regex s = Regex.search url_regex (skip n s).
Proof.
  revert s. induction n as [|n IH]; intros s H; [now destruct s |].
  cbn [anchor_not_before] in H. apply andb_true_iff in H as [Hp H].
  apply negb_true_iff in Hp.
  destruct s as [|x s]; [reflexivity |].
  cbn [Regex.search skip].
  rewrite url_here_ok, (url_here_no_anchor _ Hp). now apply IH.
Qed.

Lemma search_path (g c m rest : string) :
  numeric g = true -> numeric c = true -> numeric m = true ->
  leads_with_digit rest = false ->
  Regex.search url_regex (message_path g c m ++ rest) =
  Some [message_path g c m; g; c; m].
Proof.
  intros Hg Hc Hm Hrest.
  assert (H := url_here_path g c m rest Hg Hc Hm Hrest).
  rewrite <- url_here_ok in H.
  destruct (message_path g c m ++ rest); cbn [Regex.search]; now rewrite H.
Qed.


End UrlPattern.

Section ParseFacts.

Lemma digit_not_anchor (x : ascii) (s : string) :
  Regex.is_digit x = true -> prefix anchor (String x s) = false.
Proof.
  intros Hx. cbn [anchor prefix].
  destruct (ascii_dec "d" x) as [<-|]; [discriminate | reflexivity].
Qed.

Lemma search_digits (s : string) :
  all_digits s = true -> Regex.search url_regex s = None.
Proof.
  induction s as [|x s IH]; intros H; [reflexivity |].
  cbn [all_digits] in H. apply andb_true_iff in H as [Hx Hs].
  cbn [Regex.search]. rewrite url_here_ok.
  rewrite (url_here_no_anchor _ (digit_not_anchor x s Hx)). now apply IH.
Qed.

Lemma parse_of_match (input whole g c m : string) :
  Regex.search url_regex input = Some [whole; g; c; m] ->
  parseMessageRef input = mkRef (JS.Str g) (JS.Str c) (JS.Str m).
Proof. intros H. unfold parseMessageRef. now rewrite H. Qed.

Lemma parse_of_no_match (input : string) :
  Regex.search url_regex input = None ->
  parseMessageRef input = mkRef JS.Undefined JS.Undefined (JS.Str input).
Proof. intros H. unfold parseMessageRef. now rewrite H. Qed.

End ParseFacts.

(** C3: a message link, that is an origin in which the pattern does not
    begin, followed by [discord.com/channels/<guild>/<channel>/<message>]
    with three numeric segments, parses to exactly those three segments as
    guildId, channelId and messageId; a bare numeric text parses to a record
    that has the messageId only, equal to the text. *)
Theorem parseMessageRef_link_or_id :
  (forall origin g c m : string,
      numeric g = true -> numeric c = true -> numeric m = true ->
      anchor_not_before (length origin) (message_url origin g c m) = true ->
      parseMessageRef (message_url origin g c m) =
      mkRef (JS.Str g) (JS.Str c) (JS.Str m))
  /\ (forall id : string,
         numeric id = true ->
         parseMessageRef id = mkRef JS.Undefined JS.Undefined (JS.Str id)).
Proof.
  split.
  - intros origin g c m Hg Hc Hm Hfirst.
    apply (parse_of_match _ (message_path g c m)).
    rewrite (search_skip _ _ Hfirst). unfold message_url.
    rewrite skip_append.
    rewrite <- (append_empty_r (message_path g c m)) at 1.
    now apply search_path.
  - intros id Hid. apply parse_of_no_match, search_digits.
    now apply numeric_spec in Hid.
Qed.

Lemma parseMessageRef_link_or_id_witness :
  parseMessageRef (message_url "https://" "1111" "2222" "3333") =
  mkRef (JS.Str "1111") (JS.Str "2222") (JS.Str "3333")
  /\ parseMessageRef "3333" = mkRef JS.Undefined JS.Undefined (JS.Str "3333").
Proof.
  split.
  - apply (proj1 parseMessageRef_link_or_id); reflexivity.
  - apply (proj2 parseMessageRef_link_or_id); reflexivity.
Defined.

(** C9: [parseMessageRef] returns a record for every text, and the record
    has a messageId.  Either the pattern occurs in the text, and the fields
    are the three numeric segments of its leftmost occurrence, the last one
    as long as the digits go; or the pattern does not occur, and the
    messageId is the whole text as it is, whatever it contains. *)
Theorem parseMessageRef_total (input : string) :
  (exists pre g c m rest,
      input = pre ++ message_path g c m ++ rest
      /\ numeric g = true /\ numeric c = true /\ numeric m = true
      /\ leads_with_digit rest = false
      /\ (forall pre' g' c' m' rest',
             input = pre' ++ message_path g' c' m' ++ rest' ->
             numeric g' = true -> numeric c' = true -> numeric m' = true ->
             length pre <= length pre')
      /\ parseMessageRef input = mkRef (JS.Str g) (JS.Str c) (JS.Str m))
  \/ (~ occurs_in input
      /\ parseMessageRef input =
         mkRef JS.Undefined JS.Undefined (JS.Str input)).
Proof.
  destruct (Regex.search url_regex input) as [l|] eqn:E.
  - left. destruct (search_some _ _ _ E) as (pre & t & Hin & Ht & Hmin).
    rewrite url_here_ok in Ht.
    destruct (url_here_inv _ _ Ht) as (g & c & m & rest & -> & Hg & Hc & Hm & Hr & ->).
    exists pre, g, c, m, rest. repeat split; try assumption.
    + intros pre' g' c' m' rest' Hin' Hg' Hc' Hm'.
      destruct (Nat.le_gt_cases (length pre) (length pre')) as [|Hlt];
        [assumption |].
      specialize (Hmin _ _ Hin' Hlt).
      rewrite url_here_ok in Hmin.
      now elim (url_here_occurs g' c' m' rest' Hg' Hc' Hm').
    + now apply (parse_of_match _ (message_path g c m)).
  - right. split; [| now apply parse_of_no_match].
    intros (pre & g & c & m & rest & Hin & Hg & Hc & Hm).
    assert (H := search_none _ _ E _ _ Hin). rewrite url_here_ok in H.
    now elim (url_here_occurs g c m rest Hg Hc Hm).
Qed.

(** ** Computations of the handler *)

Section MonadFacts.
Context {P : Platform}.

Lemma bind_ret_l {A B : Type} (a : A) (f : A -> M P B) (w : World P) :
  bind (ret a) f w = f a w.
Proof.
  unfold bind, ret. now destruct (f a w) as [[[w2 l2] c]|].
Qed.

Lemma bind_assoc {A B C : Type} (m : M P A) (f : A -> M P B)
      (g : B -> M P C) (w : World P) :
  bind (bind m f) g w = bind m (fun a => bind (f a) g) w.
Proof.
  unfold bind. destruct (m w) as [[[w1 l1] [a|err]]|]; try reflexivity.
  destruct (f a w1) as [[[w2 l2] [b|err]]|]; try reflexivity.
  destruct (g b w2) as [[[w3 l3] c]|]; try reflexivity.
  now rewrite app_assoc.
Qed.

Lemma bind_ext {A B : Type} (m : M P A) (f g : A -> M P B) (w : World P) :
  (forall a w1, f a w1 = g a w1) -> bind m f w = bind m g w.
Proof.
  intros H. unfold bind. destruct (m w) as [[[w1 l1] [a|err]]|]; try reflexivity.
  now rewrite H.
Qed.

(** A call that returned, then the rest. *)
Lemma bind_normal {A B : Type} (m : M P A) (f : A -> M P B)
      (w w1 : World P) (l1 : list (Event P)) (a : A) :
  m w = Some (w1, l1, Normal a) ->
  bind m f w =
  match f a w1 with
  | Some (w2, l2, c) => Some (w2, (l1 ++ l2)%list, c)
  | None => None
  end.
Proof. intros H. unfold bind. now rewrite H. Qed.

Lemma bind_throw {A B : Type} (m : M P A) (f : A -> M P B)
      (w w1 : World P) (l1 : list (Event P)) (err : Error P) :
  m w = Some (w1, l1, Throw err) -> bind m f w = Some (w1, l1, Throw err).
Proof. intros H. unfold bind. now rewrite H. Qed.

Lemma fetch_users_eq (r : Reaction) (limit : nat) (after : JS.val)
      (w w1 : World P) (res : Error P + Collection User.t) :
  users_fetch P w r limit after = (w1, res) ->
  fetch_users r limit after w =
  Some (w1, [UsersFetch r limit after res], of_result res).
Proof. intros H. unfold fetch_users. now rewrite H. Qed.

End MonadFacts.

(** ** Rows *)

Section RowFacts.

Lemma rows_app (inc : bool) (label : string) (us vs : list User.t) :
  rows inc label (us ++ vs) = rows inc label us ++ rows inc label vs.
Proof. unfold rows. now rewrite map_app, concat_app. Qed.

Lemma rows_cons (inc : bool) (label : string) (u : User.t) (us : list User.t) :
  rows inc label (u :: us) = line inc label u ++ rows inc label us.
Proof. unfold rows. cbn [map]. apply concat_cons. Qed.

Lemma addLines_rows (inc : bool) (label : string)
      (batch : Collection User.t) (csv : string) :
  addLines inc label batch csv = csv ++ rows inc label (values batch).
Proof.
  unfold addLines, values. revert csv.
  induction batch as [|[k u] batch IH]; intros csv.
  - simpl. now rewrite append_empty_r.
  - cbn [fold_left map snd]. rewrite IH, rows_cons. unfold addLine.
    now rewrite append_assoc.
Qed.

Lemma grouped_rows_cons (inc : bool) (r : Reaction) (us : list User.t)
      (groups : list (Reaction * list User.t)) :
  grouped_rows inc ((r, us) :: groups) =
  rows inc (emojiLabel r) us ++ grouped_rows inc groups.
Proof. unfold grouped_rows. cbn [map fst snd]. apply concat_cons. Qed.

Lemma grouped_rows_app (inc : bool) (g1 g2 : list (Reaction * list User.t)) :
  grouped_rows inc (g1 ++ g2) = grouped_rows inc g1 ++ grouped_rows inc g2.
Proof. unfold grouped_rows. now rewrite map_app, concat_app. Qed.

Lemma line_not_empty (inc : bool) (label : string) (u : User.t) :
  1 <= length (line inc label u).
Proof.
  unfold line, newline. destruct inc; rewrite !length_append; simpl; lia.
Qed.

Lemma rows_not_empty (inc : bool) (label : string) (us : list User.t) :
  us <> [] -> 1 <= length (rows inc label us).
Proof.
  destruct us as [|u us]; [easy |]. intros _.
  rewrite rows_cons, length_append. pose proof (line_not_empty inc label u). lia.
Qed.

Lemma append_neq_self (a b : string) : 1 <= length b -> (a ++ b =? a) = false.
Proof.
  intros H. apply String.eqb_neq. intros E.
  apply (f_equal length) in E. rewrite length_append in E. lia.
Qed.

End RowFacts.

(** ** The loops against the exporter of the specification *)

Section LoopFacts.
Context {P : Platform}.

Lemma paginate_drain (fuel : nat) (inc : bool) (r : Reaction) (label : string)
      (lastId : JS.val) (csv : string) (w : World P) :
  paginate P fuel inc r label lastId csv w =
  bind (drain P fuel r lastId)
       (fun users => ret (csv ++ rows inc label users)) w.
Proof.
  revert lastId csv w. induction fuel as [|fuel IH]; intros lastId csv w;
    [reflexivity |].
  cbn [paginate drain]. rewrite bind_assoc. apply bind_ext.
  intros batch w1.
  destruct (List.length batch =? 0)%nat.
  - rewrite bind_ret_l. unfold rows. simpl. now rewrite append_empty_r.
  - destruct (List.length batch <? 100)%nat.
    + rewrite bind_ret_l. now rewrite addLines_rows.
    + rewrite IH, bind_assoc. apply bind_ext. intros later w2.
      rewrite bind_ret_l, addLines_rows, rows_app. now rewrite append_assoc.
Qed.

Lemma for_reactions_drain_all (fuel : nat) (inc : bool)
      (reactions : Collection Reaction) (csv : string) (w : World P) :
  for_reactions P fuel inc reactions csv w =
  bind (drain_all P fuel reactions)
       (fun groups => ret (csv ++ grouped_rows inc groups)) w.
Proof.
  revert csv w. induction reactions as [|[k r] rest IH]; intros csv w.
  - cbn [for_reactions drain_all]. rewrite bind_ret_l.
    unfold grouped_rows. simpl. now rewrite append_empty_r.
  - cbn [for_reactions drain_all]. unfold bind at 1. rewrite paginate_drain.
    unfold bind.
    destruct (drain P fuel r JS.Undefined w) as [[[w1 l1] [us|err]]|];
      try reflexivity.
    cbn [ret]. rewrite IH. unfold bind.
    destruct (drain_all P fuel rest w1) as [[[w2 l2] [gs|err]]|];
      cbn [ret]; rewrite ?app_nil_r; try reflexivity.
    now rewrite grouped_rows_cons, append_assoc.
Qed.

End LoopFacts.

(** ** The bound on iterations

    A run that returns within a bound returns the same with every larger
    bound: the bound cuts runs short and changes nothing else. *)

Section Fuel.
Context {P : Platform}.

Lemma extends_refl {X : Type} (a : option X) : extends a a.
Proof. now intros x. Qed.

Lemma bind_extends {A B : Type} (m m' : M P A) (f f' : A -> M P B)
      (w : World P) :
  extends (m w) (m' w) ->
  (forall a w1, extends (f a w1) (f' a w1)) ->
  extends (bind m f w) (bind m' f' w).
Proof.
  intros Hm Hf x. unfold bind.
  destruct (m w) as [[[w1 l1] [a|err]]|] eqn:E; [| | discriminate];
    rewrite (Hm _ eq_refl); [| easy].
  destruct (f a w1) as [[[w2 l2] c]|] eqn:E2; [| discriminate].
  now rewrite (Hf a w1 _ E2).
Qed.

Lemma try_catch_extends {A : Type} (m m' : M P A) (h : Error P -> M P A)
      (w : World P) :
  extends (m w) (m' w) -> extends (try_catch m h w) (try_catch m' h w).
Proof.
  intros Hm x. unfold try_catch.
  destruct (m w) as [[[w1 l1] [a|err]]|] eqn:E; [| | discriminate];
    now rewrite (Hm _ eq_refl).
Qed.

Lemma paginate_fuel (fuel fuel' : nat) (inc : bool) (r : Reaction)
      (label : string) (lastId : JS.val) (csv : string) (w : World P) :
  fuel <= fuel' ->
  extends (paginate P fuel inc r label lastId csv w)
          (paginate P fuel' inc r label lastId csv w).
Proof.
  revert fuel' lastId csv w.
  induction fuel as [|fuel IH]; intros fuel' lastId csv w Hle; [easy |].
  destruct fuel' as [|fuel']; [lia |].
  cbn [paginate]. apply bind_extends; [apply extends_refl |].
  intros batch w1.
  destruct (List.length batch =? 0)%nat; [apply extends_refl |].
  destruct (List.length batch <? 100)%nat; [apply extends_refl |].
  apply IH. lia.
Qed.

Lemma for_reactions_fuel (fuel fuel' : nat) (inc : bool)
      (reactions : Collection Reaction) (csv : string) (w : World P) :
  fuel <= fuel' ->
  extends (for_reactions P fuel inc reactions csv w)
          (for_reactions P fuel' inc reactions csv w).
Proof.
  intros Hle. revert csv w.
  induction reactions as [|[k r] rest IH]; intros csv w;
    [apply extends_refl |].
  cbn [for_reactions]. apply bind_extends; [now apply paginate_fuel |].
  intros csv1 w1. apply IH.
Qed.

Lemma export_fuel (fuel fuel' : nat) (inc : bool) (message : Message)
      (w : World P) :
  fuel <= fuel' ->
  extends (export P fuel inc message w) (export P fuel' inc message w).
Proof.
  intros Hle. unfold export.
  apply bind_extends; [| intros; apply extends_refl].
  apply try_catch_extends.
  apply bind_extends; [now apply for_reactions_fuel | intros; apply extends_refl].
Qed.

Lemma export_from_fuel (fuel fuel' : nat) (inc : bool) (ref : MessageRef)
      (channel : Channel) (w : World P) :
  fuel <= fuel' ->
  extends (export_from P fuel inc ref channel w)
          (export_from P fuel' inc ref channel w).
Proof.
  intros Hle. unfold export_from.
  apply bind_extends; [apply extends_refl |].
  intros [message|] w1; [now apply export_fuel | apply extends_refl].
Qed.

Lemma handler_fuel (fuel fuel' : nat) (i : Interaction) (w : World P) :
  fuel <= fuel' -> extends (handler P fuel i w) (handler P fuel' i w).
Proof.
  intros Hle. unfold handler.
  destruct (negb (isChatInputCommand i) || _); [apply extends_refl |].
  destruct (negb (inGuild i)); [apply extends_refl |].
  apply bind_extends; [apply extends_refl |].
  intros _ w1.
  destruct (option_channel i) as [channel|]; [now apply export_from_fuel |].
  destruct (negb (JS.truthy _)); [apply extends_refl |].
  apply bind_extends; [apply extends_refl |].
  intros [channel|] w2; [now apply export_from_fuel | apply extends_refl].
Qed.

End Fuel.

(** ** What a run of the exporter and of the handler looks like *)

Section RunFacts.
Context {P : Platform}.

Lemma drain_log (fuel : nat) (r : Reaction) (lastId : JS.val)
      (w w' : World P) (log : list (Event P)) (c : completion P (list User.t)) :
  drain P fuel r lastId w = Some (w', log, c) ->
  only_fetches log
  /\ match c with
     | Normal _ => none_failed log
     | Throw _ => Exists (fun e => is_failed_fetch e = true) log
     end.
Proof.
  revert lastId w w' log c.
  induction fuel as [|fuel IH]; intros lastId w w' log c; [discriminate |].
  cbn [drain]. unfold bind at 1, fetch_users.
  destruct (users_fetch P w r 100 lastId) as [w1 [err|batch]]; cbn [of_result].
  - intros [= <- <- <-]. split; repeat constructor.
  - destruct (List.length batch =? 0)%nat.
    { cbn [ret]. intros [= <- <- <-]. split; repeat constructor. }
    destruct (List.length batch <? 100)%nat.
    { cbn [ret]. intros [= <- <- <-]. split; repeat constructor. }
    unfold bind.
    destruct (drain P fuel r (last_key batch) w1) as [[[w2 l2] [us|err]]|] eqn:E;
      [| | discriminate].
    + cbn [ret]. intros [= <- <- <-]. destruct (IH _ _ _ _ _ E) as [H1 H2].
      rewrite app_nil_r. split; constructor; auto.
    + intros [= <- <- <-]. destruct (IH _ _ _ _ _ E) as [H1 H2].
      split; [constructor; auto | now apply Exists_cons_tl].
Qed.

Lemma drain_all_log (fuel : nat) (reactions : Collection Reaction)
      (w w' : World P) (log : list (Event P))
      (c : completion P (list (Reaction * list User.t))) :
  drain_all P fuel reactions w = Some (w', log, c) ->
  only_fetches log
  /\ match c with
     | Normal groups => none_failed log /\ map fst groups = map snd reactions
     | Throw _ => Exists (fun e => is_failed_fetch e = true) log
     end.
Proof.
  revert w w' log c.
  induction reactions as [|[k r] rest IH]; intros w w' log c.
  - cbn [drain_all ret]. intros [= <- <- <-]. repeat split; constructor.
  - cbn [drain_all]. unfold bind.
    destruct (drain P fuel r JS.Undefined w) as [[[w1 l1] [us|err]]|] eqn:E1;
      [| | discriminate].
    + destruct (drain_log _ _ _ _ _ _ _ E1) as [F1 N1].
      destruct (drain_all P fuel rest w1) as [[[w2 l2] [gs|err]]|] eqn:E2;
        [| | discriminate].
      * cbn [ret]. intros [= <- <- <-].
        destruct (IH _ _ _ _ E2) as (F2 & N2 & Hg). rewrite app_nil_r.
        repeat split; try (apply Forall_app; now split).
        cbn [map fst snd]. now rewrite Hg.
      * intros [= <- <- <-]. destruct (IH _ _ _ _ E2) as (F2 & N2).
        split; [apply Forall_app; now split |].
        apply Exists_app. now right.
    + intros [= <- <- <-]. now destruct (drain_log _ _ _ _ _ _ _ E1).
Qed.

(** The exporter, from what draining the groups gives. *)
Lemma export_eq (fuel : nat) (inc : bool) (message : Message) (w : World P) :
  export P fuel inc message w =
  match drain_all P fuel (reactions_cache message) w with
  | None => None
  | Some (w1, l, Normal groups) =>
      Some (w1, (l ++ [final_reply inc groups])%list, Normal tt)
  | Some (w1, l, Throw err) =>
      Some (w1,
            (l ++ [ConsoleError err; EditReply msg_reaction_fetch_failed])%list,
            Normal tt)
  end.
Proof.
  unfold export. unfold bind at 1. unfold try_catch. unfold bind at 1.
  rewrite for_reactions_drain_all. unfold bind at 1.
  destruct (drain_all P fuel (reactions_cache message) w)
    as [[[w1 l] [groups|err]]|]; [| | reflexivity].
  - cbn [ret]. rewrite !app_nil_r. unfold final_reply.
    destruct (_ =? _); reflexivity.
  - unfold bind, emit, ret. cbn [app]. now rewrite app_nil_r.
Qed.

Lemma replies_fetches (log : list (Event P)) :
  only_fetches log -> replies log = [].
Proof.
  induction 1 as [|e log He _ IH]; [reflexivity |].
  unfold replies in *. cbn [filter]. rewrite IH. now destruct e.
Qed.

Lemma replies_app (l1 l2 : list (Event P)) :
  replies (l1 ++ l2) = (replies l1 ++ replies l2)%list.
Proof. apply filter_app. Qed.

Lemma fetches_no_attachment (log : list (Event P)) (e : Event P) :
  only_fetches log -> In e log -> is_users_fetch e = true.
Proof. intros H Hin. unfold only_fetches in H. rewrite Forall_forall in H. now apply H. Qed.

End RunFacts.

Section HandlerFacts.
Context {P : Platform}.

Lemma export_from_eq (fuel : nat) (inc : bool) (ref : MessageRef)
      (channel : Channel) (w : World P) :
  export_from P fuel inc ref channel w =
  match messages_fetch P w channel (messageId ref) with
  | (w1, inl err) =>
      Some (w1,
            [MessagesFetch channel (messageId ref) (inl err);
             ConsoleError err; EditReply msg_message_fetch_failed],
            Normal tt)
  | (w1, inr message) =>
      match export P fuel inc message w1 with
      | Some (w2, l, c) =>
          Some (w2, MessagesFetch channel (messageId ref) (inr message) :: l, c)
      | None => None
      end
  end.
Proof.
  unfold export_from, try_catch, fetch_message. unfold bind at 1 2.
  destruct (messages_fetch P w channel (messageId ref)) as [w1 [err|message]];
    cbn [of_result].
  - reflexivity.
  - cbn [ret app].
    now destruct (export P fuel inc message w1) as [[[w2 l] c]|].
Qed.

Lemma export_from_cases (fuel : nat) (inc : bool) (ref : MessageRef)
      (channel : Channel) (w w' : World P) (log : list (Event P))
      (c : completion P unit) :
  export_from P fuel inc ref channel w = Some (w', log, c) ->
  quiet log
  \/ exists message w1 log',
      messages_fetch P w channel (messageId ref) = (w1, inr message)
      /\ log = MessagesFetch channel (messageId ref) (inr message) :: log'
      /\ export P fuel inc message w1 = Some (w', log', c).
Proof.
  rewrite export_from_eq.
  destruct (messages_fetch P w channel (messageId ref)) as [w1 [err|message]].
  - intros [= <- <- <-]. left. repeat constructor.
  - destruct (export P fuel inc message w1) as [[[w2 l] c']|] eqn:E;
      [| discriminate].
    intros [= <- <- <-]. right. now exists message, w1, l.
Qed.

(** A run of the handler either never reaches the exporter, or defers the
    reply, fetches the message and exports it. *)
Lemma handler_cases (fuel : nat) (i : Interaction) (w w' : World P)
      (log : list (Event P)) (c : completion P unit) :
  handler P fuel i w = Some (w', log, c) ->
  quiet log
  \/ exists channel message w1 log',
      let ref := parseMessageRef (option_message i) in
      messages_fetch P w channel (messageId ref) = (w1, inr message)
      /\ log = DeferReply true
               :: MessagesFetch channel (messageId ref) (inr message) :: log'
      /\ export P fuel (JS.coalesce (option_include_user_ids i) true)
                message w1 = Some (w', log', c).
Proof.
  unfold handler.
  destruct (negb (isChatInputCommand i) || _).
  { cbn [ret]. intros [= <- <- <-]. left. constructor. }
  destruct (negb (inGuild i)).
  { cbn [emit]. intros [= <- <- <-]. left. repeat constructor. }
  unfold bind at 1. cbn [emit].
  assert (Hfrom : forall channel,
             match export_from P fuel
                     (JS.coalesce (option_include_user_ids i) true)
                     (parseMessageRef (option_message i)) channel w with
             | Some (w2, l2, c0) => Some (w2, ([DeferReply true] ++ l2)%list, c0)
             | None => None
             end = Some (w', log, c) ->
             quiet log
             \/ exists channel message w1 log',
                 let ref := parseMessageRef (option_message i) in
                 messages_fetch P w channel (messageId ref) = (w1, inr message)
                 /\ log = DeferReply true
                          :: MessagesFetch channel (messageId ref) (inr message)
                          :: log'
                 /\ export P fuel (JS.coalesce (option_include_user_ids i) true)
                           message w1 = Some (w', log', c)).
  { intros channel.
    destruct (export_from P fuel _ _ channel w) as [[[w2 l2] c0]|] eqn:E;
      [| discriminate].
    intros [= <- <- <-].
    destruct (export_from_cases _ _ _ _ _ _ _ _ E)
      as [Hq | (message & w1 & log' & Hm & -> & He)].
    - left. now constructor.
    - right. now exists channel, message, w1, log'. }
  destruct (option_channel i) as [channel|]; [apply Hfrom |].
  destruct (negb (JS.truthy _)).
  { cbn [emit]. intros [= <- <- <-]. left. repeat constructor. }
  unfold bind at 1, cache_get.
  destruct (guild_missing P w) as [err|].
  { intros [= <- <- <-]. left. repeat constructor. }
  destruct (channels_cache_get P w _) as [channel|].
  - cbn [app].
    destruct (export_from P fuel _ _ channel w) as [[[w2 l2] c0]|] eqn:E;
      [| discriminate].
    intros H. apply (Hfrom channel). rewrite E. exact H.
  - cbn [emit app]. intros [= <- <- <-]. left. repeat constructor.
Qed.

End HandlerFacts.

Section ReplyFacts.
Context {P : Platform}.

Lemma quiet_In (log : list (Event P)) (e : Event P) :
  quiet log -> In e log -> before_export e = true.
Proof. intros H Hin. unfold quiet in H. rewrite Forall_forall in H. now apply H. Qed.

Lemma quiet_none_failed (log : list (Event P)) :
  quiet log -> none_failed log.
Proof.
  unfold quiet, none_failed. apply Forall_impl.
  intros e. destruct e as [| | | | | ? ? ? [|] |]; simpl; congruence.
Qed.

Lemma none_failed_not_exists (log : list (Event P)) :
  none_failed log -> ~ Exists (fun e => is_failed_fetch e = true) log.
Proof.
  intros H Hex. apply Exists_exists in Hex as (e & Hin & He).
  unfold none_failed in H. rewrite Forall_forall in H.
  rewrite (H e Hin) in He. discriminate.
Qed.

Lemma final_reply_not_fetch (inc : bool) (groups : list (Reaction * list User.t)) :
  is_users_fetch (@final_reply P inc groups) = false.
Proof. unfold final_reply. now destruct (_ =? _). Qed.

Lemma fetches_no_file (log : list (Event P)) :
  only_fetches log -> Forall (fun e => is_attachment e = false) log.
Proof.
  unfold only_fetches. apply Forall_impl. intros e. now destruct e.
Qed.

(** An attachment of a run is the final reply of its export, and its data
    is the header followed by the rows of the groups. *)
Lemma handler_attachment (fuel : nat) (i : Interaction) (w w' : World P)
      (log : list (Event P)) (c : completion P unit)
      (content name data : string) :
  handler P fuel i w = Some (w', log, c) ->
  In (EditReplyFile content name data) log ->
  exists groups,
    data = header (JS.coalesce (option_include_user_ids i) true)
           ++ grouped_rows (JS.coalesce (option_include_user_ids i) true) groups.
Proof.
  intros Hrun Hin.
  destruct (handler_cases _ _ _ _ _ _ Hrun)
    as [Hq | (channel & message & w1 & log' & Hm & -> & He)].
  { now apply (quiet_In _ _ Hq) in Hin. }
  rewrite export_eq in He.
  destruct (drain_all P fuel (reactions_cache message) w1)
    as [[[w2 l] [groups|err]]|] eqn:E; [| | discriminate].
  - injection He as <- <- <-. destruct (drain_all_log _ _ _ _ _ _ E) as [Hf _].
    destruct Hin as [Hin | [Hin | Hin]]; try discriminate.
    apply in_app_or in Hin as [Hin | [Hin | []]].
    + now apply (fetches_no_attachment _ _ Hf) in Hin.
    + exists groups. unfold final_reply in Hin.
      destruct (_ =? _); [discriminate | now injection Hin].
  - injection He as <- <- <-. destruct (drain_all_log _ _ _ _ _ _ E) as [Hf _].
    destruct Hin as [Hin | [Hin | Hin]]; try discriminate.
    apply in_app_or in Hin as [Hin | [Hin | [Hin | []]]]; try discriminate.
    now apply (fetches_no_attachment _ _ Hf) in Hin.
Qed.

End ReplyFacts.

(** C4: when the command runs in a server, the channel option was left
    out and the parsed reference has no channelId, the handler defers the
    reply, edits it to the missing-channel message and does nothing else; in
    particular it never calls the message fetch. *)
Theorem missing_channel_context (P : Platform) (fuel : nat) (i : Interaction)
        (w : World P) :
  isChatInputCommand i = true ->
  commandName i = "export-reactions" ->
  inGuild i = true ->
  option_channel i = None ->
  channelId (parseMessageRef (option_message i)) = JS.Undefined ->
  exists log,
    handler P fuel i w = Some (w, log, Normal tt)
    /\ log = [DeferReply true; EditReply msg_missing_channel]
    /\ Forall (fun e => is_message_fetch e = false) log.
Proof.
  intros Hcmd Hname Hguild Hch Href.
  exists [DeferReply true; EditReply msg_missing_channel].
  split; [| split; [reflexivity | repeat constructor]].
  unfold handler. rewrite Hcmd, Hname, Hguild, Hch, Href. reflexivity.
Qed.

Lemma missing_channel_context_witness :
  exists log,
    handler (paged_platform None (fun _ => None)) 0
            (mkInteraction true "export-reactions" true "1234567890" None None)
            tt
    = Some (tt, log, Normal tt)
    /\ log = [DeferReply true; EditReply msg_missing_channel]
    /\ Forall (fun e => is_message_fetch e = false) log.
Proof.
  apply missing_channel_context; reflexivity.
Defined.

(** C2: in a run of the handler in which a fetch of a page of users threw,
    the replies are the deferred reply and then the reaction-fetch-failed
    message, and no event of the run carries a file: the rows of the pages
    fetched before the error are not sent. *)
Theorem fetch_error_aborts (P : Platform) (fuel : nat) (i : Interaction)
        (w w' : World P) (log : list (Event P)) (c : completion P unit) :
  handler P fuel i w = Some (w', log, c) ->
  Exists (fun e => is_failed_fetch e = true) log ->
  replies log = [DeferReply true; EditReply msg_reaction_fetch_failed]
  /\ Forall (fun e => is_attachment e = false) log.
Proof.
  intros Hrun Hex.
  destruct (handler_cases _ _ _ _ _ _ Hrun)
    as [Hq | (channel & message & w1 & log' & Hm & -> & He)].
  { now elim (none_failed_not_exists _ (quiet_none_failed _ Hq)). }
  rewrite export_eq in He.
  destruct (drain_all P fuel (reactions_cache message) w1)
    as [[[w2 l] [groups|err]]|] eqn:E; [| | discriminate];
    injection He as <- <- <-; destruct (drain_all_log _ _ _ _ _ _ E) as [Hf Hc].
  - exfalso. destruct Hc as [Hn _].
    apply Exists_cons in Hex as [|Hex]; [discriminate |].
    apply Exists_cons in Hex as [|Hex]; [discriminate |].
    apply Exists_app in Hex as [Hex | Hex].
    + now apply (none_failed_not_exists _ Hn).
    + apply Exists_cons in Hex as [Hex | Hex]; [| inversion Hex].
      unfold final_reply in Hex. now destruct (_ =? _).
  - split.
    + change (replies (DeferReply true :: MessagesFetch channel
                (messageId (parseMessageRef (option_message i))) (inr message)
                :: l ++ [ConsoleError err; EditReply msg_reaction_fetch_failed]))
        with (DeferReply (P:=P) true
                :: replies (l ++ [ConsoleError err;
                                  EditReply msg_reaction_fetch_failed])).
      now rewrite replies_app, (replies_fetches _ Hf).
    + repeat constructor. apply Forall_app. split.
      * now apply fetches_no_file.
      * repeat constructor.
Qed.

Lemma fetch_error_aborts_witness :
  let log : list (Event refusing_platform) :=
    [DeferReply true;
     MessagesFetch (TextChannel "2222") (JS.Str "3333") (inr party_message);
     UsersFetch (P:=refusing_platform) party 100 JS.Undefined
                (inl "Missing Access");
     ConsoleError (P:=refusing_platform) "Missing Access";
     EditReply msg_reaction_fetch_failed] in
  replies log = [DeferReply true; EditReply msg_reaction_fetch_failed]
  /\ Forall (fun e => is_attachment e = false) log.
Proof.
  intros log.
  apply (fetch_error_aborts refusing_platform 1 (link_interaction None)
                            tt tt log (Normal tt)).
  - reflexivity.
  - do 2 apply Exists_cons_tl. apply Exists_cons_hd. reflexivity.
Defined.

Example party_export (include_user_ids : option bool) :
  handler party_platform 1 (link_interaction include_user_ids) tt =
  Some (tt, party_log (JS.coalesce include_user_ids true), Normal tt).
Proof. now destruct include_user_ids as [[|]|]. Qed.

(** C5: the header row.  The buffer starts as [Emoji,User,User ID] and a
    newline when include_user_ids is true or was left out, and as
    [Emoji,User] and a newline when it is false; and whenever the handler
    attaches the file, the first row of the file is exactly that header. *)
Theorem header_row_by_option (include_user_ids : option bool) :
  let row :=
    match include_user_ids with
    | Some false => "Emoji,User"
    | _ => "Emoji,User,User ID"
    end in
  header (JS.coalesce include_user_ids true) = row ++ newline
  /\ forall (P : Platform) (fuel : nat) (i : Interaction) (w w' : World P)
            (log : list (Event P)) (c : completion P unit)
            (content name data : string),
      option_include_user_ids i = include_user_ids ->
      handler P fuel i w = Some (w', log, c) ->
      In (EditReplyFile content name data) log ->
      first_line data = row /\ exists rest, data = row ++ newline ++ rest.
Proof.
  intros row. split; [now destruct include_user_ids as [[|]|] |].
  intros P fuel i w w' log c content name data Hopt Hrun Hin.
  destruct (handler_attachment _ _ _ _ _ _ _ _ _ Hrun Hin) as [groups ->].
  rewrite Hopt. subst row.
  split.
  - now destruct include_user_ids as [[|]|].
  - exists (grouped_rows (JS.coalesce include_user_ids true) groups).
    now destruct include_user_ids as [[|]|].
Qed.

Lemma header_row_by_option_witness :
  header (JS.coalesce (Some false) true) = "Emoji,User" ++ newline
  /\ first_line (party_csv false) = "Emoji,User".
Proof.
  split.
  - apply (header_row_by_option (Some false)).
  - apply (proj2 (header_row_by_option (Some false)) party_platform 1
                 (link_interaction (Some false)) tt tt (party_log false)
                 (Normal tt) msg_export_complete "reactions.csv").
    + reflexivity.
    + reflexivity.
    + do 4 right. left. reflexivity.
Defined.

Section NoReactions.
Context {P : Platform}.

Lemma drain_empty_page (fuel : nat) (r : Reaction) (w w' : World P) :
  users_fetch P w r 100 JS.Undefined = (w', inr []) ->
  drain P (S fuel) r JS.Undefined w =
  Some (w', [UsersFetch r 100 JS.Undefined (inr [])], Normal []).
Proof.
  intros H. cbn [drain].
  now rewrite (bind_normal _ _ _ _ _ _ (fetch_users_eq _ _ _ _ _ _ H)).
Qed.

Lemma drain_all_empty (fuel : nat) (reactions : Collection Reaction)
      (w : World P) :
  (forall w k r, In (k, r) reactions ->
                 exists w', users_fetch P w r 100 JS.Undefined = (w', inr [])) ->
  1 <= fuel ->
  exists w' log,
    drain_all P fuel reactions w = Some (w', log, Normal (empty_groups reactions))
    /\ only_fetches log.
Proof.
  intros Hzero Hfuel. destruct fuel as [|fuel]; [lia |]. clear Hfuel.
  revert w. induction reactions as [|[k r] rest IH]; intros w.
  - exists w, []. split; [reflexivity | constructor].
  - destruct (Hzero w k r (or_introl eq_refl)) as [w1 H1].
    destruct (IH (fun w k r Hin => Hzero w k r (or_intror Hin)) w1)
      as (w2 & log & H2 & Hlog).
    exists w2, (UsersFetch r 100 JS.Undefined (inr []) :: log).
    split; [| constructor; [reflexivity | exact Hlog]].
    cbn [drain_all].
    rewrite (bind_normal _ _ _ _ _ _ (drain_empty_page fuel r w w1 H1)).
    rewrite (bind_normal _ _ _ _ _ _ H2). cbn [ret].
    now rewrite app_nil_r.
Qed.

Lemma drain_all_empty_inv (fuel : nat) (reactions : Collection Reaction)
      (w w' : World P) (log : list (Event P))
      (c : completion P (list (Reaction * list User.t))) :
  (forall w k r, In (k, r) reactions ->
                 exists w', users_fetch P w r 100 JS.Undefined = (w', inr [])) ->
  drain_all P fuel reactions w = Some (w', log, c) ->
  c = Normal (empty_groups reactions).
Proof.
  intros Hzero Hrun. destruct fuel as [|fuel].
  - destruct reactions as [|[k r] rest]; [now injection Hrun as _ _ <- |].
    discriminate.
  - destruct (drain_all_empty (S fuel) reactions w Hzero) as (w2 & l & E & _);
      [lia |].
    rewrite E in Hrun. now injection Hrun as _ _ <-.
Qed.

Lemma grouped_rows_empty (inc : bool) (reactions : Collection Reaction) :
  grouped_rows inc (empty_groups reactions) = "".
Proof.
  induction reactions as [|[k r] rest IH]; [reflexivity |].
  cbn [empty_groups map snd]. rewrite grouped_rows_cons. exact IH.
Qed.

Lemma final_reply_empty (inc : bool) (reactions : Collection Reaction) :
  @final_reply P inc (empty_groups reactions) = EditReply msg_no_reactions.
Proof.
  unfold final_reply. rewrite grouped_rows_empty, append_empty_r.
  now rewrite String.eqb_refl.
Qed.

End NoReactions.

(** C7: a message with zero reactions, that is one without reaction groups
    or one whose groups all give an empty first page.  Its export returns,
    and what it emits is the fetches of those pages and then the
    no-reactions message; and a run of the handler that fetched such a
    message replies with the deferred reply and the no-reactions message,
    and attaches no file. *)
Theorem no_reactions_reply (P : Platform) (message : Message) :
  no_reactors P message ->
  (forall (fuel : nat) (inc : bool) (w : World P),
      1 <= fuel ->
      exists w' log,
        export P fuel inc message w =
        Some (w', (log ++ [EditReply msg_no_reactions])%list, Normal tt)
        /\ only_fetches log)
  /\ (forall (fuel : nat) (i : Interaction) (w w' : World P)
             (log : list (Event P)) (c : completion P unit)
             (channel : Channel) (id : JS.val),
         handler P fuel i w = Some (w', log, c) ->
         In (MessagesFetch channel id (inr message)) log ->
         replies log = [DeferReply true; EditReply msg_no_reactions]
         /\ Forall (fun e => is_attachment e = false) log).
Proof.
  intros Hzero. split.
  - intros fuel inc w Hfuel.
    destruct (drain_all_empty fuel _ w Hzero Hfuel) as (w' & log & E & Hlog).
    exists w', log. split; [| exact Hlog].
    now rewrite export_eq, E, final_reply_empty.
  - intros fuel i w w' log c channel id Hrun Hin.
    destruct (handler_cases _ _ _ _ _ _ Hrun)
      as [Hq | (channel' & message' & w1 & log' & Hm & -> & He)].
    { now apply (quiet_In _ _ Hq) in Hin. }
    rewrite export_eq in He.
    destruct (drain_all P fuel (reactions_cache message') w1)
      as [[[w2 l] c']|] eqn:E; [| discriminate].
    destruct (drain_all_log _ _ _ _ _ _ E) as [Hf _].
    assert (Hsame : message' = message).
    { destruct Hin as [Hin | [Hin | Hin]]; [discriminate | congruence |].
      exfalso. destruct c' as [groups|err]; injection He as <- <- <-;
        apply in_app_or in Hin as [Hin | Hin].
      - now apply (fetches_no_attachment _ _ Hf) in Hin.
      - destruct Hin as [Hin | []]. unfold final_reply in Hin.
        now destruct (_ =? _).
      - now apply (fetches_no_attachment _ _ Hf) in Hin.
      - destruct Hin as [Hin | [Hin | []]]; discriminate. }
    subst message'.
    rewrite (drain_all_empty_inv _ _ _ _ _ _ Hzero E) in He.
    rewrite final_reply_empty in He. injection He as <- <- <-.
    split.
    + change (replies (DeferReply true :: MessagesFetch channel'
                (messageId (parseMessageRef (option_message i))) (inr message)
                :: l ++ [EditReply msg_no_reactions]))
        with (DeferReply (P:=P) true
                :: replies (l ++ [EditReply msg_no_reactions])).
      now rewrite replies_app, (replies_fetches _ Hf).
    + repeat constructor. apply Forall_app. split.
      * now apply fetches_no_file.
      * repeat constructor.
Qed.

Lemma no_reactions_reply_witness :
  (exists w' log,
      export deserted_platform 1 true deserted_message tt =
      Some (w', (log ++ [EditReply msg_no_reactions])%list, Normal tt)
      /\ only_fetches log)
  /\ replies deserted_log = [DeferReply true; EditReply msg_no_reactions]
  /\ Forall (fun e => is_attachment e = false) deserted_log.
Proof.
  destruct (no_reactions_reply deserted_platform deserted_message) as [H1 H2].
  - intros w k r _. exists w. reflexivity.
  - split.
    + apply H1. lia.
    + apply (H2 1 (link_interaction None) tt tt deserted_log (Normal tt)
                (TextChannel "2222") (JS.Str "3333")).
      * reflexivity.
      * right. left. reflexivity.
Defined.

Example deserted_export :
  handler deserted_platform 1 (link_interaction None) tt =
  Some (tt, deserted_log, Normal tt).
Proof. reflexivity. Qed.

Section Grouping.

Lemma nth_error_two {A : Type} (l : list A) (i j : nat) (a b : A) :
  i < j -> nth_error l i = Some a -> nth_error l j = Some b ->
  exists l0 l1 l2, l = (l0 ++ a :: l1 ++ b :: l2)%list.
Proof.
  intros Hij Hi Hj.
  destruct (nth_error_split l j Hj) as (l01 & l2 & -> & Hlen).
  rewrite nth_error_app1 in Hi by lia.
  destruct (nth_error_split l01 i Hi) as (l0 & l1 & -> & _).
  exists l0, l1, l2. now rewrite <- app_assoc.
Qed.

End Grouping.

(** C8: the rows of a message are grouped by emoji.  The loop over the
    reaction groups computes what draining the groups one after the other
    and then formatting them computes: the text so far, followed by the
    rows of the first group, then the rows of the second, and so on in
    iteration order; so for two groups of which the first is iterated
    earlier, the rows of the first stand as one block before the block of
    the second. *)
Theorem rows_grouped_by_emoji (P : Platform) (fuel : nat) (inc : bool)
        (reactions : Collection Reaction) (csv : string) (w : World P) :
  for_reactions P fuel inc reactions csv w =
  bind (drain_all P fuel reactions)
       (fun groups => ret (csv ++ grouped_rows inc groups)) w
  /\ (forall w' log groups,
         drain_all P fuel reactions w = Some (w', log, Normal groups) ->
         map fst groups = map snd reactions)
  /\ (forall (groups : list (Reaction * list User.t)) (i j : nat)
             (gi gj : Reaction * list User.t),
         i < j ->
         nth_error groups i = Some gi -> nth_error groups j = Some gj ->
         exists before between after,
           grouped_rows inc groups =
           before ++ rows inc (emojiLabel (fst gi)) (snd gi)
                  ++ between ++ rows inc (emojiLabel (fst gj)) (snd gj)
                  ++ after).
Proof.
  split; [apply for_reactions_drain_all | split].
  - intros w' log groups E. now destruct (drain_all_log _ _ _ _ _ _ E) as (_ & _ & H).
  - intros groups i j [ri ui] [rj uj] Hij Hi Hj.
    destruct (nth_error_two groups i j _ _ Hij Hi Hj) as (l0 & l1 & l2 & ->).
    exists (grouped_rows inc l0), (grouped_rows inc l1), (grouped_rows inc l2).
    rewrite grouped_rows_app, grouped_rows_cons, grouped_rows_app,
      grouped_rows_cons.
    reflexivity.
Qed.

Lemma rows_grouped_by_emoji_witness :
  exists before between after,
    grouped_rows true [(party, some_users 2); (thumbs, some_users 3)] =
    before ++ rows true "🎉" (some_users 2)
           ++ between ++ rows true "👍" (some_users 3) ++ after.
Proof.
  apply (proj2 (proj2 (rows_grouped_by_emoji party_platform 1 true
                         (reactions_cache party_message) (header true) tt))
               [(party, some_users 2); (thumbs, some_users 3)] 0 1
               (party, some_users 2) (thumbs, some_users 3)).
  - lia.
  - reflexivity.
  - reflexivity.
Defined.

Example party_rows :
  for_reactions party_platform 1 true (reactions_cache party_message)
                (header true) tt =
  Some (tt,
        [UsersFetch (P:=party_platform) party 100 JS.Undefined
                    (inr (page_of 100 JS.Undefined (some_users 2)));
         UsersFetch (P:=party_platform) thumbs 100 JS.Undefined
                    (inr (page_of 100 JS.Undefined (some_users 3)))],
        Normal (header true
                ++ rows true "🎉" (some_users 2)
                ++ rows true "👍" (some_users 3))).
Proof. reflexivity. Qed.

(** ** One iteration of the loop of a group *)

Section Pages.
Context {P : Platform}.

Lemma drain_throw (fuel : nat) (r : Reaction) (after : JS.val)
      (w w1 : World P) (err : Error P) :
  users_fetch P w r 100 after = (w1, inl err) ->
  drain P (S fuel) r after w =
  Some (w1, [UsersFetch r 100 after (inl err)], Throw err).
Proof.
  intros H. cbn [drain].
  now rewrite (bind_throw _ _ _ _ _ _ (fetch_users_eq _ _ _ _ _ _ H)).
Qed.

(** A page of fewer than 100 users, an empty one too, ends the loop. *)
Lemma drain_short_page (fuel : nat) (r : Reaction) (after : JS.val)
      (w w1 : World P) (page : Collection User.t) :
  users_fetch P w r 100 after = (w1, inr page) ->
  List.length page < 100 ->
  drain P (S fuel) r after w =
  Some (w1, [UsersFetch r 100 after (inr page)], Normal (values page)).
Proof.
  intros H Hlen. cbn [drain].
  rewrite (bind_normal _ _ _ _ _ _ (fetch_users_eq _ _ _ _ _ _ H)).
  destruct page as [|entry page]; [reflexivity |].
  cbn [List.length Nat.eqb].
  apply Nat.ltb_lt in Hlen. cbn [List.length] in Hlen. now rewrite Hlen.
Qed.

(** A page of 100 users or more moves the cursor to its last key, and the
    loop goes on from there. *)
Lemma drain_full_page (fuel : nat) (r : Reaction) (after : JS.val)
      (w w1 : World P) (page : Collection User.t) :
  users_fetch P w r 100 after = (w1, inr page) ->
  100 <= List.length page ->
  drain P (S fuel) r after w =
  match drain P fuel r (last_key page) w1 with
  | Some (w2, l, Normal later) =>
      Some (w2, UsersFetch r 100 after (inr page) :: l,
            Normal (values page ++ later)%list)
  | Some (w2, l, Throw err) =>
      Some (w2, UsersFetch r 100 after (inr page) :: l, Throw err)
  | None => None
  end.
Proof.
  intros H Hlen. cbn [drain].
  rewrite (bind_normal _ _ _ _ _ _ (fetch_users_eq _ _ _ _ _ _ H)).
  destruct (List.length page =? 0)%nat eqn:E0;
    [apply Nat.eqb_eq in E0; lia |].
  destruct (List.length page <? 100)%nat eqn:E1;
    [apply Nat.ltb_lt in E1; lia |].
  unfold bind.
  destruct (drain P fuel r (last_key page) w1) as [[[w2 l] [later|err]]|];
    try reflexivity.
  cbn [ret app]. now rewrite app_nil_r.
Qed.

Lemma paginate_returns (fuel : nat) (inc : bool) (r : Reaction)
      (label : string) (lastId : JS.val) (csv : string) (w : World P) :
  drain P fuel r lastId w <> None ->
  paginate P fuel inc r label lastId csv w <> None.
Proof.
  rewrite paginate_drain. unfold bind.
  now destruct (drain P fuel r lastId w) as [[[w1 l] [us|err]]|].
Qed.

End Pages.

(** Two pages, of 100 and of 50 users: two fetches, then the file. *)
Lemma export_two_pages (P : Platform) (inc : bool) (k : string)
        (r : Reaction) (p1 p2 : Collection User.t) (w w1 w2 : World P)
        (fuel : nat) :
  users_fetch P w r 100 JS.Undefined = (w1, inr p1) ->
  List.length p1 = 100 ->
  users_fetch P w1 r 100 (last_key p1) = (w2, inr p2) ->
  List.length p2 = 50 ->
  2 <= fuel ->
  let data_rows := map (line inc (emojiLabel r)) (values p1 ++ values p2) in
  export P fuel inc (mkMessage [(k, r)]) w =
  Some (w2,
        [UsersFetch r 100 JS.Undefined (inr p1);
         UsersFetch r 100 (last_key p1) (inr p2);
         EditReplyFile msg_export_complete "reactions.csv"
                       (header inc ++ concat "" data_rows)],
        Normal tt)
  /\ List.length data_rows = 150
  /\ Forall (fun row => exists rest, row = emojiLabel r ++ "," ++ rest)
            data_rows.
Proof.
  intros H1 Hlen1 H2 Hlen2 Hfuel data_rows.
  destruct fuel as [|[|fuel]]; try lia.
  split; [| split].
  - rewrite export_eq. cbn [reactions_cache drain_all].
    assert (E : drain P (S (S fuel)) r JS.Undefined w =
                Some (w2,
                      [UsersFetch r 100 JS.Undefined (inr p1);
                       UsersFetch r 100 (last_key p1) (inr p2)],
                      Normal (values p1 ++ values p2)%list)).
    { rewrite (drain_full_page _ _ _ _ _ _ H1) by lia.
      now rewrite (drain_short_page _ _ _ _ _ _ H2) by lia. }
    rewrite (bind_normal _ _ _ _ _ _ E), bind_ret_l. cbn [ret app].
    unfold final_reply. rewrite grouped_rows_cons.
    change (grouped_rows inc []) with "". rewrite append_empty_r.
    rewrite append_neq_self; [reflexivity |].
    apply rows_not_empty. destruct p1; [discriminate | discriminate].
  - subst data_rows. unfold values.
    rewrite length_map, length_app, !length_map. lia.
  - subst data_rows. apply Forall_forall. intros row Hin.
    apply in_map_iff in Hin as (u & <- & _).
    unfold line. destruct inc; eexists; reflexivity.
Qed.

(** ** Collection order *)

Section Order.
Variable ids : list string.

Lemma rank_bound (k : string) (i : nat) :
  rank ids k = Some i -> i < List.length ids.
Proof.
  revert i. induction ids as [|k' ids' IH]; intros i; [discriminate |].
  cbn [rank List.length]. destruct (k' =? k); [intros [= <-]; lia |].
  destruct (rank ids' k) as [j|]; [| discriminate].
  intros [= <-]. specialize (IH j eq_refl). lia.
Qed.

Lemma later_ranks (a b : string) :
  later ids a b = true ->
  exists i j, rank ids a = Some i /\ rank ids b = Some j /\ i < j.
Proof.
  unfold later. destruct (rank ids a) as [i|]; [| discriminate].
  destruct (rank ids b) as [j|]; [| discriminate].
  intros H. apply Nat.ltb_lt in H. now exists i, j.
Qed.

Lemma later_remaining (a b : string) :
  later ids a b = true -> remaining ids b < remaining ids a.
Proof.
  intros H. destruct (later_ranks a b H) as (i & j & Ha & Hb & Hij).
  unfold remaining. rewrite Ha, Hb. apply rank_bound in Hb. lia.
Qed.

Lemma remaining_bound (c : string) : remaining ids c <= List.length ids.
Proof. unfold remaining. destruct (rank ids c); lia. Qed.

Lemma last_default (b : string) (keys : list string) (d d' : string) :
  last (b :: keys) d = last (b :: keys) d'.
Proof.
  revert b. induction keys as [|c keys IH]; intros b; [reflexivity |].
  change (last (c :: keys) d = last (c :: keys) d'). apply IH.
Qed.

(** Along keys listed in collection order, the rank grows by one at least
    from each key to the next. *)
Lemma ascending_last (a : string) (keys : list string) (i : nat) :
  ascending ids (a :: keys) = true -> rank ids a = Some i ->
  exists j, rank ids (last (a :: keys) a) = Some j /\ i + List.length keys <= j.
Proof.
  revert a i. induction keys as [|b keys IH]; intros a i Hasc Ha.
  - exists i. split; [exact Ha | simpl; lia].
  - cbn [ascending] in Hasc. apply andb_true_iff in Hasc as [Hab Hasc].
    destruct (later_ranks a b Hab) as (i' & jb & Ha' & Hb & Hlt).
    rewrite Ha in Ha'. injection Ha' as <-.
    destruct (IH b jb Hasc Hb) as (j & Hj & Hle).
    exists j. split; [| cbn [List.length]; lia].
    change (last (a :: b :: keys) a) with (last (b :: keys) a).
    now rewrite (last_default b keys a b).
Qed.

End Order.

Section Cursor.
Context {V : Type}.

Lemma last_key_snoc (page : Collection V) (k : string) (v : V) :
  last_key (page ++ [(k, v)])%list = JS.Str k.
Proof. unfold last_key. now rewrite rev_unit. Qed.

Lemma last_key_last (page : Collection V) (d : string) :
  page <> [] -> last_key page = JS.Str (last (map fst page) d).
Proof.
  intros H. destruct (exists_last H) as (page' & [k v] & ->).
  rewrite last_key_snoc, map_app. cbn [map fst]. now rewrite last_last.
Qed.

Lemma last_key_in (page : Collection V) :
  page <> [] -> exists k, last_key page = JS.Str k /\ In k (map fst page).
Proof.
  intros H. destruct (exists_last H) as (page' & [k v] & ->).
  exists k. split; [apply last_key_snoc |].
  rewrite map_app. apply in_or_app. right. now left.
Qed.

End Cursor.

Section PaginateSteps.
Context {P : Platform}.

Lemma paginate_short_page (fuel : nat) (inc : bool) (r : Reaction)
      (label : string) (after : JS.val) (csv : string)
      (w w1 : World P) (page : Collection User.t) :
  users_fetch P w r 100 after = (w1, inr page) ->
  List.length page < 100 ->
  paginate P (S fuel) inc r label after csv w =
  Some (w1, [UsersFetch r 100 after (inr page)],
        Normal (csv ++ rows inc label (values page))).
Proof.
  intros H Hlen. rewrite paginate_drain.
  rewrite (bind_normal _ _ _ _ _ _ (drain_short_page fuel _ _ _ _ _ H Hlen)).
  reflexivity.
Qed.

Lemma paginate_full_page (fuel : nat) (inc : bool) (r : Reaction)
      (label : string) (after : JS.val) (csv : string)
      (w w1 : World P) (page : Collection User.t) :
  users_fetch P w r 100 after = (w1, inr page) ->
  100 <= List.length page ->
  paginate P (S fuel) inc r label after csv w =
  after_event (UsersFetch r 100 after (inr page))
    (paginate P fuel inc r label (last_key page)
              (csv ++ rows inc label (values page)) w1).
Proof.
  intros H Hlen. cbn [paginate].
  rewrite (bind_normal _ _ _ _ _ _ (fetch_users_eq _ _ _ _ _ _ H)).
  destruct (List.length page =? 0)%nat eqn:E0;
    [apply Nat.eqb_eq in E0; lia |].
  destruct (List.length page <? 100)%nat eqn:E1;
    [apply Nat.ltb_lt in E1; lia |].
  rewrite addLines_rows. unfold after_event.
  now destruct (paginate P fuel inc r label (last_key page) _ w1)
    as [[[w2 l] c]|].
Qed.

End PaginateSteps.

(** ** Termination of the loop of a group *)

Section Termination.
Context {P : Platform}.

(** The group [r], its users [ids] in collection order, and what the
    platform promises: a page fetched after a cursor holds only users that
    come strictly later than the cursor. *)
Variable r : Reaction.
Variable ids : list string.
Hypothesis fetch_later :
  forall (w : World P) (lastId : string) (w' : World P)
         (page : Collection User.t),
    users_fetch P w r 100 (JS.Str lastId) = (w', inr page) ->
    Forall (fun k => later ids lastId k = true) (map fst page).

Lemma next_cursor (w w1 : World P) (c : string) (page : Collection User.t) :
  users_fetch P w r 100 (JS.Str c) = (w1, inr page) ->
  100 <= List.length page ->
  exists k, last_key page = JS.Str k /\ later ids c k = true.
Proof.
  intros H Hlen.
  assert (Hne : page <> []) by (destruct page; [simpl in Hlen; lia | discriminate]).
  destruct (last_key_in page Hne) as (k & Hk & Hin).
  exists k. split; [exact Hk |].
  pose proof (fetch_later _ _ _ _ H) as Hall.
  rewrite Forall_forall in Hall. now apply Hall.
Qed.

Lemma drain_from_cursor (n : nat) :
  forall (c : string) (fuel : nat) (w : World P),
    remaining ids c <= n -> n < fuel -> drain P fuel r (JS.Str c) w <> None.
Proof.
  induction n as [|n IH]; intros c fuel w Hrem Hfuel;
    (destruct fuel as [|fuel]; [lia |]);
    destruct (users_fetch P w r 100 (JS.Str c)) as [w1 [err|page]] eqn:E;
    try (rewrite (drain_throw _ _ _ _ _ _ E); discriminate);
    (destruct (Nat.lt_ge_cases (List.length page) 100) as [Hlt | Hge];
     [rewrite (drain_short_page _ _ _ _ _ _ E Hlt); discriminate |]);
    destruct (next_cursor _ _ _ _ E Hge) as (k & Hk & Hlater);
    apply later_remaining in Hlater.
  - lia.
  - rewrite (drain_full_page _ _ _ _ _ _ E Hge), Hk.
    assert (Hk' : drain P fuel r (JS.Str k) w1 <> None) by (apply IH; lia).
    now destruct (drain P fuel r (JS.Str k) w1) as [[[w2 l] [us|err]]|].
Qed.

Lemma drain_from_any (lastId : JS.val) (fuel : nat) (w : World P) :
  List.length ids + 2 <= fuel -> drain P fuel r lastId w <> None.
Proof.
  intros Hfuel.
  assert (Hcur : forall c f w1, List.length ids < f ->
                                drain P f r (JS.Str c) w1 <> None).
  { intros c f w1 Hf.
    apply (drain_from_cursor (List.length ids)); [apply remaining_bound | exact Hf]. }
  destruct lastId as [| |c]; [| | apply Hcur; lia];
    (destruct fuel as [|fuel]; [lia |]).
  all: match goal with
       | |- drain P _ r ?a ?w0 <> None =>
           destruct (users_fetch P w0 r 100 a) as [w1 [err|page]] eqn:E;
           [rewrite (drain_throw _ _ _ _ _ _ E); discriminate |];
           destruct (Nat.lt_ge_cases (List.length page) 100) as [Hlt | Hge];
           [rewrite (drain_short_page _ _ _ _ _ _ E Hlt); discriminate |];
           rewrite (drain_full_page _ _ _ _ _ _ E Hge);
           assert (Hne : page <> [])
             by (destruct page; [simpl in Hge; lia | discriminate]);
           destruct (last_key_in page Hne) as (k & -> & _);
           assert (Hk : drain P fuel r (JS.Str k) w1 <> None)
             by (apply Hcur; lia);
           now destruct (drain P fuel r (JS.Str k) w1) as [[[w2 l] [us|err']]|]
       end.
Qed.

(** C10: the loop of a group terminates when the users of the group are
    finitely many and a page fetched after a cursor holds only users that
    come strictly later than the cursor in collection order.  With a bound
    on iterations above the number of users plus one the loop returns,
    normally or with the error of a fetch.  An iteration whose page has
    fewer than 100 users, none included, ends the loop; an iteration whose
    page has 100 users or more moves the cursor to a user strictly later in
    the order, and at least 100 places later when the page lists its users
    in collection order. *)
Theorem pagination_terminates (fuel : nat) (inc : bool) (label : string)
        (lastId : JS.val) (csv : string) (w : World P) :
  List.length ids + 2 <= fuel ->
  (exists w' log c,
      paginate P fuel inc r label lastId csv w = Some (w', log, c))
  /\ (forall (w0 w1 : World P) (c : string) (page : Collection User.t)
             (f : nat) (csv0 : string),
         users_fetch P w0 r 100 (JS.Str c) = (w1, inr page) ->
         (List.length page < 100 ->
          paginate P (S f) inc r label (JS.Str c) csv0 w0 =
          Some (w1, [UsersFetch r 100 (JS.Str c) (inr page)],
                Normal (csv0 ++ rows inc label (values page))))
         /\ (100 <= List.length page ->
             exists k,
               last_key page = JS.Str k
               /\ later ids c k = true
               /\ (ascending ids (map fst page) = true ->
                   100 <= advance ids c k)
               /\ paginate P (S f) inc r label (JS.Str c) csv0 w0 =
                  after_event (UsersFetch r 100 (JS.Str c) (inr page))
                    (paginate P f inc r label (JS.Str k)
                              (csv0 ++ rows inc label (values page)) w1))).
Proof.
  intros Hfuel. split.
  - pose proof (paginate_returns fuel inc r label lastId csv w
                                 (drain_from_any lastId fuel w Hfuel)) as H.
    destruct (paginate P fuel inc r label lastId csv w) as [[[w' log] c]|];
      [now exists w', log, c | now elim H].
  - intros w0 w1 c page f csv0 E. split.
    + intros Hlt. now apply paginate_short_page.
    + intros Hge. destruct (next_cursor _ _ _ _ E Hge) as (k & Hk & Hlater).
      exists k. repeat split; try assumption.
      * intros Hasc.
        assert (Hne : page <> [])
          by (destruct page; [simpl in Hge; lia | discriminate]).
        rewrite (last_key_last page c Hne) in Hk. injection Hk as Hk.
        destruct (map fst page) as [|a keys] eqn:Ekeys.
        { apply (f_equal (@List.length string)) in Ekeys.
          rewrite length_map in Ekeys. simpl in Ekeys. lia. }
        pose proof (fetch_later _ _ _ _ E) as Hall. rewrite Ekeys in Hall.
        apply Forall_inv in Hall.
        destruct (later_ranks ids c a Hall) as (i & ja & Hc & Ha & Hlt).
        destruct (ascending_last ids a keys ja Hasc Ha) as (j & Hj & Hle).
        rewrite (last_default a keys c a) in Hk. rewrite Hk in Hj.
        unfold advance. rewrite Hc, Hj.
        apply (f_equal (@List.length string)) in Ekeys.
        rewrite length_map in Ekeys. cbn [List.length] in Ekeys. lia.
      * rewrite <- Hk. now apply paginate_full_page.
Qed.

End Termination.

(** ** The paged platform keeps the promise *)

Section PagedPlatform.

Lemma rank_in (ids : list string) (k : string) :
  In k ids -> exists i, rank ids k = Some i.
Proof.
  induction ids as [|k' ids' IH]; [easy |].
  intros Hin. cbn [rank]. destruct (k' =? k) eqn:E; [now exists 0 |].
  destruct Hin as [-> | Hin]; [now rewrite String.eqb_refl in E |].
  destruct (IH Hin) as [i ->]. now exists (S i).
Qed.

Lemma after_cursor_incl (c k : string) (entries : Collection User.t) :
  In k (map fst (after_cursor c entries)) -> In k (map fst entries).
Proof.
  induction entries as [|[k' u] rest IH]; [easy |].
  cbn [after_cursor]. destruct (k' =? c); cbn [map fst]; intros H.
  - now right.
  - right. now apply IH.
Qed.

Lemma after_cursor_later (c : string) (entries : Collection User.t) :
  NoDup (map fst entries) ->
  Forall (fun k => later (map fst entries) c k = true)
         (map fst (after_cursor c entries)).
Proof.
  induction entries as [|[k' u] rest IH]; [constructor |].
  cbn [map fst]. intros Hnd. apply NoDup_cons_iff in Hnd as [Hnot Hnd].
  apply Forall_forall. intros k Hin.
  assert (Hk : (k' =? k) = false).
  { apply String.eqb_neq. intros ->. apply Hnot.
    cbn [after_cursor] in Hin. destruct (k =? c); [exact Hin |].
    now apply after_cursor_incl in Hin. }
  unfold later. cbn [rank after_cursor] in *. rewrite Hk.
  destruct (k' =? c) eqn:Ec.
  - destruct (rank_in _ _ Hin) as [i ->]. reflexivity.
  - specialize (IH Hnd). rewrite Forall_forall in IH.
    specialize (IH k Hin). unfold later in IH.
    destruct (rank (map fst rest) c) as [i|]; [| discriminate].
    destruct (rank (map fst rest) k) as [j|]; [| discriminate].
    exact IH.
Qed.

Lemma Forall_firstn {A : Type} (Q : A -> Prop) (n : nat) (l : list A) :
  Forall Q l -> Forall Q (firstn n l).
Proof.
  intros H. rewrite <- (firstn_skipn n l) in H.
  now apply Forall_app in H.
Qed.

(** On the paged platform, over users with distinct ids, every page after
    a cursor holds only users later than the cursor. *)
Lemma paged_fetch_later (message : option Message)
      (users : Reaction -> option (list User.t)) (r : Reaction)
      (us : list User.t) :
  users r = Some us -> NoDup (map User.id us) ->
  forall (w : World (paged_platform message users)) (lastId : string)
         (w' : World (paged_platform message users))
         (page : Collection User.t),
    users_fetch (paged_platform message users) w r 100 (JS.Str lastId) =
    (w', inr page) ->
    Forall (fun k => later (map User.id us) lastId k = true) (map fst page).
Proof.
  intros Hus Hnd w lastId w' page. cbn [users_fetch paged_platform].
  rewrite Hus. intros [= _ <-]. unfold page_of.
  rewrite <- firstn_map. apply Forall_firstn.
  assert (Hkeys : map fst (map (fun u => (User.id u, u)) us) = map User.id us).
  { rewrite map_map. reflexivity. }
  rewrite <- Hkeys. apply after_cursor_later. now rewrite Hkeys.
Qed.

End PagedPlatform.

Lemma distinct_NoDup (keys : list string) :
  distinct keys = true -> NoDup keys.
Proof.
  induction keys as [|k rest IH]; [constructor |].
  cbn [distinct]. intros H. apply andb_true_iff in H as [Hk Hrest].
  constructor; [| now apply IH].
  intros Hin. apply negb_true_iff in Hk.
  assert (Hex : existsb (String.eqb k) rest = true).
  { apply existsb_exists. exists k. split; [exact Hin | apply String.eqb_refl]. }
  congruence.
Qed.

Lemma pagination_terminates_witness :
  let ids := map User.id (some_users 150) in
  (exists w' log c,
      paginate crowd_platform 152 true partyblob "partyblob:999" JS.Undefined
               (header true) tt
      = Some (w', log, c))
  /\ later ids "50" "150" = true
  /\ 100 <= advance ids "50" "150".
Proof.
  intros ids.
  assert (Hdistinct : NoDup (map User.id (some_users 150)))
    by (apply distinct_NoDup; vm_compute; reflexivity).
  destruct (@pagination_terminates crowd_platform partyblob ids
              (paged_fetch_later _ (fun _ => Some (some_users 150)) partyblob
                 (some_users 150) eq_refl Hdistinct)
              152 true "partyblob:999" JS.Undefined (header true) tt)
    as [H1 H2].
  - vm_compute. lia.
  - split; [exact H1 |].
    destruct (H2 tt tt "50" (page_of 100 (JS.Str "50") (some_users 150))
                 0 "" eq_refl) as [_ Hfull].
    destruct Hfull as (k & Hk & Hlater & Hadvance & _).
    + vm_compute. lia.
    + vm_compute in Hk. injection Hk as <-.
      split; [exact Hlater | apply Hadvance; vm_compute; reflexivity].
Defined.

(** C10: a page of 100 users need not move the cursor 100 places.  The
    platform below keeps the promise that every page after a cursor holds
    only users later than the cursor, but lists the users of a page from the
    last to the first.  The page after the user 50 has 100 users, the users 150 down
    to 51, so the loop goes on, and its last key, the next cursor, is the
    user 51: one place past the cursor, not 100. *)
Lemma pagination_advance_counterexample :
  let ids := map User.id (some_users 150) in
  fetches_later reversed_platform partyblob ids
  /\ (exists page,
         users_fetch reversed_platform tt partyblob 100 (JS.Str "50")
         = (tt, inr page)
         /\ List.length page = 100
         /\ last_key page = JS.Str "51"
         /\ advance ids "50" "51" = 1)
  /\ ~ advances_by_page reversed_platform partyblob ids.
Proof.
  intros ids. split; [| split].
  - intros w lastId w' page H.
    unfold reversed_platform in H. cbn [users_fetch] in H.
    injection H as _ <-. rewrite map_rev. apply Forall_rev.
    assert (Hdistinct : NoDup (map User.id (some_users 150)))
      by (apply distinct_NoDup; vm_compute; reflexivity).
    apply (paged_fetch_later (Some (mkMessage [("partyblob:999", partyblob)]))
             (fun _ => Some (some_users 150)) partyblob (some_users 150)
             eq_refl Hdistinct tt lastId tt).
    reflexivity.
  - exists (rev (page_of 100 (JS.Str "50") (some_users 150))).
    split; [reflexivity |]. vm_compute. repeat split.
  - intros H.
    destruct (H tt "50" tt (rev (page_of 100 (JS.Str "50") (some_users 150)))
                eq_refl) as (k & Hk & Hadvance).
    + vm_compute. lia.
    + vm_compute in Hk. injection Hk as <-.
      vm_compute in Hadvance. lia.
Qed.

Example crowd_pages :
  paginate crowd_platform 2 false partyblob "partyblob:999" JS.Undefined
           (header false) tt =
  Some (tt,
        [UsersFetch (P:=crowd_platform) partyblob 100 JS.Undefined
                    (inr (page_of 100 JS.Undefined (some_users 150)));
         UsersFetch (P:=crowd_platform) partyblob 100 (JS.Str "100")
                    (inr (page_of 100 (JS.Str "100") (some_users 150)))],
        Normal (header false ++ rows false "partyblob:999" (some_users 150))).
Proof. vm_compute. reflexivity. Qed.

(** ** A group of 150 users *)

Section Crowd.

Lemma firstn_snoc {A : Type} (l : list A) (n : nat) (a : A) :
  nth_error l n = Some a -> firstn (S n) l = (firstn n l ++ [a])%list.
Proof.
  revert l. induction n as [|n IH]; intros [|x l] H; try discriminate.
  - now injection H as ->.
  - cbn [nth_error] in H.
    change (x :: firstn (S n) l = x :: (firstn n l ++ [a])%list).
    now rewrite (IH l H).
Qed.

Lemma after_cursor_skipn (entries : Collection User.t) (n : nat)
      (k : string) (u : User.t) :
  NoDup (map fst entries) -> nth_error entries n = Some (k, u) ->
  after_cursor k entries = skipn (S n) entries.
Proof.
  revert n. induction entries as [|[k0 u0] rest IH]; intros n Hnd Hn.
  - now destruct n.
  - cbn [map fst] in Hnd. apply NoDup_cons_iff in Hnd as [Hnot Hnd].
    destruct n as [|n]; cbn [nth_error after_cursor] in *.
    + injection Hn as -> ->. now rewrite String.eqb_refl.
    + assert (Hk : (k0 =? k) = false).
      { apply String.eqb_neq. intros ->. apply Hnot.
        apply nth_error_In in Hn. now apply (in_map fst) in Hn. }
      rewrite Hk. now apply IH.
Qed.

(** What the paged platform returns for a group of 150 users with
    distinct ids: the first 100 of them, then the other 50. *)
Lemma paged_crowd (us : list User.t) :
  List.length us = 150 -> NoDup (map User.id us) ->
  let p1 := page_of 100 JS.Undefined us in
  let p2 := page_of 100 (last_key p1) us in
  List.length p1 = 100 /\ List.length p2 = 50
  /\ (values p1 ++ values p2)%list = us.
Proof.
  intros Hlen Hnd p1 p2. subst p1 p2. unfold page_of.
  set (entries := map (fun u => (User.id u, u)) us).
  assert (Hkeys : map fst entries = map User.id us)
    by (unfold entries; now rewrite map_map).
  assert (Hvals : values entries = us)
    by (unfold entries, values; rewrite map_map; apply map_id).
  assert (He : List.length entries = 150)
    by (unfold entries; now rewrite length_map).
  destruct (nth_error entries 99) as [[k u]|] eqn:E99;
    [| apply nth_error_None in E99; lia].
  assert (Hlast : last_key (firstn 100 entries) = JS.Str k).
  { rewrite (firstn_snoc _ _ _ E99). apply last_key_snoc. }
  rewrite Hlast.
  rewrite (after_cursor_skipn entries 99 k u) by (rewrite ?Hkeys; assumption).
  split; [rewrite length_firstn; lia |].
  split; [rewrite length_firstn, length_skipn; lia |].
  rewrite (firstn_all2 (n := 100) (skipn 100 entries))
    by (rewrite length_skipn; lia).
  unfold values in *. now rewrite <- map_app, firstn_skipn.
Qed.

End Crowd.

(** C1: a message with one reaction group of 150 users.  When the first
    page fetched has 100 users and the second, fetched after the last key of
    the first, has 50, the exporter fetches exactly these two pages and then
    attaches the file; the file is the header followed by 150 rows, one per
    user in the order fetched, and every row starts with the label of the
    group.  On the paged platform a group of 150 users with distinct ids
    gives just these pages, so its export makes two fetches, of 100 and of
    50 users, and sends the rows of all 150 users. *)
Theorem export_150_users :
  (forall (P : Platform) (inc : bool) (k : string) (r : Reaction)
          (p1 p2 : Collection User.t) (w w1 w2 : World P) (fuel : nat),
      users_fetch P w r 100 JS.Undefined = (w1, inr p1) ->
      List.length p1 = 100 ->
      users_fetch P w1 r 100 (last_key p1) = (w2, inr p2) ->
      List.length p2 = 50 ->
      2 <= fuel ->
      let data_rows := map (line inc (emojiLabel r)) (values p1 ++ values p2) in
      export P fuel inc (mkMessage [(k, r)]) w =
      Some (w2,
            [UsersFetch r 100 JS.Undefined (inr p1);
             UsersFetch r 100 (last_key p1) (inr p2);
             EditReplyFile msg_export_complete "reactions.csv"
                           (header inc ++ concat "" data_rows)],
            Normal tt)
      /\ List.length data_rows = 150
      /\ Forall (fun row => exists rest, row = emojiLabel r ++ "," ++ rest)
                data_rows)
  /\ (forall (message : option Message)
             (users : Reaction -> option (list User.t))
             (inc : bool) (k : string) (r : Reaction) (us : list User.t)
             (fuel : nat),
         users r = Some us ->
         List.length us = 150 ->
         NoDup (map User.id us) ->
         2 <= fuel ->
         exists p1 p2,
           List.length p1 = 100 /\ List.length p2 = 50
           /\ export (paged_platform message users) fuel inc
                     (mkMessage [(k, r)]) tt =
              Some (tt,
                    [UsersFetch (P:=paged_platform message users) r 100
                                JS.Undefined (inr p1);
                     UsersFetch (P:=paged_platform message users) r 100
                                (last_key p1) (inr p2);
                     EditReplyFile msg_export_complete "reactions.csv"
                       (header inc
                        ++ concat "" (map (line inc (emojiLabel r)) us))],
                    Normal tt)).
Proof.
  split; [exact export_two_pages |].
  intros message users inc k r us fuel Hus Hlen Hnd Hfuel.
  destruct (paged_crowd us Hlen Hnd) as (H1 & H2 & Hall).
  exists (page_of 100 JS.Undefined us),
    (page_of 100 (last_key (page_of 100 JS.Undefined us)) us).
  split; [exact H1 | split; [exact H2 |]].
  destruct (export_two_pages (paged_platform message users) inc k r
              (page_of 100 JS.Undefined us)
              (page_of 100 (last_key (page_of 100 JS.Undefined us)) us)
              tt tt tt fuel) as [E _]; try assumption.
  - cbn [users_fetch paged_platform]. now rewrite Hus.
  - cbn [users_fetch paged_platform]. now rewrite Hus.
  - rewrite E, Hall. reflexivity.
Qed.

Lemma export_150_users_witness :
  exists p1 p2,
    List.length p1 = 100 /\ List.length p2 = 50
    /\ export crowd_platform 2 true
              (mkMessage [("partyblob:999", partyblob)]) tt =
       Some (tt,
             [UsersFetch (P:=crowd_platform) partyblob 100 JS.Undefined
                         (inr p1);
              UsersFetch (P:=crowd_platform) partyblob 100 (last_key p1)
                         (inr p2);
              EditReplyFile msg_export_complete "reactions.csv"
                (header true
                 ++ concat "" (map (line true (emojiLabel partyblob))
                                   (some_users 150)))],
             Normal tt).
Proof.
  apply (proj2 export_150_users
               (Some (mkMessage [("partyblob:999", partyblob)]))
               (fun _ => Some (some_users 150)) true
               "partyblob:999" partyblob (some_users 150) 2).
  - reflexivity.
  - reflexivity.
  - apply distinct_NoDup. vm_compute. reflexivity.
  - lia.
Defined.

(** * Further properties of the handler *)

Section HandlerSteps.
Context {P : Platform}.

Lemma export_normal (fuel : nat) (inc : bool) (message : Message)
      (w w' : World P) (log : list (Event P)) (c : completion P unit) :
  export P fuel inc message w = Some (w', log, c) -> c = Normal tt.
Proof.
  rewrite export_eq.
  destruct (drain_all P fuel (reactions_cache message) w)
    as [[[w1 l] [groups|err]]|]; [| | discriminate]; now intros [= _ _ <-].
Qed.

(** The listener past its guards: the deferred reply, then either the
    TypeError of line 105, or the channel resolved, the message fetched and
    exported. *)
Lemma handler_eq (fuel : nat) (i : Interaction) (w : World P) :
  is_export_command i = true -> inGuild i = true ->
  handler P fuel i w =
  match guild_failure P i w with
  | Some err => Some (w, [DeferReply true], Throw err)
  | None =>
      match resolve_channel P i w with
      | inl msg => Some (w, [DeferReply true; EditReply msg], Normal tt)
      | inr channel =>
          after_event (DeferReply true)
            (export_from P fuel (JS.coalesce (option_include_user_ids i) true)
                         (parseMessageRef (option_message i)) channel w)
      end
  end.
Proof.
  unfold is_export_command. intros Hcmd Hguild.
  apply andb_true_iff in Hcmd as [Hchat Hname].
  unfold handler, resolve_channel, guild_failure.
  rewrite Hchat, Hname, Hguild.
  cbn [negb orb]. unfold bind at 1. cbn [emit].
  destruct (option_channel i) as [channel|].
  - unfold after_event. now destruct (export_from P fuel _ _ channel w) as [[[w2 l] c]|].
  - destruct (negb (JS.truthy _)); [reflexivity |].
    unfold bind, cache_get.
    destruct (guild_missing P w) as [err|]; [reflexivity |].
    destruct (channels_cache_get P w _) as [channel|]; [| reflexivity].
    unfold after_event. cbn [app].
    now destruct (export_from P fuel _ _ channel w) as [[[w2 l] c]|].
Qed.

Lemma handler_not_command (fuel : nat) (i : Interaction) (w : World P) :
  is_export_command i = false -> handler P fuel i w = Some (w, [], Normal tt).
Proof.
  unfold is_export_command, handler. intros H.
  apply andb_false_iff in H. rewrite <- !negb_true_iff in H.
  apply orb_true_iff in H. now rewrite H.
Qed.

Lemma handler_not_in_guild (fuel : nat) (i : Interaction) (w : World P) :
  is_export_command i = true -> inGuild i = false ->
  handler P fuel i w = Some (w, [Reply msg_not_in_server true], Normal tt).
Proof.
  unfold is_export_command. intros Hcmd Hguild.
  apply andb_true_iff in Hcmd as [Hchat Hname].
  unfold handler. now rewrite Hchat, Hname, Hguild.
Qed.

(** What [export_from] emits: the fetch of the message, then either the
    report of its failure or the export. *)
Lemma export_from_shape (fuel : nat) (inc : bool) (ref : MessageRef)
      (channel : Channel) (w w' : World P) (log : list (Event P))
      (c : completion P unit) :
  export_from P fuel inc ref channel w = Some (w', log, c) ->
  c = Normal tt
  /\ exists res middle final,
      log = (MessagesFetch channel (messageId ref) res :: middle ++ [final])%list
      /\ is_edit final = true
      /\ replies middle = []
      /\ Forall (fun e => is_message_fetch e = false) (middle ++ [final]).
Proof.
  rewrite export_from_eq.
  destruct (messages_fetch P w channel (messageId ref)) as [w1 [err|message]].
  - intros [= <- <- <-]. split; [reflexivity |].
    exists (inl err), [ConsoleError err], (EditReply msg_message_fetch_failed).
    repeat split; repeat constructor.
  - rewrite export_eq.
    destruct (drain_all P fuel (reactions_cache message) w1)
      as [[[w2 l] [groups|err]]|] eqn:E; [| | discriminate];
      intros [= <- <- <-]; (split; [reflexivity |]);
      destruct (drain_all_log _ _ _ _ _ _ E) as [Hf _].
    + exists (inr message), l, (final_reply inc groups).
      repeat split.
      * unfold final_reply. now destruct (_ =? _).
      * now apply replies_fetches.
      * apply Forall_app. split.
        -- revert Hf. apply Forall_impl. intros e. now destruct e.
        -- constructor; [| constructor]. unfold final_reply.
           now destruct (_ =? _).
    + exists (inr message), (l ++ [ConsoleError err])%list,
        (EditReply msg_reaction_fetch_failed).
      repeat split.
      * now rewrite <- app_assoc.
      * now rewrite replies_app, (replies_fetches _ Hf).
      * rewrite <- app_assoc. apply Forall_app. split.
        -- revert Hf. apply Forall_impl. intros e. now destruct e.
        -- repeat constructor.
Qed.

End HandlerSteps.

Section HandlerRuns.
Context {P : Platform}.

Lemma filter_none {A : Type} (f : A -> bool) (l : list A) :
  Forall (fun a => f a = false) l -> filter f l = [].
Proof.
  induction 1 as [|a l Ha _ IH]; [reflexivity |].
  cbn [filter]. now rewrite Ha.
Qed.

(** A run past the guards: line 105 threw, or the channel was refused, or
    the message was fetched from the resolved channel and the run ends with
    one edit. *)
Lemma handler_run (fuel : nat) (i : Interaction) (w w' : World P)
      (log : list (Event P)) (c : completion P unit) :
  is_export_command i = true -> inGuild i = true ->
  handler P fuel i w = Some (w', log, c) ->
  (exists err,
      guild_failure P i w = Some err
      /\ log = [DeferReply true] /\ c = Throw err /\ w' = w)
  \/ (guild_failure P i w = None /\ c = Normal tt
      /\ ((exists msg,
          resolve_channel P i w = inl msg
          /\ log = [DeferReply true; EditReply msg])
      \/ (exists channel res middle final,
             resolve_channel P i w = inr channel
             /\ log = (DeferReply true
                       :: MessagesFetch channel
                            (messageId (parseMessageRef (option_message i))) res
                       :: middle ++ [final])%list
             /\ is_edit final = true
             /\ replies middle = []
             /\ Forall (fun e => is_message_fetch e = false)
                       (middle ++ [final])))).
Proof.
  intros Hcmd Hguild. rewrite (handler_eq fuel i w Hcmd Hguild).
  destruct (guild_failure P i w) as [err|].
  { intros [= <- <- <-]. left. now exists err. }
  right. split; [reflexivity |].
  destruct (resolve_channel P i w) as [msg|channel].
  - injection H as <- <- <-. split; [reflexivity |]. left. now exists msg.
  - unfold after_event in H.
    destruct (export_from P fuel _ _ channel w) as [[[w2 l] c2]|] eqn:E;
      [| discriminate].
    injection H as <- <- <-.
    destruct (export_from_shape _ _ _ _ _ _ _ _ E)
      as (-> & res & middle & final & -> & Hfinal & Hmid & Hnone).
    split; [reflexivity |]. right. now exists channel, res, middle, final.
Qed.

End HandlerRuns.

Section Returns.
Context {P : Platform}.

Lemma export_returns (fuel : nat) (inc : bool) (message : Message)
      (w : World P) :
  for_reactions P fuel inc (reactions_cache message) (header inc) w <> None ->
  export P fuel inc message w <> None.
Proof.
  rewrite for_reactions_drain_all, export_eq. unfold bind.
  now destruct (drain_all P fuel (reactions_cache message) w)
    as [[[w1 l] [groups|err]]|].
Qed.

(** The listener returns when the loop over the groups of the message it
    fetches does. *)
Lemma handler_returns (fuel : nat) (i : Interaction) (w : World P) :
  (forall channel w1 message,
      resolve_channel P i w = inr channel ->
      messages_fetch P w channel
                     (messageId (parseMessageRef (option_message i)))
      = (w1, inr message) ->
      for_reactions P fuel (JS.coalesce (option_include_user_ids i) true)
                    (reactions_cache message)
                    (header (JS.coalesce (option_include_user_ids i) true)) w1
      <> None) ->
  handler P fuel i w <> None.
Proof.
  intros Hloop.
  destruct (is_export_command i) eqn:Hcmd;
    [| now rewrite (handler_not_command _ _ _ Hcmd)].
  destruct (inGuild i) eqn:Hguild;
    [| now rewrite (handler_not_in_guild _ _ _ Hcmd Hguild)].
  rewrite (handler_eq _ _ _ Hcmd Hguild).
  destruct (guild_failure P i w) as [err|]; [discriminate |].
  destruct (resolve_channel P i w) as [msg|channel]; [discriminate |].
  rewrite export_from_eq.
  destruct (messages_fetch P w channel _) as [w1 [err|message]] eqn:E;
    [discriminate |].
  specialize (Hloop channel w1 message eq_refl E).
  apply export_returns in Hloop.
  now destruct (export P fuel _ message w1) as [[[w2 l] c]|].
Qed.

End Returns.

(** X2: what the invoking user gets, replies taken to arrive.  An
    interaction that is not a use of the command gets nothing at all; a use
    outside a server gets the one ephemeral not-in-server reply and nothing
    is fetched; a use in a server gets the ephemeral deferred reply first,
    and then either line 105 throws on a guild that is not in the cache and
    there is no further reply, or the run does exactly one edit of the
    reply, which is the last thing it does.  And the run does end, with that
    outcome, whenever the loop over the reaction groups of the message it
    fetches ends. *)
Theorem reply_protocol (P : Platform) (fuel : nat) (i : Interaction)
        (w : World P) :
  (forall (w' : World P) (log : list (Event P)) (c : completion P unit),
      handler P fuel i w = Some (w', log, c) ->
      match is_export_command i, inGuild i with
      | false, _ => log = [] /\ w' = w /\ c = Normal tt
      | true, false =>
          log = [Reply msg_not_in_server true] /\ w' = w /\ c = Normal tt
      | true, true =>
          (exists err,
              guild_failure P i w = Some err
              /\ log = [DeferReply true] /\ c = Throw err)
          \/ (guild_failure P i w = None /\ c = Normal tt
              /\ exists middle final,
                  log = (DeferReply true :: middle ++ [final])%list
                  /\ replies middle = []
                  /\ is_edit final = true)
      end)
  /\ ((forall channel w1 message,
          resolve_channel P i w = inr channel ->
          messages_fetch P w channel
                         (messageId (parseMessageRef (option_message i)))
          = (w1, inr message) ->
          for_reactions P fuel (JS.coalesce (option_include_user_ids i) true)
                        (reactions_cache message)
                        (header (JS.coalesce (option_include_user_ids i) true))
                        w1
          <> None) ->
      exists w' log c, handler P fuel i w = Some (w', log, c)).
Proof.
  split.
  - intros w' log c. destruct (is_export_command i) eqn:Hcmd.
    + destruct (inGuild i) eqn:Hguild.
      * intros H. destruct (handler_run _ _ _ _ _ _ Hcmd Hguild H)
          as [(err & Hg & -> & -> & _)
             | (Hg & -> & [(msg & _ & ->)
                          | (ch & res & middle & final & _ & -> & Hf & Hm & _)])].
        -- left. now exists err.
        -- right. repeat split; try assumption. now exists [], (EditReply msg).
        -- right. repeat split; try assumption.
           exists (MessagesFetch ch
                     (messageId (parseMessageRef (option_message i))) res
                     :: middle), final.
           repeat split; assumption.
      * rewrite (handler_not_in_guild _ _ _ Hcmd Hguild).
        now intros [= <- <- <-].
    + rewrite (handler_not_command _ _ _ Hcmd). now intros [= <- <- <-].
  - intros Hloop. pose proof (handler_returns fuel i w Hloop) as H.
    destruct (handler P fuel i w) as [[[w' log] c]|]; [| now elim H].
    now exists w', log, c.
Qed.

Lemma reply_protocol_witness :
  ((exists err,
       guild_failure party_platform (link_interaction None) tt = Some err
       /\ party_log true = [DeferReply true] /\ Normal tt = Throw err)
   \/ (guild_failure party_platform (link_interaction None) tt = None
       /\ @Normal party_platform unit tt = Normal tt
       /\ exists middle final,
           party_log true = (DeferReply true :: middle ++ [final])%list
           /\ replies middle = []
           /\ is_edit final = true))
  /\ exists w' log c,
      handler party_platform 1 (link_interaction None) tt = Some (w', log, c).
Proof.
  destruct (reply_protocol party_platform 1 (link_interaction None) tt)
    as [Hsafe Hlive].
  split.
  - apply (Hsafe tt (party_log true) (Normal tt)). reflexivity.
  - apply Hlive. intros channel w1 message _ Hfetch.
    injection Hfetch as _ <-. discriminate.
Defined.

(** X3: when the fetch of the message throws, the run is the deferred
    reply, that one fetch, the error on the console and the
    message-fetch-failed edit: no page of users is asked for and no file is
    sent. *)
Theorem message_fetch_failure (P : Platform) (fuel : nat) (i : Interaction)
        (w w' : World P) (log : list (Event P)) (c : completion P unit)
        (channel : Channel) (id : JS.val) (err : Error P) :
  handler P fuel i w = Some (w', log, c) ->
  In (MessagesFetch channel id (inl err)) log ->
  log = [DeferReply true; MessagesFetch channel id (inl err);
         ConsoleError err; EditReply msg_message_fetch_failed].
Proof.
  intros Hrun Hin.
  destruct (handler_cases _ _ _ _ _ _ Hrun)
    as [Hq | (ch & message & w1 & log' & Hm & -> & He)].
  2:{ exfalso. destruct Hin as [Hin | [Hin | Hin]]; try discriminate.
      rewrite export_eq in He.
      destruct (drain_all P fuel (reactions_cache message) w1)
        as [[[w2 l] [groups|e]]|] eqn:E; [| | discriminate];
        injection He as <- <- <-;
        destruct (drain_all_log _ _ _ _ _ _ E) as [Hf _];
        apply in_app_or in Hin as [Hin | Hin];
        try (now apply (fetches_no_attachment _ _ Hf) in Hin).
      - destruct Hin as [Hin | []]. unfold final_reply in Hin.
        now destruct (_ =? _).
      - destruct Hin as [Hin | [Hin | []]]; discriminate. }
  destruct (is_export_command i) eqn:Hcmd;
    [| rewrite (handler_not_command _ _ _ Hcmd) in Hrun;
       injection Hrun as <- <- <-; now destruct Hin].
  destruct (inGuild i) eqn:Hguild;
    [| rewrite (handler_not_in_guild _ _ _ Hcmd Hguild) in Hrun;
       injection Hrun as <- <- <-; destruct Hin as [Hin | []]; discriminate].
  rewrite (handler_eq _ _ _ Hcmd Hguild) in Hrun.
  destruct (guild_failure P i w) as [e|].
  { injection Hrun as <- <- <-. destruct Hin as [Hin | []]; discriminate. }
  destruct (resolve_channel P i w) as [msg|ch].
  { injection Hrun as <- <- <-.
    destruct Hin as [Hin | [Hin | []]]; discriminate. }
  rewrite export_from_eq in Hrun.
  destruct (messages_fetch P w ch _) as [w1 [e|message]].
  - cbn [after_event] in Hrun. injection Hrun as <- <- <-.
    destruct Hin as [Hin | [Hin | [Hin | [Hin | []]]]]; try discriminate.
    now injection Hin as -> -> ->.
  - exfalso. destruct (export P fuel _ message w1) as [[[w2 l] c2]|];
      [| discriminate].
    cbn [after_event] in Hrun. injection Hrun as <- <- <-.
    unfold quiet in Hq. rewrite Forall_forall in Hq.
    specialize (Hq (MessagesFetch ch
                      (messageId (parseMessageRef (option_message i)))
                      (inr message))).
    discriminate Hq. right. now left.
Qed.

Lemma message_fetch_failure_witness :
  lost_log =
  [DeferReply true;
   MessagesFetch (P:=lost_platform) (TextChannel "2222") (JS.Str "3333")
                 (inl "Unknown Message");
   ConsoleError (P:=lost_platform) "Unknown Message";
   EditReply msg_message_fetch_failed].
Proof.
  apply (message_fetch_failure lost_platform 1 (link_interaction None) tt tt
                               lost_log (Normal tt)).
  - reflexivity.
  - right. left. reflexivity.
Defined.

(** X4: a run fetches the message at most once, and when it does, from
    the resolved channel and under the messageId of the parsed reference.
    The channel option, when given, is that channel, whatever channel the
    link names; otherwise it is the cached channel of the link. *)
Theorem message_fetch_target (P : Platform) (fuel : nat) (i : Interaction)
        (w w' : World P) (log : list (Event P)) (c : completion P unit)
        (channel : Channel) (id : JS.val) (res : Error P + Message) :
  handler P fuel i w = Some (w', log, c) ->
  In (MessagesFetch channel id res) log ->
  resolve_channel P i w = inr channel
  /\ (forall given, option_channel i = Some given -> channel = given)
  /\ (option_channel i = None ->
      channels_cache_get P w (channelId (parseMessageRef (option_message i)))
      = Some channel)
  /\ id = messageId (parseMessageRef (option_message i))
  /\ filter is_message_fetch log = [MessagesFetch channel id res].
Proof.
  intros Hrun Hin.
  enough (H : resolve_channel P i w = inr channel
              /\ id = messageId (parseMessageRef (option_message i))
              /\ filter is_message_fetch log = [MessagesFetch channel id res]).
  { destruct H as (Hres & Hid & Hone). repeat split; try assumption.
    - intros given Hgiven. unfold resolve_channel in Hres.
      rewrite Hgiven in Hres. now injection Hres.
    - intros Hnone. unfold resolve_channel in Hres. rewrite Hnone in Hres.
      destruct (negb (JS.truthy _)); [discriminate |].
      destruct (channels_cache_get P w _) as [ch|]; [| discriminate].
      now injection Hres as ->. }
  destruct (is_export_command i) eqn:Hcmd;
    [| rewrite (handler_not_command _ _ _ Hcmd) in Hrun;
       injection Hrun as <- <- <-; now destruct Hin].
  destruct (inGuild i) eqn:Hguild;
    [| rewrite (handler_not_in_guild _ _ _ Hcmd Hguild) in Hrun;
       injection Hrun as <- <- <-; destruct Hin as [Hin | []]; discriminate].
  destruct (handler_run _ _ _ _ _ _ Hcmd Hguild Hrun)
    as [(e & _ & -> & _)
       | (_ & _ & [(msg & _ & ->)
                  | (ch & r & middle & final & Hres & -> & _ & _ & Hnone)])].
  { destruct Hin as [Hin | []]; discriminate. }
  { destruct Hin as [Hin | [Hin | []]]; discriminate. }
  destruct Hin as [Hin | [Hin | Hin]]; [discriminate | |].
  - injection Hin as <- <- <-. repeat split; [assumption |].
    cbn [filter is_message_fetch]. now rewrite (filter_none _ _ Hnone).
  - exfalso. rewrite Forall_forall in Hnone. now specialize (Hnone _ Hin).
Qed.

Lemma message_fetch_target_witness :
  resolve_channel party_platform (link_interaction None) tt
  = inr (TextChannel "2222")
  /\ (forall given,
         option_channel (link_interaction None) = Some given ->
         TextChannel "2222" = given)
  /\ (option_channel (link_interaction None) = None ->
      channels_cache_get party_platform tt
        (channelId (parseMessageRef (option_message (link_interaction None))))
      = Some (TextChannel "2222"))
  /\ JS.Str "3333" =
     messageId (parseMessageRef (option_message (link_interaction None)))
  /\ filter is_message_fetch (party_log true) =
     [MessagesFetch (P:=party_platform) (TextChannel "2222") (JS.Str "3333")
                    (inr party_message)].
Proof.
  apply (message_fetch_target party_platform 1 (link_interaction None) tt tt
                              (party_log true) (Normal tt)).
  - reflexivity.
  - right. left. reflexivity.
Defined.

(** ** Links inside a longer text *)

Section Links.

Lemma path_takes_digits (g c m rest : string) :
  message_path g c m ++ rest =
  message_path g c (m ++ take_digits rest) ++ drop_digits rest.
Proof.
  rewrite (take_drop_digits rest) at 1.
  rewrite !message_path_append. now rewrite !append_assoc.
Qed.

Lemma search_embedded (origin g c m rest : string) :
  numeric g = true -> numeric c = true -> numeric m = true ->
  anchor_not_before (length origin) (origin ++ message_path g c m ++ rest)
  = true ->
  Regex.search url_regex (origin ++ message_path g c m ++ rest) =
  Some [message_path g c (m ++ take_digits rest); g; c; m ++ take_digits rest].
Proof.
  intros Hg Hc Hm Hfirst.
  rewrite (search_skip _ _ Hfirst), skip_append, path_takes_digits.
  apply search_path; try assumption.
  - apply numeric_append; [assumption | apply all_digits_take].
  - apply drop_digits_stops.
Qed.

Lemma numeric_truthy (s : string) :
  numeric s = true -> JS.truthy (JS.Str s) = true.
Proof. unfold numeric. now intros H%andb_true_iff. Qed.

(** Either the pattern occurs and the three fields are numeric, or it does
    not and the text is the messageId. *)
Lemma parse_cases (input : string) :
  (occurs_in input
   /\ exists g c m,
       numeric g = true /\ numeric c = true /\ numeric m = true
       /\ parseMessageRef input = mkRef (JS.Str g) (JS.Str c) (JS.Str m))
  \/ (~ occurs_in input
      /\ parseMessageRef input = mkRef JS.Undefined JS.Undefined (JS.Str input)).
Proof.
  destruct (Regex.search url_regex input) as [l|] eqn:E.
  - left. destruct (search_some _ _ _ E) as (pre & t & Hin & Ht & _).
    rewrite url_here_ok in Ht.
    destruct (url_here_inv _ _ Ht)
      as (g & c & m & rest & -> & Hg & Hc & Hm & _ & ->).
    split; [now exists pre, g, c, m, rest |].
    exists g, c, m. repeat split; try assumption.
    now apply (parse_of_match _ (message_path g c m)).
  - right. split; [| now apply parse_of_no_match].
    intros (pre & g & c & m & rest & Hin & Hg & Hc & Hm).
    assert (H := search_none _ _ E _ _ Hin). rewrite url_here_ok in H.
    now elim (url_here_occurs g c m rest Hg Hc Hm).
Qed.

End Links.

(** X5: a link is found inside a longer text.  When the pattern does not
    begin before it, the link parses to its three segments whatever follows
    it; digits that follow the last segment directly are taken into the
    messageId. *)
Theorem parseMessageRef_embedded (origin g c m rest : string) :
  numeric g = true -> numeric c = true -> numeric m = true ->
  anchor_not_before (length origin) (origin ++ message_path g c m ++ rest)
  = true ->
  parseMessageRef (origin ++ message_path g c m ++ rest) =
  mkRef (JS.Str g) (JS.Str c) (JS.Str (m ++ take_digits rest)).
Proof.
  intros Hg Hc Hm Hfirst.
  apply (parse_of_match _ (message_path g c (m ++ take_digits rest))).
  now apply search_embedded.
Qed.

Lemma parseMessageRef_embedded_witness :
  parseMessageRef
    ("see <https://" ++ message_path "1111" "2222" "3333" ++ "> and reply") =
  mkRef (JS.Str "1111") (JS.Str "2222") (JS.Str ("3333" ++ take_digits "> and reply")).
Proof.
  apply (parseMessageRef_embedded "see <https://" "1111" "2222" "3333"
                                  "> and reply"); reflexivity.
Defined.

(** X6: without the channel option, the command answers with the
    missing-channel message exactly when the pattern of a link does not occur
    in the message text. *)
Theorem missing_channel_iff_no_link (P : Platform) (fuel : nat)
        (i : Interaction) (w : World P) :
  is_export_command i = true -> inGuild i = true ->
  option_channel i = None ->
  (handler P fuel i w =
   Some (w, [DeferReply true; EditReply msg_missing_channel], Normal tt)
   <-> ~ occurs_in (option_message i)).
Proof.
  intros Hcmd Hguild Hopt. rewrite (handler_eq fuel i w Hcmd Hguild).
  unfold resolve_channel, guild_failure. rewrite Hopt.
  destruct (parse_cases (option_message i))
    as [(Hocc & g & c & m & Hg & Hc & Hm & ->) | (Hno & ->)].
  - cbn [channelId]. rewrite (numeric_truthy c Hc). cbn [negb].
    split; [| now intros H].
    intros H. exfalso.
    destruct (guild_missing P w) as [err|]; [discriminate |].
    destruct (channels_cache_get P w (JS.Str c)) as [channel|].
    + unfold after_event in H.
      destruct (export_from P fuel _ _ channel w) as [[[w2 l] c2]|] eqn:E;
        [| discriminate].
      destruct (export_from_shape _ _ _ _ _ _ _ _ E)
        as (_ & res & middle & final & -> & _).
      discriminate.
    + discriminate.
  - cbn [channelId JS.truthy negb]. split; [now intros _ | reflexivity].
Qed.

Lemma missing_channel_iff_no_link_witness :
  handler lost_platform 1
          (mkInteraction true "export-reactions" true "not a link" None None) tt
  = Some (tt, [DeferReply true; EditReply msg_missing_channel], Normal tt)
  <-> ~ occurs_in "not a link".
Proof.
  apply (missing_channel_iff_no_link lost_platform 1
           (mkInteraction true "export-reactions" true "not a link" None None)
           tt); reflexivity.
Defined.

(** X7: without the channel option, a link whose channel is not in the
    cache of channels of the guild is answered with the channel-inaccessible
    message, and nothing is fetched; this when the guild of the interaction
    is in the client's cache.  When it is not, [interaction.guild] is null and
    line 105 throws whatever the channel of the link: the run is the deferred
    reply and the TypeError, and the reply is never edited. *)
Theorem channel_inaccessible (P : Platform) (fuel : nat) (i : Interaction)
        (w : World P) (origin g c m rest : string) :
  is_export_command i = true -> inGuild i = true ->
  option_channel i = None ->
  option_message i = origin ++ message_path g c m ++ rest ->
  numeric g = true -> numeric c = true -> numeric m = true ->
  anchor_not_before (length origin) (origin ++ message_path g c m ++ rest)
  = true ->
  (guild_missing P w = None ->
   channels_cache_get P w (JS.Str c) = None ->
   handler P fuel i w =
   Some (w, [DeferReply true; EditReply msg_channel_inaccessible], Normal tt))
  /\ (forall err,
         guild_missing P w = Some err ->
         handler P fuel i w = Some (w, [DeferReply true], Throw err)).
Proof.
  intros Hcmd Hguild Hopt Hmsg Hg Hc Hm Hfirst.
  rewrite (handler_eq fuel i w Hcmd Hguild).
  unfold resolve_channel, guild_failure. rewrite Hopt, Hmsg.
  rewrite (parse_of_match _ _ _ _ _ (search_embedded _ _ _ _ _ Hg Hc Hm Hfirst)).
  cbn [channelId]. rewrite (numeric_truthy c Hc). cbn [negb].
  split.
  - intros -> ->. reflexivity.
  - intros err ->. reflexivity.
Qed.

Lemma channel_inaccessible_witness :
  handler uncached_platform 1 (link_interaction None) tt
  = Some (tt, [DeferReply true; EditReply msg_channel_inaccessible], Normal tt)
  /\ handler guildless_platform 1 (link_interaction None) tt
     = Some (tt, [DeferReply true], Throw (P:=guildless_platform) null_guild).
Proof.
  split.
  - apply (channel_inaccessible uncached_platform 1 (link_interaction None) tt
                                "https://" "1111" "2222" "3333" "");
      reflexivity.
  - apply (channel_inaccessible guildless_platform 1 (link_interaction None)
                                tt "https://" "1111" "2222" "3333" "");
      reflexivity.
Defined.

(** ** What was fetched decides the reply *)

Section Fetched.
Context {P : Platform}.

Lemma fetched_app (l1 l2 : list (Event P)) :
  fetched (l1 ++ l2) = (fetched l1 ++ fetched l2)%list.
Proof. apply flat_map_app. Qed.

Lemma none_failed_app (l1 l2 : list (Event P)) :
  none_failed l1 -> none_failed l2 -> none_failed (l1 ++ l2).
Proof. intros H1 H2. apply Forall_app. now split. Qed.

(** A run of [drain]: its fetches form a chain from the cursor; when it
    returns, it returns the users of the pages fetched and no fetch threw;
    when it throws, the fetch that threw is the last one. *)
Lemma drain_run (fuel : nat) (r : Reaction) (cursor : JS.val)
      (w w' : World P) (log : list (Event P)) (c : completion P (list User.t)) :
  drain P fuel r cursor w = Some (w', log, c) ->
  chained r cursor log
  /\ match c with
     | Normal users => fetched log = users /\ none_failed log
     | Throw err =>
         exists before after,
           log = (before ++ [UsersFetch r 100 after (inl err)])%list
           /\ none_failed before
     end.
Proof.
  revert cursor w w' log c.
  induction fuel as [|fuel IH]; intros cursor w w' log c; [discriminate |].
  destruct (users_fetch P w r 100 cursor) as [w1 [err|page]] eqn:E.
  - rewrite (drain_throw _ _ _ _ _ _ E). intros [= <- <- <-].
    split; [now cbn |]. exists [], cursor. split; [reflexivity | constructor].
  - destruct (Nat.lt_ge_cases (List.length page) 100) as [Hlt | Hge].
    + rewrite (drain_short_page _ _ _ _ _ _ E Hlt). intros [= <- <- <-].
      split.
      * cbn [chained]. apply Nat.ltb_lt in Hlt. now rewrite Hlt.
      * split; [cbn; apply app_nil_r | repeat constructor].
    + rewrite (drain_full_page _ _ _ _ _ _ E Hge).
      assert (Hnlt : (List.length page <? 100)%nat = false)
        by (apply Nat.ltb_ge; exact Hge).
      destruct (drain P fuel r (last_key page) w1)
        as [[[w2 l] [later|err]]|] eqn:Erest; [| | discriminate];
        intros [= <- <- <-]; destruct (IH _ _ _ _ _ Erest) as [Hchain Hc];
        (split; [cbn [chained]; now rewrite Hnlt |]).
      * destruct Hc as [<- Hn]. split; [reflexivity |].
        constructor; [reflexivity | exact Hn].
      * destruct Hc as (before & after & -> & Hn).
        exists (UsersFetch r 100 cursor (inr page) :: before), after.
        split; [reflexivity |]. constructor; [reflexivity | exact Hn].
Qed.

Lemma drain_all_run (fuel : nat) (reactions : Collection Reaction)
      (w w' : World P) (log : list (Event P))
      (c : completion P (list (Reaction * list User.t))) :
  drain_all P fuel reactions w = Some (w', log, c) ->
  match c with
  | Normal groups => List.concat (map snd groups) = fetched log /\ none_failed log
  | Throw err =>
      exists before r after,
        log = (before ++ [UsersFetch r 100 after (inl err)])%list
        /\ none_failed before
  end.
Proof.
  revert w w' log c.
  induction reactions as [|[k r] rest IH]; intros w w' log c.
  - cbn [drain_all ret]. intros [= <- <- <-]. split; [reflexivity | constructor].
  - cbn [drain_all]. unfold bind.
    destruct (drain P fuel r JS.Undefined w) as [[[w1 l1] [us|err]]|] eqn:E1;
      [| | discriminate].
    + destruct (drain_run _ _ _ _ _ _ _ E1) as [_ [Hus Hn1]].
      destruct (drain_all P fuel rest w1) as [[[w2 l2] [gs|err]]|] eqn:E2;
        [| | discriminate]; intros [= <- <- <-].
      * cbn [ret]. rewrite app_nil_r. destruct (IH _ _ _ _ E2) as [Hgs Hn2].
        split; [| now apply none_failed_app].
        cbn [map snd List.concat]. now rewrite fetched_app, Hus, Hgs.
      * destruct (IH _ _ _ _ E2) as (before & r' & after & -> & Hn2).
        exists (l1 ++ before)%list, r', after.
        split; [now rewrite app_assoc | now apply none_failed_app].
    + intros [= <- <- <-].
      destruct (drain_run _ _ _ _ _ _ _ E1) as [_ (before & after & -> & Hn)].
      now exists before, r, after.
Qed.

(** A run of [drain_all], group by group.  When it returns, every group
    has a chain of fetches of its own, none of which threw, and the users of
    the group are those of the pages of its chain; the log is these chains
    one after the other.  When it throws, the groups before some group have
    their chains, the chain of that group ends with the fetch that threw,
    and that fetch is the last event: no later group is fetched. *)
Lemma drain_all_groups (fuel : nat) (reactions : Collection Reaction)
      (w w' : World P) (log : list (Event P))
      (c : completion P (list (Reaction * list User.t))) :
  drain_all P fuel reactions w = Some (w', log, c) ->
  match c with
  | Normal groups =>
      exists logs,
        log = List.concat logs
        /\ map fst groups = map snd reactions
        /\ Forall2 (fun g l => chained (fst g) JS.Undefined l
                              /\ none_failed l /\ fetched l = snd g)
                   groups logs
  | Throw err =>
      exists done k r rest logs last,
        reactions = (done ++ (k, r) :: rest)%list
        /\ log = (List.concat logs ++ last)%list
        /\ Forall2 (fun entry l => chained (snd entry) JS.Undefined l
                                  /\ none_failed l)
                   done logs
        /\ chained r JS.Undefined last
        /\ exists before after,
            last = (before ++ [UsersFetch r 100 after (inl err)])%list
            /\ none_failed before
  end.
Proof.
  revert w w' log c.
  induction reactions as [|[k r] rest IH]; intros w w' log c.
  - cbn [drain_all ret]. intros [= <- <- <-]. exists [].
    repeat split; constructor.
  - cbn [drain_all]. unfold bind.
    destruct (drain P fuel r JS.Undefined w) as [[[w1 l1] [us|err]]|] eqn:E1;
      [| | discriminate];
      destruct (drain_run _ _ _ _ _ _ _ E1) as [Hchain Hc].
    + destruct Hc as [Hus Hn1].
      destruct (drain_all P fuel rest w1) as [[[w2 l2] [gs|err]]|] eqn:E2;
        [| | discriminate]; intros [= <- <- <-]; specialize (IH _ _ _ _ E2).
      * destruct IH as (logs & -> & Hfst & Hall).
        exists (l1 :: logs). cbn [ret]. rewrite app_nil_r.
        split; [reflexivity |]. split; [cbn [map fst snd]; now f_equal |].
        constructor; [| exact Hall]. now repeat split.
      * destruct IH as (done & k' & r' & rest' & logs & last & -> & -> & Hall
                        & Hlast & Hfail).
        exists ((k, r) :: done), k', r', rest', (l1 :: logs), last.
        split; [reflexivity |].
        split; [cbn [List.concat]; now rewrite app_assoc |].
        split; [| now split].
        constructor; [| exact Hall]. now split.
    + intros [= <- <- <-]. exists [], k, r, rest, [], l1.
      split; [reflexivity |]. split; [reflexivity |].
      split; [constructor |]. now split.
Qed.

(** The users of the groups, one group after the other, are the users
    fetched, in the order fetched. *)
Lemma fetched_groups (groups : list (Reaction * list User.t))
      (logs : list (list (Event P))) :
  Forall2 (fun g l => chained (fst g) JS.Undefined l
                      /\ none_failed l /\ fetched l = snd g)
          groups logs ->
  fetched (List.concat logs) = List.concat (map snd groups)
  /\ none_failed (List.concat logs).
Proof.
  induction 1 as [|g l groups logs (_ & Hn & Hus) _ [IH IHn]].
  - split; [reflexivity | constructor].
  - cbn [List.concat map]. rewrite fetched_app, Hus, IH.
    split; [reflexivity | now apply none_failed_app].
Qed.

Lemma append_blank (a b : string) : a ++ b = "" -> a = "" /\ b = "".
Proof. destruct a; [simpl; now intros -> | discriminate]. Qed.

Lemma rows_blank (inc : bool) (label : string) (us : list User.t) :
  rows inc label us = "" -> us = [].
Proof.
  intros H. destruct us as [|u us]; [reflexivity |].
  pose proof (rows_not_empty inc label (u :: us)) as Hlen.
  rewrite H in Hlen. simpl in Hlen.
  assert (1 <= 0) by (apply Hlen; discriminate). lia.
Qed.

Lemma grouped_rows_blank (inc : bool) (groups : list (Reaction * list User.t)) :
  grouped_rows inc groups = "" <-> List.concat (map snd groups) = [].
Proof.
  induction groups as [|[r us] groups IH]; [now split |].
  rewrite grouped_rows_cons. cbn [map snd List.concat]. split.
  - intros H. apply append_blank in H as [Hus Hgs].
    apply rows_blank in Hus. subst us. now apply IH.
  - intros H. apply app_eq_nil in H as [-> Hgs].
    apply IH in Hgs. now rewrite Hgs.
Qed.

Lemma line_text (inc : bool) (label : string) (u : User.t) :
  line inc label u = row_text inc label u ++ newline.
Proof.
  unfold line, row_text. destruct inc; rewrite !append_assoc; reflexivity.
Qed.

(** The rows of the groups, written out. *)
Lemma grouped_rows_texts (inc : bool) (groups : list (Reaction * list User.t)) :
  grouped_rows inc groups =
  concat ""
    (map (fun g =>
            concat ""
              (map (fun u => row_text inc (emojiLabel (fst g)) u ++ newline)
                   (snd g)))
         groups).
Proof.
  unfold grouped_rows, rows. f_equal. apply map_ext. intros g.
  f_equal. apply map_ext. intros u. apply line_text.
Qed.

Lemma final_reply_cases (inc : bool) (groups : list (Reaction * list User.t)) :
  (List.concat (map snd groups) = []
   /\ @final_reply P inc groups = EditReply msg_no_reactions)
  \/ (List.concat (map snd groups) <> []
      /\ @final_reply P inc groups =
         EditReplyFile msg_export_complete "reactions.csv"
                       (header inc ++ grouped_rows inc groups)).
Proof.
  unfold final_reply.
  destruct (grouped_rows inc groups) as [|x g] eqn:E.
  - left. split; [now apply (proj1 (grouped_rows_blank inc groups)) |].
    now rewrite append_empty_r, String.eqb_refl.
  - right. split.
    + intros H. apply (proj2 (grouped_rows_blank inc groups)) in H. congruence.
    + rewrite append_neq_self; [reflexivity | simpl; lia].
Qed.

End Fetched.

(** X8: once the message is fetched, the loop over its reaction groups
    decides the rest of the run, and the run ends when the loop does.  If a
    page fetch threw, the fetch that threw is the last one and the run ends
    with the error on the console and the reaction-fetch-failed edit.  If
    the loop returned, every group has its own chain of fetches, none of
    which threw, and its users are the users of the pages of that chain;
    the text is the header and then, group after group, the rows of the
    users of the group under the label of the group; the run ends with the
    no-reactions edit when no page held a user, and else with the file of
    that text. *)
Theorem final_reply_by_fetches (P : Platform) (fuel : nat) (i : Interaction)
        (w w1 w2 : World P) (channel : Channel) (message : Message)
        (l : list (Event P)) (c0 : completion P string) :
  is_export_command i = true -> inGuild i = true ->
  guild_failure P i w = None ->
  resolve_channel P i w = inr channel ->
  let inc := JS.coalesce (option_include_user_ids i) true in
  let id := messageId (parseMessageRef (option_message i)) in
  messages_fetch P w channel id = (w1, inr message) ->
  for_reactions P fuel inc (reactions_cache message) (header inc) w1
  = Some (w2, l, c0) ->
  exists final,
    handler P fuel i w =
    Some (w2,
          (DeferReply true :: MessagesFetch channel id (inr message)
             :: l ++ final)%list,
          Normal tt)
    /\ match c0 with
       | Throw err =>
           final = [ConsoleError err; EditReply msg_reaction_fetch_failed]
           /\ exists before r after,
               l = (before ++ [UsersFetch r 100 after (inl err)])%list
               /\ none_failed before
       | Normal csv =>
           exists groups logs,
             l = List.concat logs
             /\ map fst groups = map snd (reactions_cache message)
             /\ Forall2 (fun g lg => chained (fst g) JS.Undefined lg
                                    /\ none_failed lg /\ fetched lg = snd g)
                        groups logs
             /\ csv = header inc
                      ++ concat ""
                           (map (fun g =>
                                   concat ""
                                     (map (fun u =>
                                             row_text inc (emojiLabel (fst g)) u
                                             ++ newline)
                                          (snd g)))
                                groups)
             /\ final = [match fetched l with
                         | [] => EditReply msg_no_reactions
                         | _ :: _ =>
                             EditReplyFile msg_export_complete "reactions.csv"
                                           csv
                         end]
       end.
Proof.
  intros Hcmd Hguild Hgf Hres inc id Hfetch Hloop. subst id.
  rewrite (handler_eq fuel i w Hcmd Hguild), Hgf, Hres, export_from_eq, Hfetch.
  fold inc. rewrite export_eq.
  rewrite for_reactions_drain_all in Hloop. unfold bind in Hloop.
  destruct (drain_all P fuel (reactions_cache message) w1)
    as [[[w3 l3] [groups|err]]|] eqn:E; [| | discriminate];
    cbn [ret] in Hloop; injection Hloop as <- <- <-.
  - rewrite app_nil_r.
    destruct (drain_all_groups _ _ _ _ _ _ E) as (logs & -> & Hfst & Hall).
    destruct (fetched_groups _ _ Hall) as [Hf _].
    exists [final_reply inc groups]. split; [reflexivity |].
    exists groups, logs.
    split; [reflexivity |]. split; [exact Hfst |]. split; [exact Hall |].
    split; [f_equal; apply grouped_rows_texts |].
    rewrite Hf. f_equal.
    destruct (final_reply_cases (P:=P) inc groups) as [[Hnil ->] | [Hsome ->]].
    + now rewrite Hnil.
    + now destruct (List.concat (map snd groups)).
  - exists [ConsoleError err; EditReply msg_reaction_fetch_failed].
    split; [reflexivity |]. split; [reflexivity |].
    exact (drain_all_run _ _ _ _ _ _ E).
Qed.

Lemma final_reply_by_fetches_witness :
  (exists final,
      handler party_platform 1 (link_interaction (Some false)) tt =
      Some (tt,
            (DeferReply true
               :: MessagesFetch (P:=party_platform) (TextChannel "2222")
                    (JS.Str "3333") (inr party_message)
               :: party_fetches ++ final)%list,
            Normal tt)
      /\ exists groups logs,
          party_fetches = List.concat logs
          /\ map fst groups = map snd (reactions_cache party_message)
          /\ Forall2 (fun g lg => chained (fst g) JS.Undefined lg
                                 /\ none_failed lg /\ fetched lg = snd g)
                     groups logs
          /\ party_csv false
             = header false
               ++ concat ""
                    (map (fun g =>
                            concat ""
                              (map (fun u =>
                                      row_text false (emojiLabel (fst g)) u
                                      ++ newline)
                                   (snd g)))
                         groups)
          /\ final = [match fetched party_fetches with
                      | [] => EditReply msg_no_reactions
                      | _ :: _ =>
                          EditReplyFile msg_export_complete "reactions.csv"
                                        (party_csv false)
                      end])
  /\ (exists final,
         handler refusing_platform 1 (link_interaction None) tt =
         Some (tt,
               (DeferReply true
                  :: MessagesFetch (P:=refusing_platform) (TextChannel "2222")
                       (JS.Str "3333") (inr party_message)
                  :: refused_fetch ++ final)%list,
               Normal tt)
         /\ final = [ConsoleError (P:=refusing_platform) "Missing Access";
                     EditReply msg_reaction_fetch_failed]
         /\ exists before r after,
             refused_fetch
             = (before ++ [UsersFetch (P:=refusing_platform) r 100 after
                                      (inl "Missing Access")])%list
             /\ none_failed before).
Proof.
  split.
  - apply (final_reply_by_fetches party_platform 1
             (link_interaction (Some false)) tt tt tt (TextChannel "2222")
             party_message party_fetches (Normal (party_csv false)));
      reflexivity.
  - apply (final_reply_by_fetches refusing_platform 1 (link_interaction None)
             tt tt tt (TextChannel "2222") party_message refused_fetch
             (Throw (P:=refusing_platform) "Missing Access"));
      reflexivity.
Defined.

(** X9: the fetches of the loop of a group form a chain.  Every fetch asks
    for 100 users of that group; the first asks after the cursor the loop
    starts with, every other after the last key of the page before it; the
    loop goes on after a page exactly when the page has 100 users or more,
    and stops at the first fetch that throws. *)
Theorem fetches_chained (P : Platform) (fuel : nat) (inc : bool)
        (r : Reaction) (label : string) (cursor : JS.val) (csv : string)
        (w w' : World P) (log : list (Event P)) (c : completion P string) :
  paginate P fuel inc r label cursor csv w = Some (w', log, c) ->
  chained r cursor log.
Proof.
  rewrite paginate_drain. unfold bind.
  destruct (drain P fuel r cursor w) as [[[w1 l] [users|err]]|] eqn:E;
    [| | discriminate]; cbn [ret]; intros [= <- <- <-];
    destruct (drain_run _ _ _ _ _ _ _ E) as [Hchain _].
  - now rewrite app_nil_r.
  - exact Hchain.
Qed.

Lemma fetches_chained_witness : chained partyblob JS.Undefined crowd_fetches.
Proof.
  apply (fetches_chained crowd_platform 2 false partyblob "partyblob:999"
                         JS.Undefined (header false) tt tt crowd_fetches
                         (Normal (header false
                                  ++ rows false "partyblob:999" (some_users 150)))).
  vm_compute. reflexivity.
Defined.

Section NoRetry.
Context {A : Type}.
Variable f : A -> bool.

Lemma only_one (a b pre post : list A) (x e : A) :
  Forall (fun y => f y = false) a -> Forall (fun y => f y = false) b ->
  (a ++ x :: b = pre ++ e :: post)%list -> f e = true ->
  pre = a /\ e = x /\ post = b.
Proof.
  intros Ha Hb. revert pre. induction Ha as [|y a Hy Ha IH]; intros pre Heq He.
  - destruct pre as [|p pre]; cbn [app] in Heq.
    + now injection Heq as -> ->.
    + injection Heq as -> Heq. exfalso. rewrite Forall_forall in Hb.
      assert (Hin : In e b) by (rewrite Heq; apply in_elt).
      rewrite (Hb e Hin) in He. discriminate.
  - destruct pre as [|p pre]; cbn [app] in Heq.
    + injection Heq as <- _. congruence.
    + injection Heq as <- Heq. destruct (IH pre Heq He) as (-> & -> & ->).
      now repeat split.
Qed.

Lemma none_in (l pre post : list A) (e : A) :
  Forall (fun y => f y = false) l -> l = (pre ++ e :: post)%list ->
  f e = true -> False.
Proof.
  intros Hl -> He. rewrite Forall_forall in Hl.
  rewrite (Hl e (in_elt e pre post)) in He. discriminate.
Qed.

End NoRetry.

Lemma fetches_no_failure {P : Platform} (l : list (Event P)) :
  only_fetches l -> none_failed l -> Forall (fun e => is_failure e = false) l.
Proof.
  unfold only_fetches, none_failed. rewrite !Forall_forall.
  intros Hf Hn e Hin. specialize (Hf e Hin). specialize (Hn e Hin).
  destruct e as [| | | | | ? ? ? [|] |]; simpl in *; congruence.
Qed.

(** X10: nothing is tried again.  In a run of the listener at most one
    fetch throws, and what follows the fetch that threw is the error on the
    console and one edit of the reply: no further fetch, of the message or of
    users. *)
Theorem no_retry (P : Platform) (fuel : nat) (i : Interaction)
        (w w' : World P) (log before after : list (Event P))
        (c : completion P unit) (e : Event P) :
  handler P fuel i w = Some (w', log, c) ->
  log = (before ++ e :: after)%list ->
  is_failure e = true ->
  Forall (fun e' => is_failure e' = false) before
  /\ exists err msg, after = [ConsoleError err; EditReply msg].
Proof.
  intros Hrun Hlog He.
  destruct (is_export_command i) eqn:Hcmd.
  2:{ rewrite (handler_not_command _ _ _ Hcmd) in Hrun.
      injection Hrun as <- <- <-. now destruct before. }
  destruct (inGuild i) eqn:Hguild.
  2:{ rewrite (handler_not_in_guild _ _ _ Hcmd Hguild) in Hrun.
      injection Hrun as <- <- <-. exfalso.
      apply (none_in is_failure [Reply msg_not_in_server true] before after e);
        [repeat constructor | exact Hlog | exact He]. }
  rewrite (handler_eq _ _ _ Hcmd Hguild) in Hrun.
  destruct (guild_failure P i w) as [err|].
  { injection Hrun as <- <- <-. exfalso.
    apply (none_in is_failure [DeferReply true] before after e);
      [repeat constructor | exact Hlog | exact He]. }
  destruct (resolve_channel P i w) as [msg|ch].
  { injection Hrun as <- <- <-. exfalso.
    apply (none_in is_failure [DeferReply true; EditReply msg] before after e);
      [repeat constructor | exact Hlog | exact He]. }
  rewrite export_from_eq in Hrun.
  set (id := messageId (parseMessageRef (option_message i))) in *.
  destruct (messages_fetch P w ch id) as [w1 [err|message]].
  - cbn [after_event] in Hrun. injection Hrun as <- <- <-.
    destruct (only_one is_failure [DeferReply true]
                [ConsoleError err; EditReply msg_message_fetch_failed]
                before after (MessagesFetch ch id (inl err)) e)
      as (-> & -> & ->); try assumption; repeat constructor.
    now exists err, msg_message_fetch_failed.
  - rewrite export_eq in Hrun.
    destruct (drain_all P fuel (reactions_cache message) w1)
      as [[[w2 l] [groups|err]]|] eqn:E; [| | discriminate];
      cbn [after_event] in Hrun; injection Hrun as <- <- <-;
      destruct (drain_all_log _ _ _ _ _ _ E) as [Hf Hc];
      pose proof (drain_all_run _ _ _ _ _ _ E) as Hr.
    + exfalso. destruct Hr as [_ Hn].
      apply (none_in is_failure _ before after e) with (2 := Hlog);
        [| exact He].
      constructor; [reflexivity |]. constructor; [reflexivity |].
      apply Forall_app. split; [now apply fetches_no_failure |].
      constructor; [| constructor]. unfold final_reply. now destruct (_ =? _).
    + destruct Hr as (l0 & r & a & -> & Hn).
      assert (Hf0 : only_fetches l0).
      { unfold only_fetches in *. now apply Forall_app in Hf as [Hf _]. }
      destruct (only_one is_failure
                  (DeferReply true :: MessagesFetch ch id (inr message) :: l0)
                  [ConsoleError err; EditReply msg_reaction_fetch_failed]
                  before after (UsersFetch r 100 a (inl err)) e)
        as (-> & -> & ->); try assumption.
      * constructor; [reflexivity |]. constructor; [reflexivity |].
        now apply fetches_no_failure.
      * repeat constructor.
      * rewrite <- Hlog. cbn [app]. do 2 f_equal. now rewrite <- app_assoc.
      * split; [| now exists err, msg_reaction_fetch_failed].
        constructor; [reflexivity |]. constructor; [reflexivity |].
        now apply fetches_no_failure.
Qed.

Lemma no_retry_witness :
  Forall (fun e' => is_failure e' = false)
         [DeferReply (P:=refusing_platform) true;
          MessagesFetch (P:=refusing_platform) (TextChannel "2222")
                        (JS.Str "3333") (inr party_message)]
  /\ exists err msg,
      [ConsoleError (P:=refusing_platform) "Missing Access";
       EditReply msg_reaction_fetch_failed]
      = [ConsoleError err; EditReply msg].
Proof.
  apply (no_retry refusing_platform 1 (link_interaction None) tt tt
                  refusing_log
                  [DeferReply (P:=refusing_platform) true;
                   MessagesFetch (P:=refusing_platform) (TextChannel "2222")
                                 (JS.Str "3333") (inr party_message)]
                  [ConsoleError (P:=refusing_platform) "Missing Access";
                   EditReply msg_reaction_fetch_failed]
                  (Normal tt)
                  (UsersFetch (P:=refusing_platform) party 100 JS.Undefined
                              (inl "Missing Access"))).
  - reflexivity.
  - reflexivity.
  - reflexivity.
Defined.

(** ** The loop on a platform that pages a list of users *)

Section Paging.
Context {P : Platform}.

Lemma last_key_app {V : Type} (a b : Collection V) :
  b <> [] -> last_key (a ++ b)%list = last_key b.
Proof.
  intros Hb. destruct (exists_last Hb) as (b' & [k v] & ->).
  now rewrite app_assoc, !last_key_snoc.
Qed.

Lemma keyed_app (a b : list User.t) :
  keyed (a ++ b) = (keyed a ++ keyed b)%list.
Proof. apply map_app. Qed.

Lemma values_keyed (us : list User.t) : values (keyed us) = us.
Proof. unfold values, keyed. rewrite map_map. apply map_id. Qed.

Lemma keys_keyed (us : list User.t) : map fst (keyed us) = map User.id us.
Proof. unfold keyed. now rewrite map_map. Qed.

(** The group [r], whose users the platform hands out in pages of the list
    [us]. *)
Variable r : Reaction.
Variable us : list User.t.
Hypothesis distinct_ids : NoDup (map User.id us).
Hypothesis paged :
  forall (w : World P) (after : JS.val),
  exists w', users_fetch P w r 100 after = (w', inr (page_of 100 after us)).

Lemma page_after (seen rest : list User.t) :
  us = (seen ++ rest)%list ->
  page_of 100 (cursor_after seen) us = firstn 100 (keyed rest).
Proof.
  intros Hus. unfold page_of. fold (keyed us).
  induction seen as [|u seen' _] using rev_ind.
  - cbn in Hus. now subst rest.
  - unfold cursor_after. rewrite keyed_app. cbn [keyed map].
    rewrite last_key_snoc. f_equal.
    assert (Hsplit : keyed us =
                     (keyed seen' ++ (User.id u, u) :: keyed rest)%list).
    { rewrite Hus, <- app_assoc, keyed_app. reflexivity. }
    rewrite (after_cursor_skipn (keyed us) (List.length (keyed seen'))
                                (User.id u) u).
    + rewrite Hsplit.
      change (S (List.length (keyed seen'))) with (1 + List.length (keyed seen')).
      rewrite <- skipn_skipn, skipn_app, skipn_all, Nat.sub_diag.
      reflexivity.
    + now rewrite keys_keyed.
    + rewrite Hsplit, nth_error_app2 by lia. now rewrite Nat.sub_diag.
Qed.

Lemma drain_paged (n : nat) :
  forall (seen rest : list User.t) (fuel : nat) (w : World P),
    us = (seen ++ rest)%list ->
    List.length rest < 100 * n -> n <= fuel ->
    exists w' log,
      drain P fuel r (cursor_after seen) w = Some (w', log, Normal rest)
      /\ List.length log = List.length rest / 100 + 1.
Proof.
  induction n as [|n IH]; intros seen rest fuel w Hus Hlen Hfuel; [lia |].
  destruct fuel as [|fuel]; [lia |].
  destruct (paged w (cursor_after seen)) as [w1 Hpage].
  rewrite (page_after seen rest Hus) in Hpage.
  destruct (Nat.lt_ge_cases (List.length rest) 100) as [Hlt | Hge].
  - rewrite firstn_all2 in Hpage by (unfold keyed; rewrite length_map; lia).
    exists w1, [UsersFetch r 100 (cursor_after seen) (inr (keyed rest))].
    split.
    + rewrite (drain_short_page _ _ _ _ _ _ Hpage)
        by (unfold keyed; rewrite length_map; lia).
      now rewrite values_keyed.
    + rewrite Nat.div_small by lia. reflexivity.
  - set (page := firstn 100 (keyed rest)) in *.
    assert (Hsize : List.length page = 100).
    { unfold page, keyed. rewrite length_firstn, length_map. lia. }
    assert (Hnext : last_key page = cursor_after (seen ++ firstn 100 rest)).
    { unfold cursor_after. rewrite keyed_app.
      change (keyed (firstn 100 rest)) with (map (fun u => (User.id u, u)) (firstn 100 rest)).
      rewrite <- firstn_map. fold (keyed rest). fold page.
      rewrite last_key_app; [reflexivity |].
      intros Hnil. rewrite Hnil in Hsize. discriminate. }
    destruct (IH (seen ++ firstn 100 rest)%list (skipn 100 rest) fuel w1)
      as (w2 & log & Hrest & Hcount).
    + now rewrite <- app_assoc, firstn_skipn.
    + rewrite length_skipn. lia.
    + lia.
    + exists w2, (UsersFetch r 100 (cursor_after seen) (inr page) :: log).
      split.
      * rewrite (drain_full_page _ _ _ _ _ _ Hpage) by lia.
        rewrite Hnext, Hrest. do 3 f_equal.
        unfold page, values, keyed. rewrite firstn_map, map_map.
        cbn [snd]. rewrite map_id. apply firstn_skipn.
      * cbn [List.length]. rewrite Hcount, length_skipn.
        replace (List.length rest)
          with ((List.length rest - 100) + 1 * 100) at 2 by lia.
        rewrite Nat.div_add by lia. lia.
Qed.

(** X11: on a platform that hands out the users of a group in pages of a
    list without repeated ids, the loop of the group appends the rows of all
    these users, each once and in the order of the list, and it fetches one
    page more than the hundreds the list holds: a list of exactly 100 users
    costs a second fetch, which comes back empty. *)
Theorem pagination_complete (fuel : nat) (inc : bool) (label : string)
        (csv : string) (w : World P) :
  List.length us / 100 < fuel ->
  exists w' log,
    paginate P fuel inc r label JS.Undefined csv w =
    Some (w', log, Normal (csv ++ rows inc label us))
    /\ List.length log = List.length us / 100 + 1.
Proof.
  intros Hfuel.
  destruct (drain_paged fuel [] us fuel w) as (w' & log & Hdrain & Hcount).
  - reflexivity.
  - pose proof (Nat.mul_succ_div_gt (List.length us) 100). nia.
  - lia.
  - exists w', log. split; [| exact Hcount].
    rewrite paginate_drain.
    change (cursor_after []) with JS.Undefined in Hdrain.
    rewrite (bind_normal _ _ _ _ _ _ Hdrain). cbn [ret].
    now rewrite app_nil_r.
Qed.

End Paging.

Lemma pagination_complete_witness :
  exists w' log,
    paginate crowd_platform 2 true partyblob "partyblob:999" JS.Undefined
             (header true) tt =
    Some (w', log,
          Normal (header true ++ rows true "partyblob:999" (some_users 150)))
    /\ List.length log = List.length (some_users 150) / 100 + 1.
Proof.
  apply (@pagination_complete crowd_platform partyblob (some_users 150)).
  - apply distinct_NoDup. vm_compute. reflexivity.
  - intros w after. exists w. reflexivity.
  - vm_compute. lia.
Defined.

Example exactly_100_users :
  paginate (paged_platform None (fun _ => Some (some_users 100))) 2 false
           party "🎉" JS.Undefined "" tt =
  Some (tt,
        [UsersFetch (P:=paged_platform None (fun _ => Some (some_users 100)))
                    party 100 JS.Undefined
                    (inr (page_of 100 JS.Undefined (some_users 100)));
         UsersFetch (P:=paged_platform None (fun _ => Some (some_users 100)))
                    party 100 (JS.Str "100") (inr [])],
        Normal (rows false "🎉" (some_users 100))).
Proof. vm_compute. reflexivity. Qed.

(** ** Reading the CSV text back *)

Section Csv.

Lemma lacks_append (c : ascii) (a b : string) :
  lacks c (a ++ b) = lacks c a && lacks c b.
Proof.
  induction a as [|x a IH]; [reflexivity |].
  cbn [append lacks]. now rewrite IH, andb_assoc.
Qed.

Lemma split_plain (sep : ascii) (a : string) :
  lacks sep a = true -> split_on sep a = [a].
Proof.
  induction a as [|x a IH]; [reflexivity |].
  cbn [lacks split_on]. intros H. apply andb_true_iff in H as [Hx Ha].
  apply negb_true_iff in Hx. now rewrite Hx, (IH Ha).
Qed.

Lemma split_append (sep : ascii) (a b : string) :
  lacks sep a = true ->
  split_on sep (a ++ String sep b) = a :: split_on sep b.
Proof.
  induction a as [|x a IH]; intros H.
  - cbn [append split_on]. now rewrite Ascii.eqb_refl.
  - cbn [lacks] in H. apply andb_true_iff in H as [Hx Ha].
    apply negb_true_iff in Hx.
    cbn [append split_on]. now rewrite Hx, (IH Ha).
Qed.

Lemma length_split (sep : ascii) (s : string) :
  List.length (split_on sep s) = S (occurrences sep s).
Proof.
  induction s as [|x s IH]; [reflexivity |].
  cbn [split_on occurrences]. destruct (Ascii.eqb x sep).
  - cbn [List.length]. now rewrite IH.
  - destruct (split_on sep s) as [|field fields]; [discriminate |].
    exact IH.
Qed.

Lemma occurrences_append (c : ascii) (a b : string) :
  occurrences c (a ++ b) = occurrences c a + occurrences c b.
Proof.
  induction a as [|x a IH]; [reflexivity |].
  cbn [append occurrences]. rewrite IH. lia.
Qed.

Lemma first_line_append (a b : string) :
  lacks (ascii_of_nat 10) a = true -> first_line (a ++ newline ++ b) = a.
Proof.
  induction a as [|x a IH]; intros H; [reflexivity |].
  cbn [lacks] in H. apply andb_true_iff in H as [Hx Ha].
  apply negb_true_iff in Hx.
  cbn [append first_line]. now rewrite Hx, (IH Ha).
Qed.

(** The lines of a text made of rows that end in a newline, when no row
    holds a newline of its own. *)
Lemma split_lines (texts : list string) :
  Forall (fun t => lacks (ascii_of_nat 10) t = true) texts ->
  split_on (ascii_of_nat 10) (concat "" (map (fun t => t ++ newline) texts))
  = (texts ++ [""])%list.
Proof.
  induction 1 as [|t texts Ht _ IH]; [reflexivity |].
  cbn [map]. rewrite concat_cons, append_assoc.
  change (newline ++ concat "" (map (fun t0 => t0 ++ newline) texts))
    with (String (ascii_of_nat 10)
                 (concat "" (map (fun t0 => t0 ++ newline) texts))).
  now rewrite (split_append _ _ _ Ht), IH.
Qed.

Lemma plain_parts (s : string) :
  plain s = true -> lacks "," s = true /\ lacks (ascii_of_nat 10) s = true.
Proof. unfold plain. now intros H%andb_true_iff. Qed.

Lemma row_text_lacks_newline (inc : bool) (label : string) (u : User.t) :
  plain label = true -> plain_user u = true ->
  lacks (ascii_of_nat 10) (row_text inc label u) = true.
Proof.
  unfold plain_user. intros Hl Hu.
  apply andb_true_iff in Hu as [Hu Hid]. apply andb_true_iff in Hu as [Hn Hd].
  apply plain_parts in Hl as [_ Hl], Hn as [_ Hn], Hd as [_ Hd], Hid as [_ Hid].
  unfold row_text. destruct inc; rewrite !lacks_append, Hl, Hn, Hd, ?Hid;
    reflexivity.
Qed.

Lemma row_text_fields (inc : bool) (label : string) (u : User.t) :
  plain label = true -> plain_user u = true ->
  split_on "," (row_text inc label u) = record_of inc label u.
Proof.
  unfold plain_user. intros Hl Hu.
  apply andb_true_iff in Hu as [Hu Hid]. apply andb_true_iff in Hu as [Hn Hd].
  apply plain_parts in Hl as [Hl _], Hn as [Hn _], Hd as [Hd _], Hid as [Hid _].
  assert (Htag : lacks "," (User.username u ++ "#" ++ User.discriminator u)
                 = true)
    by (rewrite !lacks_append, Hn, Hd; reflexivity).
  set (tag := User.username u ++ "#" ++ User.discriminator u) in *.
  assert (E : row_text inc label u =
              label ++ String ","
                (tag ++ (if inc then String "," (User.id u) else ""))).
  { unfold row_text, tag. rewrite !append_assoc. now destruct inc. }
  rewrite E, (split_append _ _ _ Hl). unfold record_of. fold tag.
  destruct inc.
  - now rewrite (split_append _ _ _ Htag), (split_plain _ _ Hid).
  - now rewrite append_empty_r, (split_plain _ _ Htag).
Qed.

Lemma rows_as_lines (inc : bool) (label : string) (us : list User.t) :
  rows inc label us =
  concat "" (map (fun t => t ++ newline) (map (row_text inc label) us)).
Proof.
  unfold rows. rewrite map_map. f_equal. apply map_ext.
  intros u. apply line_text.
Qed.

End Csv.

Section RoundTrip.

Lemma grouped_as_lines (inc : bool) (groups : list (Reaction * list User.t)) :
  grouped_rows inc groups =
  concat "" (map (fun t => t ++ newline) (row_texts inc groups)).
Proof.
  induction groups as [|[r us] groups IH]; [reflexivity |].
  rewrite grouped_rows_cons, IH, rows_as_lines. unfold row_texts.
  cbn [flat_map fst snd]. now rewrite map_app, concat_app.
Qed.

Lemma row_texts_lack_newline (inc : bool)
      (groups : list (Reaction * list User.t)) :
  Forall plain_group groups ->
  Forall (fun t => lacks (ascii_of_nat 10) t = true) (row_texts inc groups).
Proof.
  induction 1 as [|[r us] groups [Hl Hus] _ IH]; [constructor |].
  unfold row_texts. cbn [flat_map fst snd] in *. apply Forall_app. split.
  - clear IH. induction Hus as [|u us Hu _ IHus]; [constructor |].
    constructor; [now apply row_text_lacks_newline | exact IHus].
  - exact IH.
Qed.

Lemma row_texts_fields (inc : bool) (groups : list (Reaction * list User.t)) :
  Forall plain_group groups ->
  map (split_on ",") (row_texts inc groups) =
  flat_map (fun g => map (record_of inc (emojiLabel (fst g))) (snd g)) groups.
Proof.
  induction 1 as [|[r us] groups [Hl Hus] _ IH]; [reflexivity |].
  unfold row_texts in *. cbn [flat_map fst snd] in *.
  rewrite map_app, IH. f_equal.
  clear IH. induction Hus as [|u us Hu _ IHus]; [reflexivity |].
  cbn [map]. now rewrite row_text_fields, IHus.
Qed.

Lemma header_as_line (inc : bool) :
  header inc = (if inc then "Emoji,User,User ID" else "Emoji,User") ++ newline.
Proof. now destruct inc. Qed.

End RoundTrip.

(** X12: the file reads back.  When no label and no user name, discriminator
    or id holds a comma or a newline, splitting the text that the exporter
    builds into lines and the lines at their commas gives the header record
    and then, group after group and user after user, exactly the label, the
    name#discriminator and (with ids) the id that went in. *)
Theorem csv_round_trip (inc : bool) (groups : list (Reaction * list User.t)) :
  Forall plain_group groups ->
  records (header inc ++ grouped_rows inc groups) =
  header_record inc
  :: flat_map (fun g => map (record_of inc (emojiLabel (fst g))) (snd g))
              groups.
Proof.
  intros Hplain. unfold records.
  set (head := if inc then "Emoji,User,User ID" else "Emoji,User").
  assert (E : header inc ++ grouped_rows inc groups =
              concat "" (map (fun t => t ++ newline)
                             (head :: row_texts inc groups))).
  { cbn [map]. rewrite concat_cons, grouped_as_lines, header_as_line.
    reflexivity. }
  rewrite E, split_lines.
  - rewrite removelast_last. cbn [map]. rewrite (row_texts_fields inc groups Hplain).
    f_equal. unfold head, header_record. now destruct inc.
  - constructor; [unfold head; now destruct inc |].
    now apply row_texts_lack_newline.
Qed.

Lemma csv_round_trip_witness :
  records (header true
           ++ grouped_rows true [(party, some_users 2); (thumbs, some_users 3)])
  = header_record true
    :: flat_map (fun g => map (record_of true (emojiLabel (fst g))) (snd g))
                [(party, some_users 2); (thumbs, some_users 3)].
Proof.
  apply (csv_round_trip true [(party, some_users 2); (thumbs, some_users 3)]).
  repeat (constructor; try (split; [reflexivity |]); try reflexivity).
Defined.

Example party_records :
  records (party_csv true) =
  [["Emoji"; "User"; "User ID"];
   ["🎉"; "user1#0"; "1"]; ["🎉"; "user2#0"; "2"];
   ["👍"; "user1#0"; "1"]; ["👍"; "user2#0"; "2"]; ["👍"; "user3#0"; "3"]].
Proof. reflexivity. Qed.

(** X13: fields are written as they are, without quoting.  A row whose
    fields hold no newline splits at its commas into as many parts as the
    header has columns plus one for every comma inside the label, the user
    name, the discriminator and (with ids) the id. *)
Theorem row_field_count (inc : bool) (label : string) (u : User.t) :
  lacks (ascii_of_nat 10) label = true ->
  lacks (ascii_of_nat 10) (User.username u) = true ->
  lacks (ascii_of_nat 10) (User.discriminator u) = true ->
  lacks (ascii_of_nat 10) (User.id u) = true ->
  List.length (split_on "," (first_line (line inc label u))) =
  List.length (header_record inc)
  + occurrences "," label + occurrences "," (User.username u)
  + occurrences "," (User.discriminator u)
  + (if inc then occurrences "," (User.id u) else 0).
Proof.
  intros Hl Hn Hd Hid.
  assert (Hrow : lacks (ascii_of_nat 10) (row_text inc label u) = true).
  { unfold row_text. destruct inc; rewrite !lacks_append, Hl, Hn, Hd, ?Hid;
      reflexivity. }
  rewrite line_text.
  rewrite <- (append_empty_r newline), (first_line_append _ "" Hrow).
  rewrite length_split. unfold row_text.
  destruct inc; rewrite !occurrences_append; cbn [occurrences header_record
    List.length Ascii.eqb Bool.eqb]; simpl; lia.
Qed.

Lemma row_field_count_witness :
  List.length (split_on "," (first_line (line true "👍" comma_user))) =
  List.length (header_record true)
  + occurrences "," "👍" + occurrences "," (User.username comma_user)
  + occurrences "," (User.discriminator comma_user)
  + occurrences "," (User.id comma_user).
Proof.
  apply (row_field_count true "👍" comma_user); reflexivity.
Defined.

Example comma_in_name :
  split_on "," (first_line (line true "👍" comma_user)) =
  ["👍"; "Doe"; " Jane#0042"; "7"].
Proof. reflexivity. Qed.

(** * Startup *)

Section TrimFacts.
Import Trim.

Lemma strip_space_shorter (s r : string) :
  strip_space s = Some r -> length r < length s.
Proof.
  unfold strip_space. destruct s as [|a [|b [|c s3]]];
    repeat match goal with
           | |- context [if ?b then _ else _] => destruct b
           end;
    intros [= <-]; simpl; lia.
Qed.

Lemma strip_space_back_shorter (s r : string) :
  strip_space_back s = Some r -> length r < length s.
Proof.
  unfold strip_space_back. destruct s as [|a [|b [|c s3]]];
    repeat match goal with
           | |- context [if ?b then _ else _] => destruct b
           end;
    intros [= <-]; simpl; lia.
Qed.

Lemma strip_all_done (strip : string -> option string) :
  (forall s r, strip s = Some r -> length r < length s) ->
  forall n s, length s <= n -> strip (strip_all strip n s) = None.
Proof.
  intros Hshorter. induction n as [|n IH]; intros s Hlen.
  - cbn [strip_all]. destruct (strip s) as [r|] eqn:E; [| reflexivity].
    apply Hshorter in E. lia.
  - cbn [strip_all]. destruct (strip s) as [r|] eqn:E; [| exact E].
    apply IH. apply Hshorter in E. lia.
Qed.

Lemma strip_space_append (t r y : string) :
  strip_space t = Some r -> strip_space (t ++ y) = Some (r ++ y).
Proof.
  unfold strip_space. destruct t as [|a [|b [|c t3]]]; cbn [append];
    repeat match goal with
           | |- context [if ?b then _ else _] => destruct b
           end;
    try discriminate; now intros [= <-].
Qed.

Lemma strip_space_back_split (r r' : string) :
  strip_space_back r = Some r' -> exists x, r = x ++ r'.
Proof.
  unfold strip_space_back. destruct r as [|c [|b [|a r3]]];
    repeat match goal with
           | |- context [if ?b then _ else _] => destruct b
           end;
    try discriminate; intros [= <-].
  all: first [ now exists (String c "")
             | now exists (String c (String b ""))
             | now exists (String c (String b (String a ""))) ].
Qed.

Lemma strip_all_back_split (n : nat) (r : string) :
  exists x, r = x ++ strip_all strip_space_back n r.
Proof.
  revert r. induction n as [|n IH]; intros r; [now exists "" |].
  cbn [strip_all]. destruct (strip_space_back r) as [r'|] eqn:E;
    [| now exists ""].
  destruct (strip_space_back_split _ _ E) as [x ->].
  destruct (IH r') as [x' Hx']. exists (x ++ x').
  now rewrite append_assoc, <- Hx'.
Qed.

Lemma list_of_append (a b : string) :
  list_ascii_of_string (a ++ b) =
  (list_ascii_of_string a ++ list_ascii_of_string b)%list.
Proof. induction a as [|x a IH]; [reflexivity |]. cbn. now rewrite IH. Qed.

Lemma string_of_app (l1 l2 : list ascii) :
  string_of_list_ascii (l1 ++ l2) =
  string_of_list_ascii l1 ++ string_of_list_ascii l2.
Proof. induction l1 as [|x l1 IH]; [reflexivity |]. cbn. now rewrite IH. Qed.

Lemma reverse_append (a b : string) :
  reverse (a ++ b) = reverse b ++ reverse a.
Proof.
  unfold reverse. now rewrite list_of_append, rev_app_distr, string_of_app.
Qed.

Lemma reverse_involutive (s : string) : reverse (reverse s) = s.
Proof.
  unfold reverse.
  now rewrite list_ascii_of_string_of_list_ascii, rev_involutive,
    string_of_list_ascii_of_string.
Qed.

Lemma length_reverse (s : string) : length (reverse s) = length s.
Proof.
  induction s as [|x s IH]; [reflexivity |].
  change (String x s) with (String x "" ++ s).
  rewrite reverse_append, !length_append, IH. cbn. lia.
Qed.

Lemma trimStart_done (s : string) : strip_space (trimStart s) = None.
Proof. apply (strip_all_done _ strip_space_shorter). lia. Qed.

(** [trim] leaves a text that neither starts nor ends with white space, and
    it is a part of the text given. *)
Lemma trim_done (s : string) :
  strip_space (trim s) = None /\ strip_space_back (reverse (trim s)) = None.
Proof.
  unfold trim, trimEnd. set (a := trimStart s). split.
  - destruct (strip_all_back_split (length a) (reverse a)) as [x Hx].
    set (b := strip_all strip_space_back (length a) (reverse a)) in *.
    assert (Ha : a = reverse b ++ reverse x).
    { rewrite <- (reverse_involutive a), Hx. apply reverse_append. }
    destruct (strip_space (reverse b)) as [r|] eqn:E; [| reflexivity].
    apply (strip_space_append _ _ (reverse x)) in E. rewrite <- Ha in E.
    unfold a in E. rewrite trimStart_done in E. discriminate.
  - rewrite reverse_involutive.
    apply (strip_all_done _ strip_space_back_shorter).
    now rewrite length_reverse.
Qed.

Lemma trim_blank (s : string) : blank s = true -> trim s = "".
Proof.
  unfold blank, trim. intros H. apply String.eqb_eq in H. now rewrite H.
Qed.

End TrimFacts.

(** X14: startup and the token.  When DISCORD_TOKEN is not set or holds
    nothing but white space, the program writes the missing-token error and
    exits with status 1 without logging in.  When it logs in, it is with the
    trimmed value of DISCORD_TOKEN, which is not empty and neither starts nor
    ends with white space, and logging in is all it does. *)
Theorem startup_token (env : Env) :
  ((DISCORD_TOKEN env = None
    \/ exists s, DISCORD_TOKEN env = Some s /\ Trim.blank s = true) ->
   main env = [ConsoleErrorText msg_missing_token; Exit 1])
  /\ (forall token,
         In (Login token) (main env) ->
         exists s,
           DISCORD_TOKEN env = Some s
           /\ token = JS.Str (Trim.trim s)
           /\ main env = [Login token]
           /\ Trim.trim s <> ""
           /\ Trim.strip_space (Trim.trim s) = None
           /\ Trim.strip_space_back (Trim.reverse (Trim.trim s)) = None).
Proof.
  unfold main, env_trim. split.
  - intros [-> | (s & -> & Hblank)]; [reflexivity |].
    now rewrite (trim_blank s Hblank).
  - intros token Hin. destruct (DISCORD_TOKEN env) as [s|].
    + exists s. split; [reflexivity |].
      cbn [JS.truthy] in *. rewrite negb_involutive in *.
      destruct (Trim.trim s =? "") eqn:E; cbn [negb] in Hin.
      * destruct Hin as [Hin | [Hin | []]]; discriminate.
      * destruct Hin as [Hin | []]. injection Hin as <-.
        apply String.eqb_neq in E.
        destruct (trim_done s) as [Hstart Hend]. now repeat split.
    + cbn in Hin. destruct Hin as [Hin | [Hin | []]]; discriminate.
Qed.

Lemma startup_token_witness :
  main (mkEnv (Some "   ") None) = [ConsoleErrorText msg_missing_token; Exit 1]
  /\ exists s,
      Some "  secret " = Some s
      /\ JS.Str "secret" = JS.Str (Trim.trim s)
      /\ main (mkEnv (Some "  secret ") (Some "1111")) = [Login (JS.Str "secret")]
      /\ Trim.trim s <> ""
      /\ Trim.strip_space (Trim.trim s) = None
      /\ Trim.strip_space_back (Trim.reverse (Trim.trim s)) = None.
Proof.
  split.
  - apply (proj1 (startup_token (mkEnv (Some "   ") None))).
    right. exists "   ". split; reflexivity.
  - apply (proj2 (startup_token (mkEnv (Some "  secret ") (Some "1111")))
                 (JS.Str "secret")).
    left. reflexivity.
Defined.

(** X15: registration.  The ready listener sends exactly one request, whose
    body is the one command; the request goes to the guild route, under the
    trimmed GUILD_ID, when that is not empty, and to the global route when
    GUILD_ID is not set or holds nothing but white space.  When the request
    throws, the listener reports the error on the console and ends there:
    it reports no registration and does not throw. *)
Theorem registration_scope (E : Type) (env : Env) (user : ClientUser)
        (put : Route -> list Command -> E + unit) :
  let guildId := env_trim (GUILD_ID env) in
  let route :=
    if JS.truthy guildId
    then ApplicationGuildCommands (user_id user) guildId
    else ApplicationCommands (user_id user) in
  filter is_put (ready env user put) =
  [Put route [exportCommand] (put route [exportCommand])]
  /\ ((GUILD_ID env = None
       \/ exists g, GUILD_ID env = Some g /\ Trim.blank g = true) ->
      route = ApplicationCommands (user_id user))
  /\ (forall err,
         put route [exportCommand] = inl err ->
         ready env user put =
         [ConsoleLog ("✅ Logged in as " ++ user_tag user);
          Put route [exportCommand] (inl err);
          ConsoleErrorWith msg_register_failed err])
  /\ (forall ok,
         put route [exportCommand] = inr ok ->
         exists done,
           ready env user put =
           [ConsoleLog ("✅ Logged in as " ++ user_tag user);
            Put route [exportCommand] (inr ok);
            ConsoleLog done]).
Proof.
  intros guildId route. unfold ready. fold guildId.
  repeat split.
  - subst route. destruct (JS.truthy guildId);
      match goal with
      | |- context [put ?r ?b] => destruct (put r b)
      end; reflexivity.
  - subst route guildId. unfold env_trim.
    intros [-> | (g & -> & Hblank)]; [reflexivity |].
    now rewrite (trim_blank g Hblank).
  - intros err Hput. subst route. destruct (JS.truthy guildId);
      now rewrite Hput.
  - intros ok Hput. subst route. destruct (JS.truthy guildId);
      rewrite Hput; eexists; reflexivity.
Qed.

Lemma registration_scope_witness :
  (if JS.truthy (env_trim (GUILD_ID (mkEnv (Some "secret") (Some "  "))))
   then ApplicationGuildCommands "42"
          (env_trim (GUILD_ID (mkEnv (Some "secret") (Some "  "))))
   else ApplicationCommands "42")
  = ApplicationCommands "42".
Proof.
  apply (proj1 (proj2 (registration_scope unit
                         (mkEnv (Some "secret") (Some "  "))
                         (mkClientUser "bot#0001" "42")
                         (fun _ _ => inr tt)))).
  right. exists "  ". split; reflexivity.
Defined.

Example trim_spaces :
  Trim.trim (String (ascii_of_nat 194) (String (ascii_of_nat 160) " 1111")
             ++ String (ascii_of_nat 227)
                  (String (ascii_of_nat 128) (String (ascii_of_nat 128) ""))
             ++ newline)
  = "1111".
Proof. reflexivity. Qed.

Example ready_for_guild :
  ready (mkEnv (Some "secret") (Some " 1111 "))
        (mkClientUser "bot#0001" "42") (fun _ _ => inl "Missing Access") =
  [ConsoleLog "✅ Logged in as bot#0001";
   Put (ApplicationGuildCommands "42" (JS.Str "1111")) [exportCommand]
       (inl "Missing Access");
   ConsoleErrorWith msg_register_failed "Missing Access"].
Proof. reflexivity. Qed.

(** ** The fetches of a message, group by group *)

Section Chains.
Context {P : Platform}.

(** The chains of the groups that [drain_all] returns are the chains of the
    reactions, in the order of the cache. *)
Lemma chains_of_groups (reactions : Collection Reaction)
      (groups : list (Reaction * list User.t)) (logs : list (list (Event P))) :
  map fst groups = map snd reactions ->
  Forall2 (fun g l => chained (fst g) JS.Undefined l
                      /\ none_failed l /\ fetched l = snd g)
          groups logs ->
  Forall2 (fun entry l => chained (snd entry) JS.Undefined l /\ none_failed l)
          reactions logs.
Proof.
  intros Hmap Hall. revert reactions Hmap.
  induction Hall as [|g l groups logs (Hc & Hn & _) _ IH];
    intros [|entry reactions] Hmap; try discriminate; [constructor |].
  cbn [map] in Hmap. injection Hmap as Hfst Hmap.
  constructor; [| now apply IH]. rewrite <- Hfst. now split.
Qed.

End Chains.

(** C6: the label of a reaction group and the rows it is used in.  The
    label is [name:id] when the emoji has an id, else the name when there is
    one, else [unknown].  When the loop over the groups returns, every group
    of the cache has, in the order of the cache, a chain of fetches of its
    own none of which threw; the users of a group are the users of the pages
    fetched for that group; and the text has grown by the rows of these
    users, group after group, every row of a group being the label of that
    group, a comma, the user's tag, the id when ids are included, and a
    newline.  Every row starts with the label of its group and a comma, and
    the custom emoji partyblob with the id 999 is labelled
    [partyblob:999]. *)
Theorem emojiLabel_cases :
  (forall (reaction : Reaction) (e : Emoji.t),
      emoji reaction = Some e ->
      (JS.truthy (Emoji.id e) = true ->
       emojiLabel reaction =
       JS.to_string (Emoji.name e) ++ ":" ++ JS.to_string (Emoji.id e))
      /\ (JS.truthy (Emoji.id e) = false ->
          forall name, Emoji.name e = JS.Str name -> emojiLabel reaction = name)
      /\ (JS.truthy (Emoji.id e) = false ->
          JS.nullish (Emoji.name e) = true -> emojiLabel reaction = "unknown"))
  /\ (forall reaction : Reaction,
         emoji reaction = None -> emojiLabel reaction = "unknown")
  /\ (forall (P : Platform) (fuel : nat) (inc : bool)
             (reactions : Collection Reaction) (csv csv' : string)
             (w w' : World P) (log : list (Event P)),
         for_reactions P fuel inc reactions csv w = Some (w', log, Normal csv') ->
         exists groups logs,
           map fst groups = map snd reactions
           /\ log = List.concat logs
           /\ Forall2 (fun g l => chained (fst g) JS.Undefined l
                                 /\ none_failed l /\ fetched l = snd g)
                      groups logs
           /\ csv' = csv ++ concat ""
                       (map (fun g =>
                               concat ""
                                 (map (fun u =>
                                         emojiLabel (fst g) ++ ","
                                         ++ User.username u ++ "#"
                                         ++ User.discriminator u
                                         ++ (if inc then "," ++ User.id u
                                             else "")
                                         ++ newline)
                                      (snd g)))
                            groups))
  /\ (forall (inc : bool) (label : string) (user : User.t),
         exists rest, line inc label user = label ++ "," ++ rest)
  /\ emojiLabel partyblob = "partyblob:999".
Proof.
  split; [| split; [| split; [| split]]].
  - intros reaction e H. unfold emojiLabel. rewrite H.
    split; [| split].
    + now intros ->.
    + now intros -> name ->.
    + now intros -> ->.
  - intros reaction H. unfold emojiLabel. now rewrite H.
  - intros P fuel inc reactions csv csv' w w' log Hrun.
    rewrite for_reactions_drain_all in Hrun. unfold bind in Hrun.
    destruct (drain_all P fuel reactions w) as [[[w1 l] [groups|err]]|] eqn:E;
      try discriminate.
    cbn [ret] in Hrun. injection Hrun as _ <- <-. rewrite app_nil_r.
    destruct (drain_all_groups _ _ _ _ _ _ E) as (logs & -> & Hfst & Hall).
    exists groups, logs.
    split; [exact Hfst |]. split; [reflexivity |]. split; [exact Hall |].
    f_equal. unfold grouped_rows, rows. f_equal. apply map_ext. intros g.
    f_equal. apply map_ext. intros u. unfold line.
    destruct inc; rewrite ?append_assoc; reflexivity.
  - intros inc label user. unfold line. destruct inc; eexists; reflexivity.
  - reflexivity.
Qed.

Lemma emojiLabel_cases_witness :
  emojiLabel partyblob = "partyblob" ++ ":" ++ "999"
  /\ emojiLabel party = "🎉"
  /\ emojiLabel (mkReaction None) = "unknown"
  /\ exists groups logs,
      map fst groups = map snd (reactions_cache party_message)
      /\ party_fetches = List.concat logs
      /\ Forall2 (fun g l => chained (fst g) JS.Undefined l
                            /\ none_failed l /\ fetched l = snd g)
                 groups logs
      /\ party_csv true
         = header true
           ++ concat ""
                (map (fun g =>
                        concat ""
                          (map (fun u =>
                                  emojiLabel (fst g) ++ ","
                                  ++ User.username u ++ "#"
                                  ++ User.discriminator u
                                  ++ "," ++ User.id u
                                  ++ newline)
                               (snd g)))
                     groups).
Proof.
  split; [| split; [| split]].
  - apply (proj1 (proj1 emojiLabel_cases partyblob
                        (Emoji.mk (JS.Str "999") (JS.Str "partyblob"))
                        eq_refl)).
    reflexivity.
  - apply (proj1 (proj2 (proj1 emojiLabel_cases party
                               (Emoji.mk JS.Null (JS.Str "🎉")) eq_refl))).
    + reflexivity.
    + reflexivity.
  - apply (proj1 (proj2 emojiLabel_cases)). reflexivity.
  - apply (proj1 (proj2 (proj2 emojiLabel_cases)) party_platform 1 true
                 (reactions_cache party_message) (header true)
                 (party_csv true) tt tt party_fetches).
    reflexivity.
Defined.

(** X16: the fetches of a message are the chains of its reaction groups,
    one after the other in the order of the groups, each chain starting
    without a cursor.  When the loop over the groups returns, every group
    has its chain and no fetch threw.  When a fetch throws, the groups
    before the one it was fetched for have their chains, in which no fetch
    threw; the chain of that group ends with the fetch that threw; and that
    fetch is the last event of the loop: the groups after it are never
    fetched. *)
Theorem fetches_by_group (P : Platform) (fuel : nat) (inc : bool)
        (reactions : Collection Reaction) (csv : string)
        (w w' : World P) (log : list (Event P)) (c : completion P string) :
  for_reactions P fuel inc reactions csv w = Some (w', log, c) ->
  match c with
  | Normal _ =>
      exists logs,
        log = List.concat logs
        /\ Forall2 (fun entry l => chained (snd entry) JS.Undefined l
                                  /\ none_failed l)
                   reactions logs
  | Throw err =>
      exists done k r rest logs last,
        reactions = (done ++ (k, r) :: rest)%list
        /\ log = (List.concat logs ++ last)%list
        /\ Forall2 (fun entry l => chained (snd entry) JS.Undefined l
                                  /\ none_failed l)
                   done logs
        /\ chained r JS.Undefined last
        /\ exists before after,
            last = (before ++ [UsersFetch r 100 after (inl err)])%list
            /\ none_failed before
  end.
Proof.
  rewrite for_reactions_drain_all. unfold bind.
  destruct (drain_all P fuel reactions w) as [[[w1 l] [groups|err]]|] eqn:E;
    [| | discriminate]; cbn [ret]; intros [= <- <- <-];
    pose proof (drain_all_groups _ _ _ _ _ _ E) as H.
  - destruct H as (logs & -> & Hfst & Hall). exists logs.
    rewrite app_nil_r. split; [reflexivity |].
    now apply (chains_of_groups reactions groups).
  - exact H.
Qed.

Lemma fetches_by_group_witness :
  (exists logs,
      party_fetches = List.concat logs
      /\ Forall2 (fun entry l => chained (snd entry) JS.Undefined l
                                /\ none_failed l)
                 (reactions_cache party_message) logs)
  /\ (exists done k r rest logs last,
         reactions_cache party_message = (done ++ (k, r) :: rest)%list
         /\ refused_fetch = (List.concat logs ++ last)%list
         /\ Forall2 (fun entry l => chained (snd entry) JS.Undefined l
                                   /\ none_failed l)
                    done logs
         /\ chained r JS.Undefined last
         /\ exists before after,
             last = (before ++ [UsersFetch (P:=refusing_platform) r 100 after
                                           (inl "Missing Access")])%list
             /\ none_failed before).
Proof.
  split.
  - apply (fetches_by_group party_platform 1 true
                            (reactions_cache party_message) (header true) tt tt
                            party_fetches (Normal (party_csv true))).
    reflexivity.
  - apply (fetches_by_group refusing_platform 1 true
                            (reactions_cache party_message) (header true) tt tt
                            refused_fetch
                            (Throw (P:=refusing_platform) "Missing Access")).
    reflexivity.
Defined.

(** X17: include_user_ids changes the text of the file and nothing else.
    With another value of the option the listener leaves the platform in the
    same state and does the same things in the same order: the same fetches
    with the same results, the same replies, a file exactly when there was
    one; only the text of the file may differ. *)
Theorem ids_option_only_text (P : Platform) (fuel : nat) (i : Interaction)
        (value : option bool) (w w' : World P) (log : list (Event P))
        (c : completion P unit) :
  handler P fuel i w = Some (w', log, c) ->
  exists log',
    handler P fuel (with_include_user_ids i value) w = Some (w', log', c)
    /\ map without_data log' = map without_data log.
Proof.
  intros Hrun. set (i' := with_include_user_ids i value).
  destruct (is_export_command i) eqn:Hcmd.
  2:{ rewrite (handler_not_command _ _ _ Hcmd) in Hrun.
      injection Hrun as <- <- <-. exists [].
      split; [| reflexivity]. now apply handler_not_command. }
  destruct (inGuild i) eqn:Hguild.
  2:{ rewrite (handler_not_in_guild _ _ _ Hcmd Hguild) in Hrun.
      injection Hrun as <- <- <-. exists [Reply msg_not_in_server true].
      split; [| reflexivity]. now apply handler_not_in_guild. }
  rewrite (handler_eq _ _ _ Hcmd Hguild) in Hrun.
  rewrite (handler_eq fuel i' w Hcmd Hguild).
  change (guild_failure P i' w) with (guild_failure P i w).
  change (resolve_channel P i' w) with (resolve_channel P i w).
  change (option_message i') with (option_message i).
  change (option_include_user_ids i') with value.
  destruct (guild_failure P i w) as [err|].
  { injection Hrun as <- <- <-. now exists [DeferReply true]. }
  destruct (resolve_channel P i w) as [msg|ch].
  { injection Hrun as <- <- <-. now exists [DeferReply true; EditReply msg]. }
  rewrite export_from_eq in *.
  destruct (messages_fetch P w ch _) as [w1 [err|message]].
  { cbn [after_event] in *. injection Hrun as <- <- <-.
    eexists. split; reflexivity. }
  rewrite export_eq in *.
  destruct (drain_all P fuel (reactions_cache message) w1)
    as [[[w2 l] [groups|err]]|]; [| | discriminate];
    cbn [after_event] in *; injection Hrun as <- <- <-;
    (eexists; split; [reflexivity |]).
  - cbn [map]. do 2 f_equal. rewrite !map_app. f_equal. cbn [map]. f_equal.
    destruct (final_reply_cases (P:=P) (JS.coalesce value true) groups)
      as [[Hnil ->] | [Hsome ->]];
      destruct (final_reply_cases (P:=P)
                  (JS.coalesce (option_include_user_ids i) true) groups)
      as [[Hnil' ->] | [Hsome' ->]]; try reflexivity; contradiction.
  - reflexivity.
Qed.

Lemma ids_option_only_text_witness :
  exists log',
    handler party_platform 1
            (with_include_user_ids (link_interaction None) (Some false)) tt
    = Some (tt, log', Normal tt)
    /\ map without_data log' = map without_data (party_log true).
Proof.
  apply (ids_option_only_text party_platform 1 (link_interaction None)
                              (Some false) tt tt (party_log true) (Normal tt)).
  reflexivity.
Defined.
